(** * Grammatical Cosmos: the similarity globe

    A shallow embedding of the globe view of the front end
    ([components/Globe/Globe.tsx], [components/Globe/LanguageSimilarityPanel.tsx],
    [components/Globe/LanguagePopup.tsx], [data/languageLocations.ts],
    [pages/GlobePage.tsx]) and the properties of its arc builder, its
    ranking panel, its colour mapping and its word-order summary; then
    the rest of these components, the zoom of the comparison page
    ([pages/ComparisonPage.tsx], [components/ZoomControls.tsx]), the
    comparison table of head directions
    ([components/HeadDirectionPanel.tsx]) and the parsers of the two
    tables ([hooks/useLanguageData.ts]).

    JavaScript numbers are IEEE 754 binary64 values; they are modelled by
    Rocq's primitive floats, whose operations are the same binary64
    operations.  JavaScript objects used as dictionaries are finite maps
    with string keys; where the popup reads a row under a name it is
    given, the properties the row inherits from [Object.prototype] are
    modelled too. *)

From Stdlib Require Import ZArith QArith Qminmax Floats String Ascii List Bool Lia Sorted.
From stdpp Require Import base option list gmap strings.

Set Warnings "-inexact-float".

Local Open Scope float_scope.

(** ** JavaScript numbers and the [Math] functions the code calls *)

Module JS.

(** [Math.max(a, b)]: NaN if either argument is NaN, and [+0] is larger
    than [-0]. *)
Definition Math_max (a b : float) : float :=
  if is_nan a || is_nan b then nan
  else if a <? b then b
  else if b <? a then a
  else match classify a with NZero => b | _ => a end.

(** [Math.min(a, b)]: NaN if either argument is NaN, and [-0] is smaller
    than [+0]. *)
Definition Math_min (a b : float) : float :=
  if is_nan a || is_nan b then nan
  else if a <? b then a
  else if b <? a then b
  else match classify a with NZero => a | _ => b end.

(** [Math.round(x)]: the integer nearest to [x], ties towards +infinity;
    NaN, the infinities and the zeros are returned unchanged, and a
    negative [x] that rounds to zero gives [-0].  The rounding is done on
    the exact value [m * 2^e] of the argument. *)
Definition Math_round (x : float) : float :=
  match Prim2SF x with
  | S754_finite s m e =>
      if (0 <=? e)%Z then x
      else
        let v2 := (2 * cond_Zopp s (Zpos m) + 2 ^ (- e))%Z in
        SF2Prim (binary_normalize prec emax (v2 / 2 ^ (1 - e))%Z 0%Z s)
  | _ => x
  end.

(** [Math.PI] *)
Definition Math_PI : float := 3.141592653589793.

(** Truthiness of a string and of an optional string ([undefined] and the
    empty string are falsy). *)
Definition truthy (s : string) : bool := negb (String.eqb s EmptyString).

Definition truthy_opt (s : option string) : bool :=
  match s with Some s => truthy s | None => false end.

(** A cell of a parsed table: a number or [null]; an absent key
    ([undefined]) is a failed lookup in the map. *)
Inductive cell : Type :=
  | Null
  | Num (x : float).

(** [Array.prototype.sort(cmp)]: a stable sort driven by the sign of the
    comparator; a comparator result that is not positive (negative, zero
    or NaN) leaves the two elements in their order. *)
Fixpoint sort_insert {A : Type} (cmp : A -> A -> float) (x : A) (l : list A) : list A :=
  match l with
  | [] => [x]
  | y :: l' => if 0 <? cmp x y then y :: sort_insert cmp x l' else x :: y :: l'
  end.

Fixpoint Array_sort {A : Type} (cmp : A -> A -> float) (l : list A) : list A :=
  match l with
  | [] => []
  | x :: l' => sort_insert cmp x (Array_sort cmp l')
  end.

End JS.

Import JS.

(** ** Distance buckets, opacity and colour ([Globe.tsx]) *)

Module Category.
Inductive t : Type :=
  | veryClose | close | slightlyClose | slightlyFar | far | veryFar | same.

#[global] Instance eq_dec : EqDecision t.
Proof. solve_decision. Defined.
End Category.

Record DistanceFilter : Type := mkDistanceFilter {
  veryClose : bool;
  close : bool;
  slightlyClose : bool;
  slightlyFar : bool;
  far : bool;
  veryFar : bool
}.

(** [distanceFilter[category]]; the filter has no ["same"] key, so that
    lookup is [undefined], which is falsy. *)
Definition filter_get (f : DistanceFilter) (c : Category.t) : bool :=
  match c with
  | Category.veryClose => veryClose f
  | Category.close => close f
  | Category.slightlyClose => slightlyClose f
  | Category.slightlyFar => slightlyFar f
  | Category.far => far f
  | Category.veryFar => veryFar f
  | Category.same => false
  end.

Definition normalizeGeoDistance (km : float) : float :=
  Math_min (km / 20000) 1.

Definition getDistanceCategory (distance : float) : Category.t :=
  if distance <? 0.05 then Category.veryClose
  else if distance <? 0.1 then Category.close
  else if distance <? 0.3 then Category.slightlyClose
  else if distance <? 0.5 then Category.slightlyFar
  else if distance <? 0.7 then Category.far
  else Category.veryFar.

Definition getDistanceOpacity (distance : float) : float :=
  Math_max 0.2 (0.8 - distance * 1.2).

(** The interpolation parameter of [getDistanceColor]. *)
Definition colorParam (distance : float) : float :=
  Math_min (Math_max (distance * 2) 0) 1.

(** The three channels [r], [g], [b] that [getDistanceColor] computes
    from the interpolation parameter [t] before it formats them. *)
Definition colorChannels (t : float) : float * float * float :=
  if t <? 0.25 then
    (Math_round (59 + t * 4 * (34 - 59)),
     Math_round (130 + t * 4 * (197 - 130)),
     Math_round (246 + t * 4 * (94 - 246)))
  else if t <? 0.5 then
    let tt := (t - 0.25) * 4 in
    (Math_round (34 + tt * (74 - 34)),
     Math_round (197 + tt * (222 - 197)),
     Math_round (94 + tt * (128 - 94)))
  else if t <? 0.75 then
    let tt := (t - 0.5) * 4 in
    (Math_round (74 + tt * (250 - 74)),
     Math_round (222 + tt * (204 - 222)),
     Math_round (128 + tt * (21 - 128)))
  else
    let tt := (t - 0.75) * 4 in
    (Math_round (250 + tt * (239 - 250)),
     Math_round (204 + tt * (68 - 204)),
     Math_round (21 + tt * (68 - 21))).

Definition getDistanceColorRGB (distance : float) : float * float * float :=
  colorChannels (colorParam distance).

Definition getArcAltitude (geoDistanceNormalized : float) : float :=
  0.02 + geoDistanceNormalized * 0.35.

(** ** The node table ([data/languageLocations.ts]) *)

Record LanguageLocation : Type := mkLanguageLocation {
  code : string;
  name : string;
  nameJa : string;
  lat : float;
  lng : float;
  country : string;
  isPrimary : bool;
  primaryCode : option string;
  isNonPUD : option bool
}.

Definition LANGUAGE_LOCATIONS : list LanguageLocation := [
  mkLanguageLocation "ar" "Arabic" "アラビア語" 24.7136 46.6753 "Saudi Arabia" true None None;
  mkLanguageLocation "zh" "Chinese" "中国語" 39.9042 116.4074 "China" true None None;
  mkLanguageLocation "cs" "Czech" "チェコ語" 50.0755 14.4378 "Czech Republic" true None None;
  mkLanguageLocation "en" "English" "英語" 51.5074 (-0.1278) "United Kingdom" true None None;
  mkLanguageLocation "fi" "Finnish" "フィンランド語" 60.1699 24.9384 "Finland" true None None;
  mkLanguageLocation "fr" "French" "フランス語" 48.8566 2.3522 "France" true None None;
  mkLanguageLocation "gl" "Galician" "ガリシア語" 42.8782 (-8.5448) "Spain (Galicia)" true None None;
  mkLanguageLocation "de" "German" "ドイツ語" 52.5200 13.4050 "Germany" true None None;
  mkLanguageLocation "hi" "Hindi" "ヒンディー語" 28.6139 77.2090 "India" true None None;
  mkLanguageLocation "is" "Icelandic" "アイスランド語" 64.1466 (-21.9426) "Iceland" true None None;
  mkLanguageLocation "id" "Indonesian" "インドネシア語" (-6.2088) 106.8456 "Indonesia" true None None;
  mkLanguageLocation "it" "Italian" "イタリア語" 41.9028 12.4964 "Italy" true None None;
  mkLanguageLocation "ja" "Japanese" "日本語" 35.6762 139.6503 "Japan" true None None;
  mkLanguageLocation "ko" "Korean" "韓国語" 37.5665 126.9780 "South Korea" true None None;
  mkLanguageLocation "pt" "Portuguese" "ポルトガル語" 38.7223 (-9.1393) "Portugal" true None None;
  mkLanguageLocation "ru" "Russian" "ロシア語" 55.7558 37.6173 "Russia" true None None;
  mkLanguageLocation "es" "Spanish" "スペイン語" 40.4168 (-3.7038) "Spain" true None None;
  mkLanguageLocation "sv" "Swedish" "スウェーデン語" 59.3293 18.0686 "Sweden" true None None;
  mkLanguageLocation "th" "Thai" "タイ語" 13.7563 100.5018 "Thailand" true None None;
  mkLanguageLocation "tr" "Turkish" "トルコ語" 39.9334 32.8597 "Turkey" true None None;
  mkLanguageLocation "af" "Afrikaans" "アフリカーンス語" (-25.7479) 28.2293 "South Africa" true None (Some true);
  mkLanguageLocation "fo" "Faroese" "フェロー語" 62.0107 (-6.7697) "Faroe Islands" true None (Some true);
  mkLanguageLocation "he" "Hebrew" "ヘブライ語" 31.7683 35.2137 "Israel" true None (Some true);
  mkLanguageLocation "ga" "Irish" "アイルランド語" 53.3498 (-6.2603) "Ireland" true None (Some true);
  mkLanguageLocation "kpv" "Komi_Zyrian" "コミ・ジリェン語" 61.6640 50.8283 "Russia (Komi)" true None (Some true);
  mkLanguageLocation "yrk" "Nenets" "ネネツ語" 66.6644 66.3858 "Russia (Nenets)" true None (Some true);
  mkLanguageLocation "no" "NO" "ノルウェー語" 60.3913 5.3221 "Norway" true None (Some true);
  mkLanguageLocation "sa" "Sanskrit" "サンスクリット語" 28.6139 77.2090 "India" true None (Some true);
  mkLanguageLocation "tl" "Tagalog" "タガログ語" 14.5995 120.9842 "Philippines" true None (Some true);
  mkLanguageLocation "ta" "Tamil" "タミル語" 13.0827 80.2707 "India (Tamil Nadu)" true None (Some true);
  mkLanguageLocation "uz" "Uzbek" "ウズベク語" 41.2995 69.2401 "Uzbekistan" true None (Some true);
  mkLanguageLocation "vi" "Vietnamese" "ベトナム語" 21.0285 105.8542 "Vietnam" true None (Some true);
  mkLanguageLocation "sah" "Yakut" "ヤクート語" 62.0397 129.7422 "Russia (Sakha)" true None (Some true);
  mkLanguageLocation "en-us" "English" "英語" 38.9072 (-77.0369) "United States" false (Some "en") None;
  mkLanguageLocation "en-au" "English" "英語" (-33.8688) 151.2093 "Australia" false (Some "en") None;
  mkLanguageLocation "pt-br" "Portuguese" "ポルトガル語" (-23.5505) (-46.6333) "Brazil" false (Some "pt") None;
  mkLanguageLocation "es-mx" "Spanish" "スペイン語" 19.4326 (-99.1332) "Mexico" false (Some "es") None;
  mkLanguageLocation "es-ar" "Spanish" "スペイン語" (-34.6037) (-58.3816) "Argentina" false (Some "es") None;
  mkLanguageLocation "fr-ca" "French" "フランス語" 45.5017 (-73.5673) "Canada (Quebec)" false (Some "fr") None;
  mkLanguageLocation "ar-eg" "Arabic" "アラビア語" 30.0444 31.2357 "Egypt" false (Some "ar") None;
  mkLanguageLocation "zh-tw" "Chinese" "中国語" 25.0330 121.5654 "Taiwan" false (Some "zh") None
].

(** [a === b] on values of type [string | undefined]. *)
Definition strictEq (a b : option string) : bool :=
  match a, b with
  | Some x, Some y => String.eqb x y
  | None, None => true
  | _, _ => false
  end.

(** The similarity matrix and the head-direction rate table. *)
Abbreviation SimilarityMatrix := (gmap string (gmap string cell)).
Abbreviation HeadDirectionRates := (gmap string (gmap string cell)).

(** [table[k1]?.[k2]] *)
Definition lookup2 (table : gmap string (gmap string cell)) (k1 k2 : string) : option cell :=
  table !! k1 ≫= fun row => row !! k2.

(** The pairs [(l[i], l[j])] with [i < j], in the order in which the two
    nested loops [for i ... for j = i + 1 ...] meet them. *)
Fixpoint loopPairs {A : Type} (l : list A) : list (A * A) :=
  match l with
  | [] => []
  | x :: l' => map (pair x) l' ++ loopPairs l'
  end.

Record ArcData : Type := mkArcData {
  startLat : float;
  startLng : float;
  endLat : float;
  endLng : float;
  color : string;
  lang1 : string;
  lang2 : string;
  distance : float;
  geoDistance : float;
  category : Category.t;
  clickable : bool;
  node1Code : string;
  node2Code : string
}.

Record PointData : Type := mkPointData {
  pt_lat : float;
  pt_lng : float;
  pt_name : string;
  pt_nameJa : string;
  pt_code : string;
  pt_country : string;
  pt_size : float;
  pt_color : string;
  pt_isPrimary : bool
}.

(** The condition under which the two loops of [arcsData] treat a pair as
    two nodes of one language. *)
Definition sameLanguage (node1 node2 : LanguageLocation) : bool :=
  strictEq (primaryCode node1) (Some (code node2))
  || strictEq (primaryCode node2) (Some (code node1))
  || (truthy_opt (primaryCode node1)
      && strictEq (primaryCode node1) (primaryCode node2)).

Section Globe.

(** The functions of the JavaScript runtime that the globe uses and that
    have no binary64 definition of their own: the trigonometric functions
    and the conversion of a number to its decimal string. *)
Variables Math_sin Math_cos : float -> float.
Variable Math_atan2 : float -> float -> float.
Variable Number_toString : float -> string.

(** The node table the component reads; the application instantiates it
    with [LANGUAGE_LOCATIONS]. *)
Variable allNodes : list LanguageLocation.

Definition getLanguageByCode (c : string) : option LanguageLocation :=
  find (fun lang => String.eqb (code lang) c) allNodes.

Definition getLanguageByName (n : string) : option LanguageLocation :=
  find (fun lang => String.eqb (name lang) n && isPrimary lang) allNodes.

Definition getPrimaryLanguages : list LanguageLocation :=
  List.filter isPrimary allNodes.

Definition getSecondaryLanguages : list LanguageLocation :=
  List.filter (fun lang => negb (isPrimary lang)) allNodes.

Definition calculateGeoDistance (lat1 lng1 lat2 lng2 : float) : float :=
  let R := 6371 in
  let dLat := ((lat2 - lat1) * Math_PI) / 180 in
  let dLng := ((lng2 - lng1) * Math_PI) / 180 in
  let a :=
    Math_sin (dLat / 2) * Math_sin (dLat / 2) +
    Math_cos ((lat1 * Math_PI) / 180) *
      Math_cos ((lat2 * Math_PI) / 180) *
      Math_sin (dLng / 2) *
      Math_sin (dLng / 2) in
  let c := 2 * Math_atan2 (sqrt a) (sqrt (1 - a)) in
  R * c.

Definition getDistanceColor (distance opacity : float) : string :=
  let '(r, g, b) := getDistanceColorRGB distance in
  ("rgba(" ++ Number_toString r ++ ", " ++ Number_toString g ++ ", "
     ++ Number_toString b ++ ", " ++ Number_toString opacity ++ ")")%string.

Definition pointsData (selectedNodeCode : option string) : list PointData :=
  map (fun lang =>
    {| pt_lat := lat lang;
       pt_lng := lng lang;
       pt_name := name lang;
       pt_nameJa := nameJa lang;
       pt_code := code lang;
       pt_country := country lang;
       pt_size := if isPrimary lang then 0.5 else 0.35;
       pt_color :=
         if strictEq selectedNodeCode (Some (code lang)) then "#22c55e"
         else if isPrimary lang then "#60a5fa"
         else "#94a3b8";
       pt_isPrimary := isPrimary lang |}) allNodes.

(** The name under which a node is looked up in the matrix: its own name
    for a primary node, the name of the node its [primaryCode] finds for a
    secondary one ([undefined] when there is none). *)
Definition langName (node : LanguageLocation) : option string :=
  if isPrimary node then Some (name node)
  else option_map name
         (find (fun l => strictEq (Some (code l)) (primaryCode node)) allNodes).

(** Body of the first pair of loops. *)
Definition sameLanguageArc (node1 node2 : LanguageLocation) : option ArcData :=
  if sameLanguage node1 node2 then
    let geoDistance :=
      calculateGeoDistance (lat node1) (lng node1) (lat node2) (lng node2) in
    let geoDistanceNorm := normalizeGeoDistance geoDistance in
    Some {| startLat := lat node1;
            startLng := lng node1;
            endLat := lat node2;
            endLng := lng node2;
            color := "rgba(148, 163, 184, 0.2)";
            lang1 := name node1;
            lang2 := name node2;
            distance := 0;
            geoDistance := geoDistanceNorm;
            category := Category.same;
            clickable := false;
            node1Code := code node1;
            node2Code := code node2 |}
  else None.

(** Body of the second pair of loops; [None] stands for [continue]. *)
Definition similarityArc (similarityData : SimilarityMatrix)
    (distanceFilter : DistanceFilter) (selectedNodeCode : option string)
    (node1 node2 : LanguageLocation) : option ArcData :=
  let targetNodeCode := selectedNodeCode in
  if truthy_opt targetNodeCode
     && negb (strictEq (Some (code node1)) targetNodeCode)
     && negb (strictEq (Some (code node2)) targetNodeCode)
  then None
  else if sameLanguage node1 node2 then None
  else
    let lang1Name := langName node1 in
    let lang2Name := langName node2 in
    match lang1Name, lang2Name with
    | Some l1, Some l2 =>
        if negb (truthy l1) || negb (truthy l2) then None
        else
          match lookup2 similarityData l1 l2 with
          | Some (Num distance) =>
              let category := getDistanceCategory distance in
              if negb (truthy_opt targetNodeCode)
                 && negb (filter_get distanceFilter category)
              then None
              else
                let geoDistance :=
                  calculateGeoDistance (lat node1) (lng node1)
                                       (lat node2) (lng node2) in
                let geoDistanceNorm := normalizeGeoDistance geoDistance in
                let opacity := getDistanceOpacity distance in
                Some {| startLat := lat node1;
                        startLng := lng node1;
                        endLat := lat node2;
                        endLng := lng node2;
                        color := getDistanceColor distance opacity;
                        lang1 := name node1;
                        lang2 := name node2;
                        distance := distance;
                        geoDistance := geoDistanceNorm;
                        category := category;
                        clickable := true;
                        node1Code := code node1;
                        node2Code := code node2 |}
          | _ => None
          end
    | _, _ => None
    end.

Definition sameLanguageArcs : list ArcData :=
  omap (fun p => sameLanguageArc p.1 p.2) (loopPairs allNodes).

Definition similarityArcs (similarityData : SimilarityMatrix)
    (distanceFilter : DistanceFilter) (selectedNodeCode : option string)
    : list ArcData :=
  omap (fun p => similarityArc similarityData distanceFilter selectedNodeCode p.1 p.2)
       (loopPairs allNodes).

(** [arcsData]: the arcs of the first pair of loops, then those of the
    second. *)
Definition arcsData (similarityData : SimilarityMatrix)
    (distanceFilter : DistanceFilter) (selectedNodeCode : option string)
    : list ArcData :=
  sameLanguageArcs
  ++ similarityArcs similarityData distanceFilter selectedNodeCode.

(** [handleArcClick]: the path handed to [navigate], if any. *)
Definition handleArcClick (arc : ArcData) : option string :=
  if negb (clickable arc) then None
  else
    match getLanguageByName (lang1 arc), getLanguageByName (lang2 arc) with
    | Some l1, Some l2 => Some ("/compare/" ++ code l1 ++ "/" ++ code l2)%string
    | _, _ => None
    end.

(** The arguments [handlePointClick] passes to [onLanguageClick]. *)
Definition handlePointClick (point : PointData) : string * string :=
  (pt_name point, pt_code point).

(** [arcAltitude] and [arcStroke] of the rendered arcs. *)
Definition arcAltitude (arc : ArcData) : float :=
  if decide (category arc = Category.same) then 0.01
  else getArcAltitude (geoDistance arc).

Definition arcStroke (arc : ArcData) : float :=
  if decide (category arc = Category.same) then 0.08 else 0.25.

(** [pointRadius] of the rendered points. *)
Definition pointRadius (selectedNodeCode : option string) (d : PointData) : float :=
  if strictEq (Some (pt_code d)) selectedNodeCode then 0.7 else pt_size d.

End Globe.

(** ** The ranking panel ([LanguageSimilarityPanel.tsx]) *)

Record SimilarityItem : Type := mkSimilarityItem {
  item_code : string;
  item_name : string;
  item_nameJa : string;
  item_country : string;
  item_similarity : float;
  item_distance : float
}.

Section Panel.

Variable allNodes : list LanguageLocation.

(** The [continue] tests at the head of the loop of [sortedSimilarities]:
    the selected node itself and the nodes of its language. *)
Definition rankingSkips (selectedNodeCode : string)
    (selectedNode node : LanguageLocation) : bool :=
  String.eqb (code node) selectedNodeCode
  || String.eqb (name node) (name selectedNode)
  || strictEq (primaryCode node) (Some selectedNodeCode)
  || (truthy_opt (primaryCode selectedNode)
      && strictEq (Some (code node)) (primaryCode selectedNode))
  || (truthy_opt (primaryCode selectedNode)
      && strictEq (primaryCode node) (primaryCode selectedNode)).

(** Body of the loop; [None] stands for [continue]. *)
Definition rankingItem (similarityData : SimilarityMatrix)
    (selectedNodeCode : string) (selectedNode : LanguageLocation)
    (selectedLangName : string) (node : LanguageLocation)
    : option SimilarityItem :=
  if rankingSkips selectedNodeCode selectedNode node then None
  else
    match langName allNodes node with
    | Some nodeLangName =>
        if negb (truthy nodeLangName) then None
        else
          match lookup2 similarityData selectedLangName nodeLangName with
          | Some (Num distance) =>
              let similarity := 1 - distance in
              Some {| item_code := code node;
                      item_name := name node;
                      item_nameJa := nameJa node;
                      item_country := country node;
                      item_similarity := similarity;
                      item_distance := distance |}
          | _ => None
          end
    | None => None
    end.

(** The list [items] before it is sorted. *)
Definition rankingItems (similarityData : SimilarityMatrix)
    (selectedNodeCode : string) (selectedNode : LanguageLocation)
    (selectedLangName : string) : list SimilarityItem :=
  omap (rankingItem similarityData selectedNodeCode selectedNode selectedLangName)
       allNodes.

Definition sortedSimilarities (selectedNodeCode : string)
    (similarityData : SimilarityMatrix) : list SimilarityItem :=
  match getLanguageByCode allNodes selectedNodeCode with
  | None => []
  | Some selectedNode =>
      match langName allNodes selectedNode with
      | None => []
      | Some selectedLangName =>
          if negb (truthy selectedLangName) then []
          else
            match similarityData !! selectedLangName with
            | None => []
            | Some _ =>
                Array_sort
                  (fun a b => item_distance a - item_distance b)
                  (rankingItems similarityData selectedNodeCode selectedNode
                                selectedLangName)
            end
      end
  end.

End Panel.

(** ** The word-order summary ([LanguagePopup.tsx]) *)

Record Tendency : Type := mkTendency {
  tendency : string;
  tendencyEn : string;
  description : string;
  tendency_color : string
}.

#[global] Instance Tendency_eq_dec : EqDecision Tendency.
Proof. solve_decision. Defined.

Definition tendencyUnknown : Tendency :=
  {| tendency := "不明";
     tendencyEn := "Unknown";
     description := "データが不足しています";
     tendency_color := "#64748b" |}.

Definition tendencyHeadInitial : Tendency :=
  {| tendency := "Head-Initial";
     tendencyEn := "VO型";
     description := "動詞が目的語より前に来る傾向";
     tendency_color := "#22c55e" |}.

Definition tendencyHeadFinal : Tendency :=
  {| tendency := "Head-Final";
     tendencyEn := "OV型";
     description := "動詞が目的語より後に来る傾向";
     tendency_color := "#3b82f6" |}.

Definition tendencyMixed : Tendency :=
  {| tendency := "混合型";
     tendencyEn := "Mixed";
     description := "語順が比較的自由・文脈依存";
     tendency_color := "#a855f7" |}.

Definition verbObjKey : string := "VERBAL,NOMINAL,CORE_ARG".

(** The popup reads a row of the rate table under a language name that
    is its argument.  A row is an ordinary object: besides its own cells
    it has the properties every object inherits from [Object.prototype],
    under the names below (those of the standard, with the legacy
    ones). *)
Definition objectPrototypeNames : list string := [
  "constructor"; "hasOwnProperty"; "isPrototypeOf"; "propertyIsEnumerable";
  "toLocaleString"; "toString"; "valueOf"; "__proto__";
  "__defineGetter__"; "__defineSetter__"; "__lookupGetter__";
  "__lookupSetter__"
]%string.

(** What a property access on a row can give: [undefined], [null], a
    number, or one of the inherited functions and objects. *)
Inductive JSValue : Type :=
  | JSUndefined
  | JSNull
  | JSNumber (x : float)
  | JSObject.

(** [row[name]]: the own cell of the row if it has one, otherwise the
    inherited property if the name is one of [Object.prototype],
    otherwise [undefined]. *)
Definition getProperty (row : gmap string cell) (name : string) : JSValue :=
  match row !! name with
  | Some Null => JSNull
  | Some (Num x) => JSNumber x
  | None =>
      if existsb (String.eqb name) objectPrototypeNames then JSObject
      else JSUndefined
  end.

(** The number the comparisons [<] and [>] and the subtraction make of
    a value: an inherited function or object converts to NaN. *)
Definition ToNumber (v : JSValue) : float :=
  match v with
  | JSUndefined => nan
  | JSNull => 0
  | JSNumber x => x
  | JSObject => nan
  end.

(** [rates[key]?.[languageName]], for one of the fixed keys of the popup
    (none of them is a name of [Object.prototype], so the table has the
    key only as an own key). *)
Definition getRate (rates : HeadDirectionRates) (key languageName : string)
    : JSValue :=
  match rates !! key with
  | Some row => getProperty row languageName
  | None => JSUndefined
  end.

Definition getWordOrderTendency (languageName : string)
    (rates : HeadDirectionRates) : Tendency :=
  let rate := getRate rates verbObjKey languageName in
  match rate with
  | JSNull | JSUndefined => tendencyUnknown
  | _ =>
      if 0.7 <? ToNumber rate then tendencyHeadInitial
      else if ToNumber rate <? 0.3 then tendencyHeadFinal
      else tendencyMixed
  end.

(** ** Selection state ([GlobePage.tsx]) *)

Record GlobePageState : Type := mkGlobePageState {
  selectedNodeCode : option string;
  popupLanguage : option string;
  distanceFilter : DistanceFilter
}.

Definition initialState : GlobePageState :=
  {| selectedNodeCode := None;
     popupLanguage := None;
     distanceFilter :=
       {| veryClose := true; close := true; slightlyClose := true;
          slightlyFar := false; far := false; veryFar := false |} |}.

Section Page.

Variable allNodes : list LanguageLocation.

Definition handleLanguageClick (st : GlobePageState) (nodeCode : string)
    : GlobePageState :=
  if strictEq (selectedNodeCode st) (Some nodeCode) then
    {| selectedNodeCode := None;
       popupLanguage := popupLanguage st;
       distanceFilter := distanceFilter st |}
  else
    {| selectedNodeCode := Some nodeCode;
       popupLanguage := popupLanguage st;
       distanceFilter := distanceFilter st |}.

Definition handleShowPopup (st : GlobePageState) : GlobePageState :=
  match selectedNodeCode st with
  | Some c =>
      if truthy c then
        match getLanguageByCode allNodes c with
        | Some node =>
            {| selectedNodeCode := selectedNodeCode st;
               popupLanguage := Some (name node);
               distanceFilter := distanceFilter st |}
        | None => st
        end
      else st
  | None => st
  end.

Definition handleClosePopup (st : GlobePageState) : GlobePageState :=
  {| selectedNodeCode := selectedNodeCode st;
     popupLanguage := None;
     distanceFilter := distanceFilter st |}.

Definition handleClearSelection (st : GlobePageState) : GlobePageState :=
  {| selectedNodeCode := None;
     popupLanguage := popupLanguage st;
     distanceFilter := distanceFilter st |}.

Definition toggleFilter (f : DistanceFilter) (key : Category.t) : DistanceFilter :=
  match key with
  | Category.veryClose =>
      {| veryClose := negb (veryClose f); close := close f;
         slightlyClose := slightlyClose f; slightlyFar := slightlyFar f;
         far := far f; veryFar := veryFar f |}
  | Category.close =>
      {| veryClose := veryClose f; close := negb (close f);
         slightlyClose := slightlyClose f; slightlyFar := slightlyFar f;
         far := far f; veryFar := veryFar f |}
  | Category.slightlyClose =>
      {| veryClose := veryClose f; close := close f;
         slightlyClose := negb (slightlyClose f); slightlyFar := slightlyFar f;
         far := far f; veryFar := veryFar f |}
  | Category.slightlyFar =>
      {| veryClose := veryClose f; close := close f;
         slightlyClose := slightlyClose f; slightlyFar := negb (slightlyFar f);
         far := far f; veryFar := veryFar f |}
  | Category.far =>
      {| veryClose := veryClose f; close := close f;
         slightlyClose := slightlyClose f; slightlyFar := slightlyFar f;
         far := negb (far f); veryFar := veryFar f |}
  | Category.veryFar =>
      {| veryClose := veryClose f; close := close f;
         slightlyClose := slightlyClose f; slightlyFar := slightlyFar f;
         far := far f; veryFar := negb (veryFar f) |}
  | Category.same => f
  end.

Definition handleFilterChange (st : GlobePageState) (key : Category.t)
    : GlobePageState :=
  {| selectedNodeCode := selectedNodeCode st;
     popupLanguage := popupLanguage st;
     distanceFilter := toggleFilter (distanceFilter st) key |}.

(** The user actions of the globe page. *)
Inductive Event : Type :=
  | PointClick (point : PointData)
  | ArcClick (arc : ArcData)
  | ShowPopup
  | ClosePopup
  | ClearSelection
  | FilterChange (key : Category.t).

(** One user action: the next state of the page and the path given to
    [navigate], if the action navigates.  A click on a point reaches
    [handleLanguageClick] through [handlePointClick]; a click on an arc
    reaches [handleArcClick], which holds no reference to the page
    state. *)
Definition step (st : GlobePageState) (ev : Event)
    : GlobePageState * option string :=
  match ev with
  | PointClick point =>
      let '(_, nodeCode) := handlePointClick point in
      (handleLanguageClick st nodeCode, None)
  | ArcClick arc => (st, handleArcClick allNodes arc)
  | ShowPopup => (handleShowPopup st, None)
  | ClosePopup => (handleClosePopup st, None)
  | ClearSelection => (handleClearSelection st, None)
  | FilterChange key => (handleFilterChange st key, None)
  end.

End Page.

(** The states the page can be in: the initial state, and the states
    reached from it by user actions, where a click on a point is a click
    on one of the points drawn in the current state. *)
Inductive reachable (allNodes : list LanguageLocation) : GlobePageState -> Prop :=
  | reachable_initial : reachable allNodes initialState
  | reachable_step (st : GlobePageState) (ev : Event) :
      reachable allNodes st ->
      (forall point, ev = PointClick point ->
                     point ∈ pointsData allNodes (selectedNodeCode st)) ->
      reachable allNodes (fst (step allNodes st ev)).

(** ** Notions used to state the properties *)

(** The fixed palette of the colour map as the design describes it: five
    anchor colours at [t = 0, 0.25, 0.5, 0.75, 1], and between two
    neighbouring anchors a linear interpolation of each channel, rounded
    to an integer. *)
Definition anchor0 : float * float * float := (59, 130, 246).
Definition anchor1 : float * float * float := (34, 197, 94).
Definition anchor2 : float * float * float := (74, 222, 128).
Definition anchor3 : float * float * float := (250, 204, 21).
Definition anchor4 : float * float * float := (239, 68, 68).

Definition lerpChannel (a b tt : float) : float :=
  Math_round (a + tt * (b - a)).

Definition lerpSegment (t0 : float) (c0 c1 : float * float * float)
    (t : float) : float * float * float :=
  let tt := (t - t0) * 4 in
  let '(r0, g0, b0) := c0 in
  let '(r1, g1, b1) := c1 in
  (lerpChannel r0 r1 tt, lerpChannel g0 g1 tt, lerpChannel b0 b1 tt).

Definition piecewiseLinearPalette (t : float) : float * float * float :=
  if t <? 0.25 then lerpSegment 0 anchor0 anchor1 t
  else if t <? 0.5 then lerpSegment 0.25 anchor1 anchor2 t
  else if t <? 0.75 then lerpSegment 0.5 anchor2 anchor3 t
  else lerpSegment 0.75 anchor3 anchor4 t.

(** The opacity formula of the design over exact rational numbers, where
    no rounding occurs. *)
Definition exactOpacity (d : Q) : Q :=
  Qmax (2 # 10) ((8 # 10) - d * (12 # 10))%Q.

(** An integer that orders the binary64 values as their comparison does:
    the value scaled by [2^1074], with the infinities beyond every finite
    value. *)
Definition SFkey (x : spec_float) : Z :=
  match x with
  | S754_zero _ => 0
  | S754_infinity s => cond_Zopp s (2 ^ 2100)
  | S754_nan => 0
  | S754_finite s m e => cond_Zopp s (Zpos m * 2 ^ (e + 1074))
  end.

Definition fkey (x : float) : Z := SFkey (Prim2SF x).

(** The code of the language a node stands for: its [primaryCode] if it
    has one, its own code otherwise. *)
Definition primaryOf (node : LanguageLocation) : string :=
  match primaryCode node with
  | Some p => p
  | None => code node
  end.

(** The invariant of the node table: a primary node has no [primaryCode];
    the [primaryCode] of a secondary node finds a primary node of the same
    name; no two primary nodes share a name; no two nodes share a code. *)
Definition nodeLinked (allNodes : list LanguageLocation)
    (node : LanguageLocation) : bool :=
  if isPrimary node then
    match primaryCode node with None => true | Some _ => false end
  else
    match primaryCode node with
    | Some p =>
        match getLanguageByCode allNodes p with
        | Some q => isPrimary q && String.eqb (name q) (name node)
        | None => false
        end
    | None => false
    end.

Fixpoint distinctStrings (l : list string) : bool :=
  match l with
  | [] => true
  | x :: l' => negb (existsb (String.eqb x) l') && distinctStrings l'
  end.

Definition nodeInvariant (allNodes : list LanguageLocation) : bool :=
  forallb (nodeLinked allNodes) allNodes
  && distinctStrings (map name (getPrimaryLanguages allNodes))
  && distinctStrings (map code allNodes).

(** Two nodes of one language: one is the primary of the other, or both
    are secondaries of the same primary code. *)
Definition sameLanguageNodes (node1 node2 : LanguageLocation) : Prop :=
  primaryCode node1 = Some (code node2)
  \/ primaryCode node2 = Some (code node1)
  \/ exists p, primaryCode node1 = Some p /\ primaryCode node2 = Some p.

(** The codes of a table are non-empty strings: the own code of every
    node, and the [primaryCode] of every node that has one. *)
Definition codesNonEmpty (allNodes : list LanguageLocation) : bool :=
  forallb (fun node =>
             truthy (code node)
             && negb (strictEq (primaryCode node) (Some EmptyString)))
          allNodes.

(** The nodes the ranking leaves out: the selected node itself and the
    other nodes of its language, those with the same name and those linked
    to it through [primaryCode] (its secondaries, and, when it has a
    non-empty [primaryCode] itself, its primary and the other secondaries
    of that primary). *)
Definition rankingExcluded (selectedNodeCode : string)
    (selectedNode node : LanguageLocation) : Prop :=
  code node = selectedNodeCode
  \/ name node = name selectedNode
  \/ primaryCode node = Some selectedNodeCode
  \/ exists p, p <> EmptyString /\ primaryCode selectedNode = Some p
       /\ (code node = p \/ primaryCode node = Some p).

(** What the page shows of a similarity arc: with a selection, the arcs
    of the selected node; without one, the arcs of the enabled buckets. *)
Definition arcVisible (distanceFilter : DistanceFilter)
    (selectedNodeCode : option string) (node1 node2 : LanguageLocation)
    (d : float) : Prop :=
  if truthy_opt selectedNodeCode
  then selectedNodeCode = Some (code node1) \/ selectedNodeCode = Some (code node2)
  else filter_get distanceFilter (getDistanceCategory d) = true.

Definition allFilters : DistanceFilter :=
  {| veryClose := true; close := true; slightlyClose := true;
     slightlyFar := true; far := true; veryFar := true |}.

Definition noFilters : DistanceFilter :=
  {| veryClose := false; close := false; slightlyClose := false;
     slightlyFar := false; far := false; veryFar := false |}.

(** Stand-ins for the functions of the runtime, for evaluating the arc
    builder on examples; no property below depends on what they
    compute. *)
Definition stubTrig (x : float) : float := x.
Definition stubAtan2 (y x : float) : float := y.
Definition stubToString (x : float) : string := "?".

(** Example matrices over the languages of the table.  The first has the
    single entry [matrix["English"]["Japanese"]], the second the single
    entry [matrix["Japanese"]["English"]]. *)
Definition forwardOnlyMatrix : SimilarityMatrix :=
  {[ "English"%string := {[ "Japanese"%string := Num 0.5 ]} ]}.

Definition reverseOnlyMatrix : SimilarityMatrix :=
  {[ "Japanese"%string := {[ "English"%string := Num 0.5 ]} ]}.

(** The distances 0.02, 0.10 and 0.40 from Finnish to Korean, Turkish and
    Japanese. *)
Definition rankingExampleMatrix : SimilarityMatrix :=
  {[ "Finnish"%string :=
       {[ "Korean"%string := Num 0.02;
          "Turkish"%string := Num 0.1;
          "Japanese"%string := Num 0.4 ]} ]}.

(** A matrix with no row for Finnish, whose other rows have a Finnish
    column. *)
Definition columnOnlyMatrix : SimilarityMatrix :=
  {[ "Korean"%string := {[ "Finnish"%string := Num 0.02 ]};
     "Japanese"%string := {[ "Finnish"%string := Num 0.4 ]} ]}.

(** The two-node example of the design: Japanese and English at distance
    0.82 in both directions, with only the bucket [far] or only the bucket
    [veryFar] enabled. *)
Definition workedNodes : list LanguageLocation := [
  mkLanguageLocation "ja" "Japanese" "日本語" 35.68 139.65 "Japan" true None None;
  mkLanguageLocation "en" "English" "英語" 51.51 (-0.13) "United Kingdom" true None None
].

Definition workedMatrix : SimilarityMatrix :=
  {[ "Japanese"%string := {[ "English"%string := Num 0.82 ]};
     "English"%string := {[ "Japanese"%string := Num 0.82 ]} ]}.

Definition onlyFar : DistanceFilter :=
  {| veryClose := false; close := false; slightlyClose := false;
     slightlyFar := false; far := true; veryFar := false |}.

Definition onlyVeryFar : DistanceFilter :=
  {| veryClose := false; close := false; slightlyClose := false;
     slightlyFar := false; far := false; veryFar := true |}.

(** ** More of the application *)

(** A number that is neither NaN nor an infinity. *)
Definition isFiniteNumber (x : float) : bool :=
  match Prim2SF x with
  | S754_zero _ | S754_finite _ _ _ => true
  | _ => false
  end.

(** *** The rest of the ranking panel ([LanguageSimilarityPanel.tsx]) *)

Module LanguageSimilarityPanel.

(** The colour of an entry of the ranking. *)
Definition getDistanceColor (distance : float) : string :=
  if distance <? 0.05 then "#3b82f6"
  else if distance <? 0.1 then "#22c55e"
  else if distance <? 0.3 then "#84cc16"
  else if distance <? 0.5 then "#facc15"
  else if distance <? 0.7 then "#f97316"
  else "#ef4444".

(** The width, in percent, of the bar of an entry. *)
Definition barWidth (item : SimilarityItem) : float :=
  Math_max 0 (Math_min 100 ((1 - item_distance item) * 100)).

(** [handleItemClick]: the path handed to [navigate], if any. *)
Definition handleItemClick (allNodes : list LanguageLocation)
    (selectedNodeCode : string) (item : SimilarityItem) : option string :=
  match find (fun l => String.eqb (code l) selectedNodeCode) allNodes with
  | None => None
  | Some selectedNode =>
      let lang1 :=
        getLanguageByName allNodes
          (if isPrimary selectedNode then name selectedNode
           else
             match option_map name
                     (find (fun l => strictEq (Some (code l))
                                              (primaryCode selectedNode))
                           allNodes) with
             | Some n => if truthy n then n else EmptyString
             | None => EmptyString
             end) in
      let lang2 := getLanguageByName allNodes (item_name item) in
      match lang1, lang2 with
      | Some l1, Some l2 => Some ("/compare/" ++ code l1 ++ "/" ++ code l2)%string
      | _, _ => None
      end
  end.

End LanguageSimilarityPanel.

(** *** The legend of the page ([GlobePage.tsx]) *)

(** The six check boxes of the legend, in the order of the page: the
    filter key each one toggles and the colour of its sample. *)
Definition legend : list (Category.t * string) := [
  (Category.veryClose, "#3b82f6"%string);
  (Category.close, "#22c55e"%string);
  (Category.slightlyClose, "#84cc16"%string);
  (Category.slightlyFar, "#facc15"%string);
  (Category.far, "#f97316"%string);
  (Category.veryFar, "#ef4444"%string)
].

(** *** The rest of the node table module ([data/languageLocations.ts]) *)

Definition getSameLanguagePairs (allNodes : list LanguageLocation)
    : list (LanguageLocation * LanguageLocation) :=
  omap (fun secondary =>
          match find (fun lang => strictEq (Some (code lang)) (primaryCode secondary)
                                  && isPrimary lang) allNodes with
          | Some primary => Some (secondary, primary)
          | None => None
          end)
       (getSecondaryLanguages allNodes).

(** *** The rest of the popup ([LanguagePopup.tsx]) *)

Record KeyRate : Type := mkKeyRate {
  kr_label : string;
  kr_labelShort : string;
  kr_rate : JSValue;
  kr_description : string
}.

Definition keyPairs : list (string * string * string * string) := [
  ("VERBAL,NOMINAL,CORE_ARG", "動詞 → 名詞", "V→N", "目的語の位置")%string;
  ("NOMINAL,MODIFIER,MODIFIER", "名詞 → 修飾語", "N→Mod", "形容詞・関係節の位置")%string;
  ("NOMINAL,FUNCTION,FUNCTION", "名詞 → 機能語", "N→Func", "前置詞・後置詞")%string
].

(** [rates[key]?.[languageName] ?? null] *)
Definition rateOrNull (rates : HeadDirectionRates) (key languageName : string)
    : JSValue :=
  match getRate rates key languageName with
  | JSUndefined | JSNull => JSNull
  | rate => rate
  end.

Definition getKeyRates (languageName : string) (rates : HeadDirectionRates)
    : list KeyRate :=
  map (fun '(key, label, labelShort, description) =>
         {| kr_label := label;
            kr_labelShort := labelShort;
            kr_rate := rateOrNull rates key languageName;
            kr_description := description |})
      keyPairs.

Record SimilarLanguage : Type := mkSimilarLanguage {
  sl_name : string;
  sl_diff : float
}.

(** Body of the loop of [getSimilarLanguages]; [None] stands for
    [continue] and for a difference that is not below 0.15. *)
Definition similarCandidate (languageName : string) (rates : HeadDirectionRates)
    (targetRate : JSValue) (lang : LanguageLocation) : option SimilarLanguage :=
  if String.eqb (name lang) languageName then None
  else
    let rate := getRate rates "VERBAL,NOMINAL,CORE_ARG" (name lang) in
    match rate with
    | JSNull | JSUndefined => None
    | _ =>
        let diff := abs (ToNumber rate - ToNumber targetRate) in
        if diff <? 0.15 then Some {| sl_name := nameJa lang; sl_diff := diff |}
        else None
    end.

(** The list [similar] after it is sorted. *)
Definition similarSorted (allNodes : list LanguageLocation)
    (languageName : string) (rates : HeadDirectionRates) (targetRate : JSValue)
    : list SimilarLanguage :=
  Array_sort (fun a b => sl_diff a - sl_diff b)
             (omap (similarCandidate languageName rates targetRate)
                   (getPrimaryLanguages allNodes)).

Definition getSimilarLanguages (allNodes : list LanguageLocation)
    (languageName : string) (rates : HeadDirectionRates) : list string :=
  let targetRate := getRate rates "VERBAL,NOMINAL,CORE_ARG" languageName in
  match targetRate with
  | JSNull | JSUndefined => []
  | _ =>
      map sl_name (firstn 3 (similarSorted allNodes languageName rates targetRate))
  end.

(** [LanguagePopup] renders nothing when the language has no primary
    node. *)
Definition popupRenders (allNodes : list LanguageLocation)
    (languageName : string) : bool :=
  match getLanguageByName allNodes languageName with
  | Some _ => true
  | None => false
  end.

(** *** The zoom of the comparison page ([ComparisonPage.tsx],
    [ZoomControls.tsx]) *)

Definition initialZoom : float := 1.0.

Definition handleZoomChange (prev delta : float) : float :=
  Math_max 0.5 (Math_min 2.0 (prev + delta)).

Definition handleZoomReset (prev : float) : float := 1.0.

(** The three buttons of [ZoomControls]. *)
Inductive ZoomButton : Type := ZoomIn | ZoomOut | ZoomResetButton.

Definition zoomClick (zoom : float) (b : ZoomButton) : float :=
  match b with
  | ZoomIn => handleZoomChange zoom 0.1
  | ZoomOut => handleZoomChange zoom (-0.1)
  | ZoomResetButton => handleZoomReset zoom
  end.

(** The zoom after a sequence of clicks, starting from the initial
    zoom. *)
Definition zoomAfter (clicks : list ZoomButton) : float :=
  fold_left zoomClick clicks initialZoom.

(** *** The comparison table of head directions ([HeadDirectionPanel.tsx]) *)

(** [s.split(sep)] for a separator of one character. *)
Fixpoint split (sep : ascii) (s : string) : list string :=
  match s with
  | EmptyString => [EmptyString]
  | String c s' =>
      if Ascii.eqb c sep then EmptyString :: split sep s'
      else
        match split sep s' with
        | [] => [String c EmptyString]
        | w :: ws => String c w :: ws
        end
  end.

Record ParsedPair : Type := mkParsedPair {
  headUpos : string;
  depUpos : string;
  deprel : string;
  key : string;
  lang1Rate : option float;
  lang2Rate : option float;
  diff : option float
}.

(** [rates[lang] ?? null] on one row of the table. *)
Definition rowRate (rates : gmap string cell) (lang : string) : option float :=
  match rates !! lang with
  | Some (Num rate) => Some rate
  | _ => None
  end.

(** Body of the loop over [Object.entries(headDirectionRates)]; [None]
    stands for [continue]. *)
Definition parsedPair (lang1Name lang2Name : string)
    (entry : string * gmap string cell) : option ParsedPair :=
  let '(key, rates) := entry in
  match split "," key with
  | [headUpos; depUpos; deprel] =>
      let lang1Rate := rowRate rates lang1Name in
      let lang2Rate := rowRate rates lang2Name in
      match lang1Rate, lang2Rate with
      | None, None => None
      | _, _ =>
          let diff :=
            match lang1Rate, lang2Rate with
            | Some r1, Some r2 => Some (r1 - r2)
            | _, _ => None
            end in
          Some {| headUpos := headUpos;
                  depUpos := depUpos;
                  deprel := deprel;
                  key := key;
                  lang1Rate := lang1Rate;
                  lang2Rate := lang2Rate;
                  diff := diff |}
      end
  | _ => None
  end.

(** [a.diff !== null ? Math.abs(a.diff) : 0] *)
Definition absDiff (p : ParsedPair) : float :=
  match diff p with
  | Some d => abs d
  | None => 0
  end.

(** The rows of the table, from the entries of the rate table in the
    order [Object.entries] gives them. *)
Definition headDirectionPairs (entries : list (string * gmap string cell))
    (lang1Name lang2Name : string) : list ParsedPair :=
  firstn 15
    (Array_sort (fun a b => absDiff b - absDiff a)
                (omap (parsedPair lang1Name lang2Name) entries)).

Definition getDiffClass (diff : option float) : string :=
  match diff with
  | None => EmptyString
  | Some diff =>
      let abs := abs diff in
      if 0.5 <? abs then "diff-large"
      else if 0.2 <? abs then "diff-medium"
      else "diff-small"
  end.

Definition getDiffIndicator (diff : float) : string :=
  let abs := abs diff in
  if 0.5 <? abs then " ◆"
  else if 0.2 <? abs then " ◇"
  else EmptyString.
(** *** The parsers of the two tables ([hooks/useLanguageData.ts]) *)

Section Parsers.

(** [String.prototype.trim] and the global [parseFloat] of the runtime. *)
Variable trim : string -> string.
Variable parseFloat : string -> float.

(** The inner loop of [parseCSV] over the cells [values[1]], [values[2]],
    ... of a line: the cell [values[j]] goes under the key [headers[j - 1]],
    which is the string ["undefined"] when the line is longer than the
    header line. *)
Fixpoint matrixRow (headers : list string) (j : nat) (cells : list string)
    (row : gmap string cell) : gmap string cell :=
  match cells with
  | [] => row
  | value :: cells' =>
      matrixRow headers (S j) cells'
                (<[nth j headers "undefined"%string := Num (parseFloat value)]> row)
  end.

Definition parseCSV (csvText : string) : SimilarityMatrix :=
  match split "010" (trim csvText) with
  | [] => ∅
  | header :: lines =>
      let headers := tail (split "," header) in
      fold_left
        (fun matrix line =>
           match split "," line with
           | [] => matrix
           | rowLang :: cells => <[rowLang := matrixRow headers 0 cells ∅]> matrix
           end)
        lines ∅
  end.

(** [value && value.trim() !== "" ? parseFloat(value) : null], where
    [value] is [undefined] past the end of the line. *)
Definition rateCell (value : option string) : cell :=
  match value with
  | Some v =>
      if truthy v && negb (String.eqb (trim v) EmptyString)
      then Num (parseFloat v)
      else Null
  | None => Null
  end.

(** The inner loop of [parseHeadDirectionRatesCSV] over the language
    columns: the language [languageHeaders[j]] gets the cell
    [values[3 + j]]. *)
Fixpoint ratesRow (languageHeaders : list string) (j : nat)
    (values : list string) (row : gmap string cell) : gmap string cell :=
  match languageHeaders with
  | [] => row
  | lang :: languageHeaders' =>
      ratesRow languageHeaders' (S j) values
               (<[lang := rateCell (values !! (3 + j)%nat)]> row)
  end.

Definition parseHeadDirectionRatesCSV (csvText : string) : HeadDirectionRates :=
  let lines := split "010" (trim csvText) in
  if (length lines <? 2)%nat then ∅
  else
    match lines with
    | [] => ∅
    | header :: lines' =>
        let languageHeaders := skipn 3 (split "," header) in
        fold_left
          (fun rates line =>
             let values := split "," line in
             if (length values <? 4)%nat then rates
             else
               match values with
               | headUpos :: depUpos :: deprel :: _ =>
                   <[(headUpos ++ "," ++ depUpos ++ "," ++ deprel)%string
                     := ratesRow languageHeaders 0 values ∅]> rates
               | _ => rates
               end)
          lines' ∅
    end.

End Parsers.

(** Whether a character occurs in a string. *)
Fixpoint contains (c : ascii) (s : string) : bool :=
  match s with
  | EmptyString => false
  | String c' s' => Ascii.eqb c' c || contains c s'
  end.

(** Stand-ins for [trim] and [parseFloat], for evaluating the parsers on
    examples; no property below depends on what they compute. *)
Definition stubTrim (s : string) : string := s.
Definition stubParseFloat (s : string) : float :=
  if String.eqb s "0.9" then 0.9 else 0.25.

(** A small table of rates as a CSV text: a header line and two lines;
    the second line has an empty cell. *)
Definition exampleRatesCSV : string :=
  ("head,dep,rel,Japanese,English" ++ String "010" "VERBAL,NOMINAL,CORE_ARG,0.1,0.9"
   ++ String "010" "NOMINAL,MODIFIER,MODIFIER,,0.9")%string.

(** A small matrix as a CSV text. *)
Definition exampleMatrixCSV : string :=
  (",Japanese,English" ++ String "010" "Japanese,0,0.9"
   ++ String "010" "English,0.9,0")%string.

(** The entries of a small table of rates. *)
Definition exampleEntries : list (string * gmap string cell) := [
  ("VERBAL,NOMINAL,CORE_ARG"%string,
   {[ "Japanese"%string := Num 0.1; "English"%string := Num 0.9 ]});
  ("NOMINAL,MODIFIER,MODIFIER"%string,
   {[ "Japanese"%string := Num 0.5; "English"%string := Num 0.25 ]});
  ("NOMINAL"%string, {[ "Japanese"%string := Num 0.5 ]})
].

(** * Properties *)

(** ** Order and subtraction of binary64 numbers *)

Module FloatFacts.

Lemma compare_cont_swap (p q : positive) :
  PosDef.Pos.compare_cont Eq q p = CompOpp (PosDef.Pos.compare_cont Eq p q).
Proof. symmetry. exact (Pos.compare_cont_antisym p q Eq). Qed.

Lemma SFcompare_antisym (x y : spec_float) :
  SFcompare y x = option_map CompOpp (SFcompare x y).
Proof.
  destruct x as [sx|sx| |sx mx ex], y as [sy|sy| |sy my ey]; simpl;
    try reflexivity;
    try (destruct sx; reflexivity); try (destruct sy; reflexivity);
    try (destruct sx, sy; reflexivity).
  destruct sx, sy; simpl; try reflexivity;
    rewrite (Z.compare_antisym ex ey);
    destruct (ex ?= ey)%Z; simpl; try reflexivity;
    rewrite (compare_cont_swap mx my), ?CompOpp_involutive; reflexivity.
Qed.

Lemma SFcompare_refl (x : spec_float) :
  x <> S754_nan -> SFcompare x x = Some Eq.
Proof.
  destruct x as [s|s| |s m e]; simpl; intros H; try congruence.
  - destruct s; reflexivity.
  - rewrite Z.compare_refl, Pos.compare_cont_refl. destruct s; reflexivity.
Qed.

Lemma is_nan_false (x : float) :
  is_nan x = false <-> Prim2SF x <> S754_nan.
Proof.
  unfold is_nan. rewrite FloatAxioms.eqb_spec. unfold SFeqb. split.
  - intros H E. rewrite E in H. discriminate.
  - intros H. rewrite (SFcompare_refl _ H). reflexivity.
Qed.

Lemma SFcompare_some (x y : spec_float) :
  x <> S754_nan -> y <> S754_nan -> exists c, SFcompare x y = Some c.
Proof.
  destruct x, y; simpl; intros; try congruence; eauto.
Qed.

(** For two numbers, [x < y] fails exactly when [y <= x] holds. *)
Lemma ltb_negb_leb (x y : float) :
  is_nan x = false -> is_nan y = false -> (x <? y) = negb (y <=? x).
Proof.
  rewrite !is_nan_false. intros Hx Hy.
  rewrite FloatAxioms.ltb_spec, FloatAxioms.leb_spec. unfold SFltb, SFleb.
  rewrite (SFcompare_antisym (Prim2SF x) (Prim2SF y)).
  destruct (SFcompare_some _ _ Hx Hy) as [c ->]. destruct c; reflexivity.
Qed.

Lemma ltb_nan_l (x y : float) : is_nan x = true -> (x <? y) = false.
Proof.
  intros H. destruct (Prim2SF x) eqn:E.
  1,2,4: assert (is_nan x = false) by (apply is_nan_false; congruence); congruence.
  rewrite FloatAxioms.ltb_spec, E. reflexivity.
Qed.

Lemma ltb_nan_r (x y : float) : is_nan y = true -> (x <? y) = false.
Proof.
  intros H. destruct (Prim2SF y) eqn:E.
  1,2,4: assert (is_nan y = false) by (apply is_nan_false; congruence); congruence.
  rewrite FloatAxioms.ltb_spec, E. destruct (Prim2SF x); reflexivity.
Qed.

Lemma leb_nan_l (x y : float) : is_nan x = true -> (x <=? y) = false.
Proof.
  intros H. destruct (Prim2SF x) eqn:E.
  1,2,4: assert (is_nan x = false) by (apply is_nan_false; congruence); congruence.
  rewrite FloatAxioms.leb_spec, E. reflexivity.
Qed.

Lemma leb_nan_r (x y : float) : is_nan y = true -> (x <=? y) = false.
Proof.
  intros H. destruct (Prim2SF y) eqn:E.
  1,2,4: assert (is_nan y = false) by (apply is_nan_false; congruence); congruence.
  rewrite FloatAxioms.leb_spec, E. destruct (Prim2SF x); reflexivity.
Qed.


Local Open Scope Z_scope.

Lemma digits2_pos_size (p : positive) : digits2_pos p = Pos.size p.
Proof. induction p; simpl; congruence. Qed.

Lemma digits2_bounds (m : positive) :
  2 ^ (Zpos (digits2_pos m) - 1) <= Zpos m < 2 ^ Zpos (digits2_pos m).
Proof.
  rewrite digits2_pos_size. split.
  - pose proof (Pos.size_le m) as H.
    assert (H' : 2 ^ Zpos (Pos.size m) <= 2 * Zpos m).
    { change 2 with (Zpos 2) at 1. rewrite <- Pos2Z.inj_pow. 
      change (2 * Zpos m) with (Zpos m~0). apply Pos2Z.pos_le_pos. exact H. }
    replace (Zpos (Pos.size m)) with (Z.succ (Zpos (Pos.size m) - 1)) in H' by lia.
    rewrite Z.pow_succ_r in H' by lia. lia.
  - pose proof (Pos.size_gt m) as H.
    change 2 with (Zpos 2). rewrite <- Pos2Z.inj_pow. apply Pos2Z.pos_lt_pos. exact H.
Qed.

(** What validity says about a finite binary64 value. *)
Lemma bounded_inv (m : positive) (e : Z) :
  bounded prec emax m e = true ->
  -1074 <= e <= 971 /\ Zpos m < 2 ^ 53 /\ (-1074 < e -> 2 ^ 52 <= Zpos m).
Proof.
  unfold bounded, canonical_mantissa, fexp, SpecFloat.emin, prec, emax.
  intros H. apply andb_prop in H as [H1 H2].
  apply Z.eqb_eq in H1. apply Z.leb_le in H2.
  pose proof (digits2_bounds m) as [Hlo Hhi].
  set (d := Zpos (digits2_pos m)) in *.
  assert (Hd : d <= 53) by lia.
  split; [lia|]. split.
  - eapply Z.lt_le_trans; [exact Hhi|]. apply Z.pow_le_mono_r; lia.
  - intros He. assert (d = 53) by lia. subst d. rewrite H in Hlo. exact Hlo.
Qed.

Lemma pow2_pos (n : Z) : 0 <= n -> 0 < 2 ^ n.
Proof. intros. apply Z.pow_pos_nonneg; lia. Qed.

Lemma finite_key_bound (m : positive) (e : Z) :
  bounded prec emax m e = true ->
  0 < Zpos m * 2 ^ (e + 1074) < 2 ^ 2100.
Proof.
  intros H. apply bounded_inv in H as (He & Hm & _).
  pose proof (pow2_pos (e + 1074) ltac:(lia)) as Hp.
  split; [lia|].
  assert (2 ^ (e + 1074) <= 2 ^ 2045) by (apply Z.pow_le_mono_r; lia).
  replace 2100 with (53 + 2047) by lia.
  rewrite (Z.pow_add_r 2 53 2047) by lia.
  assert (2 ^ 2045 < 2 ^ 2047) by (apply Z.pow_lt_mono_r; lia).
  nia.
Qed.

Lemma scaled_lt (m1 m2 a k : Z) :
  0 < a -> 2 ^ 1 <= k -> m1 < 2 ^ 53 -> 2 ^ 52 <= m2 ->
  m1 * a < m2 * (a * k).
Proof.
  change (2 ^ 1) with 2. change (2 ^ 53) with (2 * 2 ^ 52).
  assert (HP : 0 < 2 ^ 52) by reflexivity. revert HP.
  generalize (2 ^ 52). intros P HP Ha Hk H1 H2.
  assert (m1 * a < 2 * P * a) by (apply Z.mul_lt_mono_pos_r; lia).
  assert (2 * P * a <= m2 * (a * k)).
  { replace (2 * P * a) with (P * (a * 2)) by ring.
    apply Z.mul_le_mono_nonneg; nia. }
  lia.
Qed.

Lemma finite_key_compare (m1 m2 : positive) (e1 e2 : Z) :
  bounded prec emax m1 e1 = true ->
  bounded prec emax m2 e2 = true ->
  match e1 ?= e2 with
  | Lt => Lt
  | Gt => Gt
  | Eq => PosDef.Pos.compare_cont Eq m1 m2
  end = (Zpos m1 * 2 ^ (e1 + 1074) ?= Zpos m2 * 2 ^ (e2 + 1074)).
Proof.
  intros H1 H2.
  apply bounded_inv in H1 as (He1 & Hm1 & Hn1).
  apply bounded_inv in H2 as (He2 & Hm2 & Hn2).
  destruct (Z.compare_spec e1 e2) as [E|E|E].
  - subst e2. symmetry.
    pose proof (pow2_pos (e1 + 1074) ltac:(lia)) as Hp.
    change (PosDef.Pos.compare_cont Eq m1 m2) with (Zpos m1 ?= Zpos m2).
    destruct (Z.compare_spec (Zpos m1) (Zpos m2)) as [F|F|F].
    + rewrite F. apply Z.compare_refl.
    + apply Z.compare_lt_iff. apply Z.mul_lt_mono_pos_r; lia.
    + apply Z.compare_gt_iff. apply Z.mul_lt_mono_pos_r; lia.
  - symmetry. apply Z.compare_lt_iff.
    pose proof (pow2_pos (e1 + 1074) ltac:(lia)) as Hp.
    replace (e2 + 1074) with ((e1 + 1074) + (e2 - e1)) by lia.
    rewrite (Z.pow_add_r 2 (e1 + 1074) (e2 - e1)) by lia.
    assert (2 ^ 1 <= 2 ^ (e2 - e1)) by (apply Z.pow_le_mono_r; lia).
    specialize (Hn2 ltac:(lia)).
    apply (scaled_lt _ _ _ _ Hp H Hm1 Hn2).
  - symmetry. apply Z.compare_gt_iff.
    pose proof (pow2_pos (e2 + 1074) ltac:(lia)) as Hp.
    replace (e1 + 1074) with ((e2 + 1074) + (e1 - e2)) by lia.
    rewrite (Z.pow_add_r 2 (e2 + 1074) (e1 - e2)) by lia.
    assert (2 ^ 1 <= 2 ^ (e1 - e2)) by (apply Z.pow_le_mono_r; lia).
    specialize (Hn1 ltac:(lia)).
    apply (scaled_lt _ _ _ _ Hp H Hm2 Hn1).
Qed.

(** On valid numbers the comparison of [SpecFloat] is the comparison of
    the integer keys. *)
Lemma SFcompare_key (x y : spec_float) :
  valid_binary x = true -> valid_binary y = true ->
  x <> S754_nan -> y <> S754_nan ->
  SFcompare x y = Some (SFkey x ?= SFkey y).
Proof.
  assert (Hbig : 0 < 2 ^ 2100) by (apply pow2_pos; lia).
  destruct x as [sx|sx| |sx mx ex], y as [sy|sy| |sy my ey];
    intros Vx Vy Nx Ny; try congruence; cbn [SFcompare SFkey valid_binary] in *;
    try (pose proof (finite_key_bound _ _ Vx) as Kx);
    try (pose proof (finite_key_bound _ _ Vy) as Ky);
    try (pose proof (finite_key_compare _ _ _ _ Vx Vy) as C);
    set (B := 2 ^ 2100) in *; f_equal; symmetry;
    try destruct sx; try destruct sy; cbn [cond_Zopp];
    first [ apply Z.compare_refl
          | apply Z.compare_lt_iff; lia
          | apply Z.compare_gt_iff; lia
          | symmetry; exact C
          | idtac ].
  rewrite Z.compare_opp, (Z.compare_antisym (Zpos mx * _)), <- C.
  destruct (ex ?= ey); reflexivity.
Qed.

(** *** Rounding never turns a non-zero difference into zero *)

Lemma shr_1_m (mrs : shr_record) :
  0 <= shr_m mrs -> shr_m (shr_1 mrs) = Z.div2 (shr_m mrs).
Proof.
  destruct mrs as [m r s]. cbn [shr_m]. intros H.
  destruct m as [|p|p]; [reflexivity| |lia].
  destruct p; reflexivity.
Qed.

Lemma iter_shr_1_m (p : positive) (mrs : shr_record) :
  0 <= shr_m mrs ->
  shr_m (SpecFloat.iter_pos shr_1 p mrs) = Z.shiftr (shr_m mrs) (Zpos p).
Proof.
  revert mrs. induction p as [p IH|p IH|]; intros mrs H; cbn [SpecFloat.iter_pos].
  - assert (H1 : 0 <= shr_m (shr_1 mrs)).
    { rewrite shr_1_m by exact H. rewrite Z.div2_spec. apply Z.shiftr_nonneg. exact H. }
    assert (H2 : 0 <= shr_m (SpecFloat.iter_pos shr_1 p (shr_1 mrs))).
    { rewrite IH by exact H1. apply Z.shiftr_nonneg. exact H1. }
    rewrite IH by exact H2. rewrite IH by exact H1.
    rewrite shr_1_m by exact H. rewrite Z.div2_spec.
    rewrite !Z.shiftr_shiftr by lia. f_equal. lia.
  - assert (H2 : 0 <= shr_m (SpecFloat.iter_pos shr_1 p mrs)).
    { rewrite IH by exact H. apply Z.shiftr_nonneg. exact H. }
    rewrite IH by exact H2. rewrite IH by exact H.
    rewrite !Z.shiftr_shiftr by lia. f_equal. lia.
  - rewrite shr_1_m by exact H. apply Z.div2_spec.
Qed.

Lemma shr_record_of_loc_m (m : Z) (l : location) :
  shr_m (shr_record_of_loc m l) = m.
Proof. destruct l as [|[]]; reflexivity. Qed.

Lemma Zdigits2_bounds (m : Z) :
  0 < m -> 2 ^ (Zdigits2 m - 1) <= m < 2 ^ Zdigits2 m.
Proof.
  destruct m as [|p|p]; try lia. intros _. apply digits2_bounds.
Qed.

Lemma shr_fexp_pos (m e : Z) (l : location) :
  0 < m -> -1074 <= e ->
  0 < shr_m (fst (shr_fexp prec emax m e l))
  /\ -1074 <= snd (shr_fexp prec emax m e l).
Proof.
  intros Hm He. unfold shr_fexp, shr, fexp, SpecFloat.emin, prec, emax.
  pose proof (Zdigits2_bounds m Hm) as [Hlo _].
  set (d := Zdigits2 m) in *.
  assert (Hd : 0 < d) by (destruct m; try lia; reflexivity).
  destruct (Z.max (d + e - 53) (3 - 1024 - 53) - e) as [|n|n] eqn:En;
    cbn [fst snd]; rewrite ?shr_record_of_loc_m; try (split; lia).
  rewrite iter_shr_1_m by (rewrite shr_record_of_loc_m; lia).
  rewrite shr_record_of_loc_m. split; [|lia].
  rewrite Z.shiftr_div_pow2 by lia.
  assert (Hn : Zpos n <= d - 1) by lia.
  assert (2 ^ Zpos n <= 2 ^ (d - 1)) by (apply Z.pow_le_mono_r; lia).
  apply Z.div_str_pos. split; [apply pow2_pos; lia | lia].
Qed.

Lemma round_nearest_even_pos (m : Z) (l : location) :
  0 < m -> 0 < round_nearest_even m l.
Proof.
  intros H. destruct l as [|[]]; cbn [round_nearest_even]; try lia.
  destruct (Z.even m); lia.
Qed.

Lemma binary_round_aux_sign (s : bool) (m e : Z) (l : location) :
  0 < m -> -1074 <= e ->
  (exists m' e', binary_round_aux prec emax s m e l = S754_finite s m' e')
  \/ binary_round_aux prec emax s m e l = S754_infinity s.
Proof.
  intros Hm He. unfold binary_round_aux.
  pose proof (shr_fexp_pos m e l Hm He) as [H1 H2].
  destruct (shr_fexp prec emax m e l) as [mrs' e']. cbn [fst snd] in *.
  pose proof (round_nearest_even_pos _ (loc_of_shr_record mrs') H1) as H3.
  pose proof (shr_fexp_pos _ e' loc_Exact H3 H2) as [H4 H5].
  destruct (shr_fexp prec emax _ e' loc_Exact) as [mrs'' e'']. cbn [fst snd] in *.
  destruct (shr_m mrs'') as [|p|p]; try lia.
  destruct (e'' <=? emax - prec); eauto.
Qed.

Lemma iter_xO_Z (m d : positive) :
  Zpos (Pos.iter xO m d) = Zpos m * 2 ^ Zpos d.
Proof.
  induction d as [|d IH] using Pos.peano_ind.
  - cbn. lia.
  - rewrite Pos.iter_succ, Pos2Z.inj_xO, IH, Pos2Z.inj_succ, Z.pow_succ_r by lia. ring.
Qed.

Lemma shl_align_fst (m : positive) (e e' : Z) :
  e' <= e -> Zpos (fst (shl_align m e e')) = Zpos m * 2 ^ (e - e')
             /\ snd (shl_align m e e') = e'.
Proof.
  intros H. unfold shl_align.
  destruct (e' - e) as [|d|d] eqn:E; cbn [fst snd]; try lia.
  - replace (e - e') with 0 by lia. split; lia.
  - rewrite iter_xO_Z. replace (e - e') with (Zpos d) by lia. split; lia.
Qed.

Lemma binary_round_sign (s : bool) (m : positive) (e : Z) :
  -1074 <= e ->
  (exists m' e', binary_round prec emax s m e = S754_finite s m' e')
  \/ binary_round prec emax s m e = S754_infinity s.
Proof.
  intros He. unfold binary_round.
  destruct (shl_align m e _) as [mz ez] eqn:E.
  apply binary_round_aux_sign; [lia|].
  unfold shl_align in E.
  destruct (fexp prec emax (Zpos (digits2_pos m) + e) - e) as [|d|d] eqn:F;
    inversion E; subst; try lia.
  unfold fexp, SpecFloat.emin, prec, emax. lia.
Qed.

Lemma binary_normalize_sign (D e : Z) :
  -1074 <= e ->
  SFltb (S754_zero false) (binary_normalize prec emax D e false) = (0 <? D).
Proof.
  intros He. destruct D as [|p|p]; cbn [binary_normalize].
  - reflexivity.
  - destruct (binary_round_sign false p e He) as [(m' & e' & ->)| ->]; reflexivity.
  - destruct (binary_round_sign true p e He) as [(m' & e' & ->)| ->]; reflexivity.
Qed.

Lemma SFsub_finite_sign (sx sy : bool) (mx my : positive) (ex ey : Z) :
  bounded prec emax mx ex = true -> bounded prec emax my ey = true ->
  SFltb (S754_zero false)
        (SF64sub (S754_finite sx mx ex) (S754_finite sy my ey))
  = (SFkey (S754_finite sy my ey) <? SFkey (S754_finite sx mx ex)).
Proof.
  intros Vx Vy.
  pose proof (bounded_inv _ _ Vx) as (Hex & _). pose proof (bounded_inv _ _ Vy) as (Hey & _).
  unfold SF64sub, SFsub. cbv zeta.
  set (ez := Z.min ex ey).
  rewrite binary_normalize_sign by lia.
  destruct (shl_align_fst mx ex ez ltac:(lia)) as [-> _].
  destruct (shl_align_fst my ey ez ltac:(lia)) as [-> _].
  cbn [SFkey].
  assert (Hx : 2 ^ (ex + 1074) = 2 ^ (ex - ez) * 2 ^ (ez + 1074)).
  { rewrite <- Z.pow_add_r by lia. f_equal. lia. }
  assert (Hy : 2 ^ (ey + 1074) = 2 ^ (ey - ez) * 2 ^ (ez + 1074)).
  { rewrite <- Z.pow_add_r by lia. f_equal. lia. }
  rewrite Hx, Hy.
  pose proof (pow2_pos (ez + 1074) ltac:(lia)) as Hp.
  set (a := Zpos mx * 2 ^ (ex - ez)). set (b := Zpos my * 2 ^ (ey - ez)).
  set (k := 2 ^ (ez + 1074)) in *.
  replace (Zpos mx * (2 ^ (ex - ez) * k)) with (a * k) by (subst a; ring).
  replace (Zpos my * (2 ^ (ey - ez) * k)) with (b * k) by (subst b; ring).
  assert (Hc : forall s v, cond_Zopp s (v * k) = cond_Zopp s v * k)
    by (intros [] v; cbn [cond_Zopp]; ring).
  rewrite !Hc.
  destruct (Z.ltb_spec 0 (cond_Zopp sx a - cond_Zopp sy b)) as [L|L];
    symmetry; [apply Z.ltb_lt | apply Z.ltb_ge]; nia.
Qed.

(** The sign of a rounded difference: [x - y] is positive exactly when
    [y < x]. *)
Lemma SFsub_sign (x y : spec_float) :
  valid_binary x = true -> valid_binary y = true ->
  x <> S754_nan -> y <> S754_nan ->
  SFltb (S754_zero false) (SF64sub x y) = SFltb y x.
Proof.
  intros Vx Vy Nx Ny.
  unfold SFltb at 2. rewrite (SFcompare_key y x Vy Vx Ny Nx).
  transitivity (SFkey y <? SFkey x).
  2: { unfold Z.ltb. destruct (SFkey y ?= SFkey x); reflexivity. }
  destruct x as [sx|sx| |sx mx ex], y as [sy|sy| |sy my ey]; try congruence.
  9: apply SFsub_finite_sign; assumption.
  all: cbn [valid_binary] in *;
    try (pose proof (finite_key_bound _ _ Vx) as Kx);
    try (pose proof (finite_key_bound _ _ Vy) as Ky);
    assert (Hbig : 0 < 2 ^ 2100) by (apply pow2_pos; lia);
    cbn [SF64sub SFsub SFkey]; set (B := 2 ^ 2100) in *;
    try destruct sx; try destruct sy; cbn [cond_Zopp negb SFltb SFcompare];
    symmetry; first [ apply Z.ltb_lt; lia | apply Z.ltb_ge; lia ].
Qed.

Local Close Scope Z_scope.

(** *** The same facts on primitive floats *)

Lemma Prim2SF_not_nan (x : float) :
  is_nan x = false -> Prim2SF x <> S754_nan.
Proof. apply is_nan_false. Qed.

Lemma ltb_fkey (x y : float) :
  is_nan x = false -> is_nan y = false -> (x <? y) = (fkey x <? fkey y)%Z.
Proof.
  intros Hx Hy. rewrite FloatAxioms.ltb_spec. unfold SFltb, fkey.
  rewrite (SFcompare_key _ _ (Prim2SF_valid x) (Prim2SF_valid y)
             (Prim2SF_not_nan _ Hx) (Prim2SF_not_nan _ Hy)).
  unfold Z.ltb. destruct (_ ?= _)%Z; reflexivity.
Qed.

Lemma leb_fkey (x y : float) :
  is_nan x = false -> is_nan y = false -> (x <=? y) = (fkey x <=? fkey y)%Z.
Proof.
  intros Hx Hy. rewrite FloatAxioms.leb_spec. unfold SFleb, fkey.
  rewrite (SFcompare_key _ _ (Prim2SF_valid x) (Prim2SF_valid y)
             (Prim2SF_not_nan _ Hx) (Prim2SF_not_nan _ Hy)).
  unfold Z.leb. destruct (_ ?= _)%Z; reflexivity.
Qed.

Lemma not_nan_cases (x : float) : is_nan x = true \/ is_nan x = false.
Proof. destruct (is_nan x); auto. Qed.

Lemma leb_true_not_nan (x y : float) :
  (x <=? y) = true -> is_nan x = false /\ is_nan y = false.
Proof.
  intros H. split.
  - destruct (is_nan x) eqn:E; [|reflexivity].
    rewrite (leb_nan_l x y E) in H. discriminate.
  - destruct (is_nan y) eqn:E; [|reflexivity].
    rewrite (leb_nan_r x y E) in H. discriminate.
Qed.

Lemma ltb_true_not_nan (x y : float) :
  (x <? y) = true -> is_nan x = false /\ is_nan y = false.
Proof.
  intros H. split.
  - destruct (is_nan x) eqn:E; [|reflexivity].
    rewrite (ltb_nan_l x y E) in H. discriminate.
  - destruct (is_nan y) eqn:E; [|reflexivity].
    rewrite (ltb_nan_r x y E) in H. discriminate.
Qed.

Lemma leb_trans (x y z : float) :
  (x <=? y) = true -> (y <=? z) = true -> (x <=? z) = true.
Proof.
  intros H1 H2.
  destruct (leb_true_not_nan _ _ H1) as [Hx Hy].
  destruct (leb_true_not_nan _ _ H2) as [_ Hz].
  rewrite leb_fkey in * by assumption.
  apply Z.leb_le. apply Z.leb_le in H1, H2. lia.
Qed.

Lemma ltb_leb (x y : float) : (x <? y) = true -> (x <=? y) = true.
Proof.
  intros H. destruct (ltb_true_not_nan _ _ H) as [Hx Hy].
  rewrite ltb_fkey in H by assumption. rewrite leb_fkey by assumption.
  apply Z.leb_le. apply Z.ltb_lt in H. lia.
Qed.

Lemma ltb_leb_false (x y : float) : (x <? y) = true -> (y <=? x) = false.
Proof.
  intros H. destruct (ltb_true_not_nan _ _ H) as [Hx Hy].
  rewrite (ltb_negb_leb x y Hx Hy) in H. destruct (y <=? x); [discriminate|reflexivity].
Qed.

Lemma Prim2SF_zero : Prim2SF 0 = S754_zero false.
Proof. reflexivity. Qed.

(** The comparator [a - b] of a sort is positive exactly when [b < a]. *)
Lemma sub_pos_ltb (x y : float) :
  is_nan x = false -> is_nan y = false -> (0 <? x - y) = (y <? x).
Proof.
  intros Hx Hy.
  rewrite !FloatAxioms.ltb_spec, FloatAxioms.sub_spec, Prim2SF_zero.
  apply SFsub_sign; auto using Prim2SF_valid, Prim2SF_not_nan.
Qed.

(** Subtracting zero changes nothing, not even the sign of a zero. *)
Lemma sub_zero_r (x : float) : x - 0 = x.
Proof.
  apply Prim2SF_inj. rewrite FloatAxioms.sub_spec, Prim2SF_zero.
  destruct (Prim2SF x) as [[]|[]| |s m e]; reflexivity.
Qed.

End FloatFacts.

(** ** Distance buckets *)

Section Buckets.

Import FloatFacts.

(** The tests [d < c] of the cascade, read as [c <= d] failing. *)
Lemma ltb_const (c d : float) :
  is_nan c = false -> is_nan d = false -> (d <? c) = negb (c <=? d).
Proof. intros Hc Hd. apply ltb_negb_leb; assumption. Qed.

(** A threshold below another one is passed whenever the other is. *)
Lemma leb_const_mono (c1 c2 d : float) :
  (c1 <=? c2) = true -> (c2 <=? d) = true -> (c1 <=? d) = true.
Proof. apply leb_trans. Qed.

(** C5. For every distance [d] that is a number (not NaN), in particular
    for every finite non-negative [d], [getDistanceCategory] returns the
    first bucket whose upper bound is above [d], every bucket containing
    its lower bound: veryClose iff [d < 0.05], close iff
    [0.05 <= d < 0.1], slightlyClose iff [0.1 <= d < 0.3], slightlyFar iff
    [0.3 <= d < 0.5], far iff [0.5 <= d < 0.7], veryFar iff [0.7 <= d];
    and [getDistanceCategory 0.05] is close. *)
Theorem getDistanceCategory_buckets (d : float) :
  is_nan d = false ->
  (getDistanceCategory d = Category.veryClose <-> (d <? 0.05) = true)
  /\ (getDistanceCategory d = Category.close
      <-> (0.05 <=? d) = true /\ (d <? 0.1) = true)
  /\ (getDistanceCategory d = Category.slightlyClose
      <-> (0.1 <=? d) = true /\ (d <? 0.3) = true)
  /\ (getDistanceCategory d = Category.slightlyFar
      <-> (0.3 <=? d) = true /\ (d <? 0.5) = true)
  /\ (getDistanceCategory d = Category.far
      <-> (0.5 <=? d) = true /\ (d <? 0.7) = true)
  /\ (getDistanceCategory d = Category.veryFar <-> (0.7 <=? d) = true)
  /\ getDistanceCategory 0.05 = Category.close.
Proof.
  intros Hd. unfold getDistanceCategory.
  rewrite (ltb_const 0.05 d), (ltb_const 0.1 d), (ltb_const 0.3 d),
          (ltb_const 0.5 d), (ltb_const 0.7 d) by (reflexivity || exact Hd).
  pose proof (leb_const_mono 0.05 0.1 d eq_refl) as M1.
  pose proof (leb_const_mono 0.1 0.3 d eq_refl) as M2.
  pose proof (leb_const_mono 0.3 0.5 d eq_refl) as M3.
  pose proof (leb_const_mono 0.5 0.7 d eq_refl) as M4.
  destruct (0.05 <=? d) eqn:E1, (0.1 <=? d) eqn:E2, (0.3 <=? d) eqn:E3,
           (0.5 <=? d) eqn:E4, (0.7 <=? d) eqn:E5; cbn [negb];
    try (specialize (M1 eq_refl)); try (specialize (M2 eq_refl));
    try (specialize (M3 eq_refl)); try (specialize (M4 eq_refl));
    try discriminate;
    repeat split; intros; try discriminate; try tauto;
    try (exfalso; intuition discriminate).
Qed.

(** The hypothesis of [getDistanceCategory_buckets] holds at the bucket
    boundary [0.3], which opens slightlyFar. *)
Lemma getDistanceCategory_buckets_witness :
  is_nan 0.3 = false
  /\ (getDistanceCategory 0.3 = Category.slightlyFar
      <-> (0.3 <=? 0.3) = true /\ (0.3 <? 0.5) = true).
Proof.
  split; [reflexivity|].
  exact (proj1 (proj2 (proj2 (proj2
           (getDistanceCategory_buckets 0.3 eq_refl))))).
Defined.

End Buckets.

(** ** Opacity *)

(** C7 as stated fails at [d = 0.5].  The floor of the opacity is not
    reached there: in binary64 arithmetic [0.8 - 0.5 * 1.2] is
    [0.20000000000000007], above the floor. *)
Lemma getDistanceOpacity_half_above_floor :
  getDistanceOpacity 0.5 <> 0.2.
Proof.
  intros H. apply (f_equal Prim2SF) in H. vm_compute in H. discriminate.
Qed.

(** [Math.max] with a number as first argument is that number or larger,
    unless it is NaN. *)
Lemma Math_max_floor (a v : float) :
  is_nan a = false ->
  is_nan (Math_max a v) = true \/ (a <=? Math_max a v) = true.
Proof.
  intros Ha. unfold Math_max. rewrite Ha. cbn [orb].
  assert (Haa : (a <=? a) = true).
  { rewrite FloatFacts.leb_fkey by assumption. apply Z.leb_refl. }
  destruct (is_nan v) eqn:Hv; [left; reflexivity|].
  right. destruct (a <? v) eqn:E1.
  - apply FloatFacts.ltb_leb. exact E1.
  - destruct (v <? a) eqn:E2; [exact Haa|].
    destruct (classify a); try exact Haa.
    rewrite (FloatFacts.ltb_negb_leb v a Hv Ha) in E2.
    destruct (a <=? v); [reflexivity|discriminate].
Qed.

(** Over exact rational numbers the formula does reach its floor at
    [d = 1/2]; the difference at [d = 0.5] above comes from rounding. *)
Lemma exactOpacity_half : (exactOpacity (1 # 2) == 2 # 10)%Q.
Proof. vm_compute. reflexivity. Qed.

(** C7, as the code has it.  [getDistanceOpacity d] is
    [Math.max(0.2, 0.8 - d * 1.2)] in binary64 arithmetic; it is [0.8] at
    [d = 0] and [0.2] at [d = 1]; at [d = 0.5] it is
    [0.20000000000000007], which is above the floor by less than [1e-16];
    and whenever it is a number it is at least [0.2]. *)
Theorem getDistanceOpacity_values :
  (forall d, getDistanceOpacity d = Math_max 0.2 (0.8 - d * 1.2))
  /\ getDistanceOpacity 0 = 0.8
  /\ getDistanceOpacity 1 = 0.2
  /\ getDistanceOpacity 0.5 = 0.20000000000000007
  /\ (0.2 <? getDistanceOpacity 0.5) = true
  /\ (getDistanceOpacity 0.5 - 0.2 <? 1e-16) = true
  /\ (forall d, is_nan (getDistanceOpacity d) = true
                \/ (0.2 <=? getDistanceOpacity d) = true).
Proof.
  repeat split; try reflexivity.
  intros d. apply Math_max_floor. reflexivity.
Qed.

(** ** Colour *)

Lemma lerpSegment0 (t : float) :
  lerpSegment 0 anchor0 anchor1 t =
  (Math_round (59 + t * 4 * (34 - 59)),
   Math_round (130 + t * 4 * (197 - 130)),
   Math_round (246 + t * 4 * (94 - 246))).
Proof.
  unfold lerpSegment, anchor0, anchor1, lerpChannel.
  rewrite FloatFacts.sub_zero_r. reflexivity.
Qed.

(** The channels computed by the code are the interpolation of the fixed
    palette. *)
Lemma colorChannels_piecewiseLinear (t : float) :
  colorChannels t = piecewiseLinearPalette t.
Proof.
  unfold colorChannels, piecewiseLinearPalette.
  rewrite lerpSegment0.
  destruct (t <? 0.25); [reflexivity|].
  destruct (t <? 0.5); [reflexivity|].
  destruct (t <? 0.75); reflexivity.
Qed.

(** C6. [getDistanceColor] interpolates the fixed palette piecewise
    linearly in [t = clamp(d * 2, 0, 1)], over the four segments between
    the anchors at [t = 0, 0.25, 0.5, 0.75, 1], and gives the anchor
    colours exactly at those five values of [t]: (59,130,246),
    (34,197,94), (74,222,128), (250,204,21), (239,68,68).  In particular
    the colour of distance 0 is rgb(59,130,246) and the colour of distance
    1 is rgb(239,68,68), whatever the opacity. *)
Theorem getDistanceColor_anchor_fidelity :
  (forall d, getDistanceColorRGB d
             = piecewiseLinearPalette (Math_min (Math_max (d * 2) 0) 1))
  /\ colorChannels 0 = (59, 130, 246)
  /\ colorChannels 0.25 = (34, 197, 94)
  /\ colorChannels 0.5 = (74, 222, 128)
  /\ colorChannels 0.75 = (250, 204, 21)
  /\ colorChannels 1 = (239, 68, 68)
  /\ colorParam 0 = 0 /\ colorParam 0.125 = 0.25 /\ colorParam 0.25 = 0.5
  /\ colorParam 0.375 = 0.75 /\ colorParam 0.5 = 1 /\ colorParam 1 = 1
  /\ getDistanceColorRGB 0 = (59, 130, 246)
  /\ getDistanceColorRGB 1 = (239, 68, 68)
  /\ (forall (Number_toString : float -> string) (opacity : float),
        getDistanceColor Number_toString 0 opacity
        = ("rgba(" ++ Number_toString 59 ++ ", " ++ Number_toString 130
             ++ ", " ++ Number_toString 246 ++ ", "
             ++ Number_toString opacity ++ ")")%string
        /\ getDistanceColor Number_toString 1 opacity
           = ("rgba(" ++ Number_toString 239 ++ ", " ++ Number_toString 68
                ++ ", " ++ Number_toString 68 ++ ", "
                ++ Number_toString opacity ++ ")")%string).
Proof.
  split.
  { intros d. unfold getDistanceColorRGB, colorParam.
    apply colorChannels_piecewiseLinear. }
  repeat split; try (vm_compute; reflexivity).
Qed.

(** ** Word-order summary *)

Lemma tendencies_distinct :
  tendencyUnknown <> tendencyHeadInitial
  /\ tendencyUnknown <> tendencyHeadFinal
  /\ tendencyUnknown <> tendencyMixed
  /\ tendencyHeadInitial <> tendencyHeadFinal
  /\ tendencyHeadInitial <> tendencyMixed
  /\ tendencyHeadFinal <> tendencyMixed.
Proof. repeat split; discriminate. Qed.

(** A rate cannot be above 0.7 and below 0.3. *)
Lemma rate_not_both (rate : float) :
  (0.7 <? rate) = true -> (rate <? 0.3) = true -> False.
Proof.
  intros H1 H2.
  destruct (FloatFacts.ltb_true_not_nan _ _ H1) as [_ Hr].
  rewrite FloatFacts.ltb_fkey in H1, H2 by (reflexivity || exact Hr).
  assert (H3 : (0.3 <? 0.7) = true) by reflexivity.
  rewrite FloatFacts.ltb_fkey in H3 by reflexivity.
  apply Z.ltb_lt in H1, H2, H3. lia.
Qed.

(** *** Reading a rate *)

Lemma objectPrototypeNames_elem (n : string) :
  existsb (String.eqb n) objectPrototypeNames = true
  <-> n ∈ objectPrototypeNames.
Proof.
  rewrite existsb_exists. split.
  - intros (x & Hx & E). apply String.eqb_eq in E. subst x.
    apply list_elem_of_In, Hx.
  - intros H. exists n. split; [apply list_elem_of_In, H|apply String.eqb_refl].
Qed.

Lemma objectPrototypeNames_not_elem (n : string) :
  existsb (String.eqb n) objectPrototypeNames = false
  <-> n ∉ objectPrototypeNames.
Proof.
  rewrite <- objectPrototypeNames_elem.
  destruct (existsb _ _); split; congruence.
Qed.

(** An own cell hides an inherited property of the same name. *)
Lemma getRate_own (rates : HeadDirectionRates) (key languageName : string)
    (c : cell) :
  lookup2 rates key languageName = Some c ->
  getRate rates key languageName
  = match c with Null => JSNull | Num x => JSNumber x end.
Proof.
  unfold lookup2, getRate, getProperty.
  destruct (rates !! key) as [row|]; cbn [mbind option_bind]; [|discriminate].
  intros ->. reflexivity.
Qed.

Lemma getRate_number (rates : HeadDirectionRates) (key languageName : string)
    (r : float) :
  getRate rates key languageName = JSNumber r
  <-> lookup2 rates key languageName = Some (Num r).
Proof.
  split; [|intros H; rewrite (getRate_own _ _ _ _ H); reflexivity].
  unfold lookup2, getRate, getProperty.
  destruct (rates !! key) as [row|]; cbn [mbind option_bind]; [|discriminate].
  destruct (row !! languageName) as [[|x]|]; try discriminate.
  - congruence.
  - destruct (existsb _ _); discriminate.
Qed.

Lemma getRate_null (rates : HeadDirectionRates) (key languageName : string) :
  getRate rates key languageName = JSNull
  <-> lookup2 rates key languageName = Some Null.
Proof.
  split; [|intros H; rewrite (getRate_own _ _ _ _ H); reflexivity].
  unfold lookup2, getRate, getProperty.
  destruct (rates !! key) as [row|]; cbn [mbind option_bind]; [|discriminate].
  destruct (row !! languageName) as [[|x]|]; try discriminate.
  - reflexivity.
  - destruct (existsb _ _); discriminate.
Qed.

(** An absent language reads as [undefined] unless its name is one of
    [Object.prototype] and the table has the key; then it reads as the
    inherited property. *)
Lemma getRate_absent (rates : HeadDirectionRates) (key languageName : string) :
  lookup2 rates key languageName = None ->
  getRate rates key languageName
  = match rates !! key with
    | Some _ =>
        if existsb (String.eqb languageName) objectPrototypeNames
        then JSObject else JSUndefined
    | None => JSUndefined
    end.
Proof.
  unfold lookup2, getRate, getProperty.
  destruct (rates !! key) as [row|]; cbn [mbind option_bind]; [|reflexivity].
  intros ->. reflexivity.
Qed.

Lemma getRate_undefined (rates : HeadDirectionRates) (key languageName : string) :
  languageName ∉ objectPrototypeNames ->
  getRate rates key languageName = JSUndefined
  <-> lookup2 rates key languageName = None.
Proof.
  intros N. apply objectPrototypeNames_not_elem in N.
  destruct (lookup2 rates key languageName) as [c|] eqn:E.
  - rewrite (getRate_own _ _ _ _ E). destruct c; split; discriminate.
  - rewrite (getRate_absent _ _ _ E), N.
    destruct (rates !! key); split; reflexivity.
Qed.

(** ** The two loops of [arcsData] *)

Lemma elem_of_map_pair {A : Type} (a x y : A) (l : list A) :
  (x, y) ∈ map (pair a) l <-> x = a /\ y ∈ l.
Proof.
  rewrite list_elem_of_In, in_map_iff. split.
  - intros (z & E & Hz). inversion E; subst. split; [reflexivity|].
    apply list_elem_of_In. exact Hz.
  - intros [-> Hy]. exists y. split; [reflexivity|].
    apply list_elem_of_In. exact Hy.
Qed.

(** The pairs met by the loops are the pairs of positions [i < j]. *)
Lemma elem_of_loopPairs {A : Type} (l : list A) (x y : A) :
  (x, y) ∈ loopPairs l
  <-> exists i j, (i < j)%nat /\ l !! i = Some x /\ l !! j = Some y.
Proof.
  induction l as [|a l IH]; cbn [loopPairs].
  - split.
    + intros H. inversion H.
    + intros (i & j & _ & H & _). rewrite lookup_nil in H. discriminate.
  - rewrite elem_of_app, elem_of_map_pair, IH. split.
    + intros [[-> Hy]|(i & j & Hij & Hi & Hj)].
      * apply list_elem_of_lookup in Hy as [k Hk].
        exists 0%nat, (S k). repeat split; [lia|exact Hk].
      * exists (S i), (S j). repeat split; [lia|exact Hi|exact Hj].
    + intros (i & j & Hij & Hi & Hj).
      destruct j as [|j]; [lia|]. cbn in Hj.
      destruct i as [|i]; cbn in Hi.
      * left. inversion Hi; subst. split; [reflexivity|].
        apply list_elem_of_lookup. exists j. exact Hj.
      * right. exists i, j. repeat split; [lia|exact Hi|exact Hj].
Qed.

Lemma loopPairs_elem_of {A : Type} (l : list A) (x y : A) :
  (x, y) ∈ loopPairs l -> x ∈ l /\ y ∈ l.
Proof.
  rewrite elem_of_loopPairs. intros (i & j & _ & Hi & Hj).
  split; apply list_elem_of_lookup; eauto.
Qed.

Lemma strictEq_true (a b : option string) : strictEq a b = true <-> a = b.
Proof.
  destruct a as [x|], b as [y|]; cbn; try (split; congruence).
  rewrite String.eqb_eq. split; congruence.
Qed.

Lemma strictEq_false (a b : option string) : strictEq a b = false <-> a <> b.
Proof.
  rewrite <- strictEq_true. destruct (strictEq a b); split; congruence.
Qed.

Lemma truthy_true (s : string) : truthy s = true <-> s <> EmptyString.
Proof.
  unfold truthy. rewrite negb_true_iff, String.eqb_neq. reflexivity.
Qed.

Lemma truthy_opt_true (s : option string) :
  truthy_opt s = true <-> exists x, s = Some x /\ x <> EmptyString.
Proof.
  destruct s as [x|]; cbn.
  - rewrite truthy_true. split; [eauto|]. intros (y & E & H). congruence.
  - split; [discriminate|]. intros (y & E & _). discriminate.
Qed.

Lemma truthy_opt_false (s : option string) :
  truthy_opt s = false <-> s = None \/ s = Some EmptyString.
Proof.
  destruct s as [x|]; cbn.
  - unfold truthy. rewrite negb_false_iff, String.eqb_eq.
    split; [intros ->; auto|]. intros [H|H]; congruence.
  - split; auto.
Qed.

(** The test of the loops holds only for two nodes of one language, *)
Lemma sameLanguage_sound (node1 node2 : LanguageLocation) :
  sameLanguage node1 node2 = true -> sameLanguageNodes node1 node2.
Proof.
  unfold sameLanguage, sameLanguageNodes.
  rewrite !orb_true_iff, andb_true_iff, !strictEq_true, truthy_opt_true.
  intros [[H|H]|[(p & E & Hp) H]]; auto.
  right. right. exists p. rewrite <- H. auto.
Qed.

(** and it holds for every two nodes of one language when the
    [primaryCode] they share is not the empty string. *)
Lemma sameLanguage_complete (node1 node2 : LanguageLocation) :
  primaryCode node1 <> Some EmptyString ->
  sameLanguageNodes node1 node2 -> sameLanguage node1 node2 = true.
Proof.
  unfold sameLanguage, sameLanguageNodes.
  rewrite !orb_true_iff, andb_true_iff, !strictEq_true, truthy_opt_true.
  intros NE [H|[H|(p & E1 & E2)]]; auto.
  right. split; [|congruence]. exists p. split; [exact E1|]. congruence.
Qed.

Lemma codesNonEmpty_node (allNodes : list LanguageLocation)
    (node : LanguageLocation) :
  codesNonEmpty allNodes = true -> node ∈ allNodes ->
  code node <> EmptyString /\ primaryCode node <> Some EmptyString.
Proof.
  unfold codesNonEmpty. rewrite forallb_forall. intros H Hn.
  apply list_elem_of_In in Hn. specialize (H node Hn).
  apply andb_prop in H as [H1 H2].
  apply truthy_true in H1. apply negb_true_iff, strictEq_false in H2. auto.
Qed.

(** *** The invariant of the node table *)

Lemma distinctStrings_NoDup (l : list string) :
  distinctStrings l = true -> NoDup l.
Proof.
  induction l as [|x l IH]; cbn; intros H; [constructor|].
  apply andb_prop in H as [H1 H2]. constructor; [|auto].
  intros Hx. apply negb_true_iff in H1.
  assert (E : existsb (String.eqb x) l = true).
  { apply existsb_exists. exists x. split.
    - apply list_elem_of_In. exact Hx.
    - apply String.eqb_refl. }
  congruence.
Qed.

Lemma NoDup_fmap_inj {A : Type} (f : A -> string) (l : list A) (x y : A) :
  NoDup (map f l) -> x ∈ l -> y ∈ l -> f x = f y -> x = y.
Proof.
  induction l as [|a l IH]; cbn; intros ND Hx Hy E.
  - inversion Hx.
  - apply NoDup_cons in ND as [Na ND].
    assert (Hin : forall z, z ∈ l -> f z ∈ map f l).
    { intros z Hz. apply list_elem_of_In, in_map, list_elem_of_In, Hz. }
    apply elem_of_cons in Hx as [->|Hx], Hy as [->|Hy]; auto.
    + exfalso. apply Na. rewrite E. auto.
    + exfalso. apply Na. rewrite <- E. auto.
Qed.

Section Table.

Variable allNodes : list LanguageLocation.

Lemma getLanguageByCode_Some (c : string) (q : LanguageLocation) :
  getLanguageByCode allNodes c = Some q -> q ∈ allNodes /\ code q = c.
Proof.
  unfold getLanguageByCode. intros H. apply find_some in H as [H1 H2].
  split; [apply list_elem_of_In; exact H1 | apply String.eqb_eq; exact H2].
Qed.

Lemma getLanguageByName_Some (n : string) (q : LanguageLocation) :
  getLanguageByName allNodes n = Some q ->
  q ∈ allNodes /\ name q = n /\ isPrimary q = true.
Proof.
  unfold getLanguageByName. intros H. apply find_some in H as [H1 H2].
  apply andb_prop in H2 as [H2 H3].
  repeat split; [apply list_elem_of_In; exact H1 | apply String.eqb_eq; exact H2 | exact H3].
Qed.

Lemma getLanguageByName_found (n : string) (q : LanguageLocation) :
  q ∈ allNodes -> name q = n -> isPrimary q = true ->
  exists q', getLanguageByName allNodes n = Some q'.
Proof.
  intros Hq Hn Hp. unfold getLanguageByName.
  destruct (find _ allNodes) as [q'|] eqn:E; [eauto|].
  exfalso. apply list_elem_of_In in Hq.
  pose proof (find_none _ _ E q Hq) as F. cbn in F.
  rewrite Hp, (proj2 (String.eqb_eq _ _) Hn) in F. discriminate.
Qed.

(** The node that [langName] looks up for a secondary node is the one
    [getLanguageByCode] finds. *)
Lemma langName_secondary (node : LanguageLocation) (p : string) :
  isPrimary node = false -> primaryCode node = Some p ->
  langName allNodes node = option_map name (getLanguageByCode allNodes p).
Proof.
  intros H1 H2. unfold langName, getLanguageByCode. rewrite H1, H2. reflexivity.
Qed.

Lemma langName_primary (node : LanguageLocation) :
  isPrimary node = true -> langName allNodes node = Some (name node).
Proof. intros H. unfold langName. rewrite H. reflexivity. Qed.

Hypothesis invariant : nodeInvariant allNodes = true.

Lemma invariant_codes : NoDup (map code allNodes).
Proof.
  unfold nodeInvariant in invariant.
  apply andb_prop in invariant as [_ H]. apply distinctStrings_NoDup, H.
Qed.

Lemma invariant_primary_names :
  NoDup (map name (getPrimaryLanguages allNodes)).
Proof.
  unfold nodeInvariant in invariant.
  apply andb_prop in invariant as [H _]. apply andb_prop in H as [_ H].
  apply distinctStrings_NoDup, H.
Qed.

Lemma invariant_linked (node : LanguageLocation) :
  node ∈ allNodes -> nodeLinked allNodes node = true.
Proof.
  unfold nodeInvariant in invariant.
  apply andb_prop in invariant as [H _]. apply andb_prop in H as [H _].
  intros Hn. rewrite forallb_forall in H. apply H, list_elem_of_In, Hn.
Qed.

(** A node of a table that satisfies the invariant is a primary node
    without [primaryCode], or a secondary node whose [primaryCode] is the
    code of a primary node of the same name. *)
Lemma invariant_node (node : LanguageLocation) :
  node ∈ allNodes ->
  (isPrimary node = true /\ primaryCode node = None)
  \/ (isPrimary node = false
      /\ exists p q, primaryCode node = Some p
           /\ getLanguageByCode allNodes p = Some q
           /\ q ∈ allNodes /\ code q = p
           /\ isPrimary q = true /\ name q = name node).
Proof.
  intros Hn. pose proof (invariant_linked node Hn) as L.
  unfold nodeLinked in L.
  destruct (isPrimary node).
  - left. destruct (primaryCode node); [discriminate|auto].
  - right. split; [reflexivity|].
    destruct (primaryCode node) as [p|]; [|discriminate].
    destruct (getLanguageByCode allNodes p) as [q|] eqn:E; [|discriminate].
    apply andb_prop in L as [L1 L2]. apply String.eqb_eq in L2.
    destruct (getLanguageByCode_Some _ _ E) as [Hq Hc].
    exists p, q. repeat split; auto.
Qed.

Lemma primary_elem_of (q : LanguageLocation) :
  q ∈ allNodes -> isPrimary q = true -> q ∈ getPrimaryLanguages allNodes.
Proof.
  intros H1 H2. unfold getPrimaryLanguages.
  apply list_elem_of_In, filter_In. split; [apply list_elem_of_In, H1|exact H2].
Qed.

(** Under the invariant, a node is looked up in the matrix under the
    name it carries. *)
Lemma invariant_langName (node : LanguageLocation) :
  node ∈ allNodes -> langName allNodes node = Some (name node).
Proof.
  intros Hn. destruct (invariant_node node Hn)
    as [[P _]|(P & p & q & E1 & E2 & _ & _ & _ & E3)].
  - apply langName_primary, P.
  - rewrite (langName_secondary node p P E1), E2. cbn. congruence.
Qed.

(** Under the invariant, [getLanguageByName] applied to the name of a
    node finds the primary node of its language. *)
Lemma invariant_getLanguageByName (node : LanguageLocation) :
  node ∈ allNodes ->
  exists q, getLanguageByName allNodes (name node) = Some q
            /\ q ∈ allNodes /\ isPrimary q = true
            /\ name q = name node /\ code q = primaryOf node.
Proof.
  intros Hn.
  assert (P : exists q0, q0 ∈ allNodes /\ isPrimary q0 = true
                         /\ name q0 = name node /\ code q0 = primaryOf node).
  { unfold primaryOf.
    destruct (invariant_node node Hn)
      as [[P E]|(P & p & q & E1 & E2 & Hq & Hc & Pq & E3)].
    - exists node. rewrite E. auto.
    - exists q. rewrite E1. auto. }
  destruct P as (q0 & Hq0 & Pq0 & Nq0 & Cq0).
  destruct (getLanguageByName_found (name node) q0 Hq0 Nq0 Pq0) as [q E].
  destruct (getLanguageByName_Some _ _ E) as (Hq & Nq & Pq).
  assert (q = q0).
  { apply (NoDup_fmap_inj name (getPrimaryLanguages allNodes));
      auto using invariant_primary_names, primary_elem_of. congruence. }
  subst q0. exists q. auto.
Qed.

(** Under the invariant, the two nodes of a pair that the loops treat as
    one language carry the same name. *)
Lemma invariant_sameLanguage_name (node1 node2 : LanguageLocation) :
  node1 ∈ allNodes -> node2 ∈ allNodes ->
  sameLanguage node1 node2 = true -> name node1 = name node2.
Proof.
  intros H1 H2 S. apply sameLanguage_sound in S.
  pose proof invariant_codes as ND.
  destruct (invariant_node node1 H1)
    as [[P1 N1]|(P1 & p1 & q1 & E1 & F1 & Hq1 & C1 & Pq1 & M1)];
  destruct (invariant_node node2 H2)
    as [[P2 N2]|(P2 & p2 & q2 & E2 & F2 & Hq2 & C2 & Pq2 & M2)];
  destruct S as [S|[S|(p & S1 & S2)]]; try congruence;
    try (assert (q2 = node1)
           by (apply (NoDup_fmap_inj code allNodes); auto; congruence);
         congruence);
    try (assert (q1 = node2)
           by (apply (NoDup_fmap_inj code allNodes); auto; congruence);
         congruence);
    try (assert (q1 = q2) by congruence; congruence).
Qed.

End Table.

(** *** The selection of the page *)

Lemma elem_of_pointsData (allNodes : list LanguageLocation)
    (selected : option string) (point : PointData) :
  point ∈ pointsData allNodes selected ->
  exists node, node ∈ allNodes /\ pt_code point = code node
               /\ pt_name point = name node.
Proof.
  unfold pointsData. rewrite list_elem_of_In, in_map_iff.
  intros (node & <- & H). exists node.
  split; [apply list_elem_of_In, H|]. split; reflexivity.
Qed.

(** A click on a node selects it, or clears the selection when the node
    is the selected one; the explicit clear clears it. *)
Lemma selection_transitions (st : GlobePageState) (nodeCode : string) :
  selectedNodeCode (handleLanguageClick st nodeCode)
  = (if strictEq (selectedNodeCode st) (Some nodeCode)
     then None else Some nodeCode)
  /\ selectedNodeCode (handleClearSelection st) = None.
Proof.
  unfold handleLanguageClick.
  destruct (strictEq (selectedNodeCode st) (Some nodeCode)); split; reflexivity.
Qed.

Lemma handleShowPopup_selection (allNodes : list LanguageLocation)
    (st : GlobePageState) :
  selectedNodeCode (handleShowPopup allNodes st) = selectedNodeCode st.
Proof.
  unfold handleShowPopup.
  destruct (selectedNodeCode st) as [c|] eqn:E; [|exact E].
  destruct (truthy c); [|exact E].
  destruct (getLanguageByCode allNodes c); [reflexivity|exact E].
Qed.

(** In every state the page can be in, over a table whose codes are
    non-empty, the selection is [null] or the non-empty code of a node of
    the table: the truthiness test of [arcsData] tells a selected node
    from no selection. *)
Lemma reachable_selection (allNodes : list LanguageLocation)
    (st : GlobePageState) :
  codesNonEmpty allNodes = true ->
  reachable allNodes st ->
  selectedNodeCode st = None
  \/ exists node, node ∈ allNodes
       /\ selectedNodeCode st = Some (code node)
       /\ code node <> EmptyString.
Proof.
  intros NE R. induction R as [|st ev R IH Hev]; [left; reflexivity|].
  destruct ev as [point|arc| | | |key]; cbn [step fst]; auto.
  - cbn [handlePointClick]. unfold handleLanguageClick.
    destruct (strictEq (selectedNodeCode st) (Some (pt_code point)));
      cbn [selectedNodeCode]; [left; reflexivity|].
    right. destruct (elem_of_pointsData _ _ _ (Hev point eq_refl))
      as (node & Hn & C & _).
    exists node. rewrite C.
    destruct (codesNonEmpty_node allNodes node NE Hn) as [H _]. auto.
  - rewrite handleShowPopup_selection. exact IH.
Qed.

Section Arcs.

Variables Math_sin Math_cos : float -> float.
Variable Math_atan2 : float -> float -> float.
Variable Number_toString : float -> string.
Variable allNodes : list LanguageLocation.

Local Abbreviation arcs := (arcsData Math_sin Math_cos Math_atan2 Number_toString allNodes).
Local Abbreviation sameArcs := (sameLanguageArcs Math_sin Math_cos Math_atan2 allNodes).
Local Abbreviation simArcs := (similarityArcs Math_sin Math_cos Math_atan2 Number_toString allNodes).
Local Abbreviation sameArc := (sameLanguageArc Math_sin Math_cos Math_atan2).
Local Abbreviation simArc := (similarityArc Math_sin Math_cos Math_atan2 Number_toString allNodes).

Lemma elem_of_sameLanguageArcs (arc : ArcData) :
  arc ∈ sameArcs
  <-> exists node1 node2, (node1, node2) ∈ loopPairs allNodes
        /\ sameArc node1 node2 = Some arc.
Proof.
  unfold sameLanguageArcs. rewrite list_elem_of_omap. split.
  - intros ([n1 n2] & H & E). eauto.
  - intros (n1 & n2 & H & E). exists (n1, n2). auto.
Qed.

Lemma elem_of_similarityArcs similarityData distanceFilter selectedNodeCode
    (arc : ArcData) :
  arc ∈ simArcs similarityData distanceFilter selectedNodeCode
  <-> exists node1 node2, (node1, node2) ∈ loopPairs allNodes
        /\ simArc similarityData distanceFilter selectedNodeCode node1 node2
           = Some arc.
Proof.
  unfold similarityArcs. rewrite list_elem_of_omap. split.
  - intros ([n1 n2] & H & E). eauto.
  - intros (n1 & n2 & H & E). exists (n1, n2). auto.
Qed.

Lemma sameLanguageArc_inv (node1 node2 : LanguageLocation) (arc : ArcData) :
  sameArc node1 node2 = Some arc ->
  sameLanguage node1 node2 = true
  /\ category arc = Category.same /\ clickable arc = false
  /\ node1Code arc = code node1 /\ node2Code arc = code node2
  /\ lang1 arc = name node1 /\ lang2 arc = name node2.
Proof.
  unfold sameLanguageArc. destruct (sameLanguage node1 node2); [|discriminate].
  intros E. inversion E; subst. cbn. repeat split; reflexivity.
Qed.

Lemma getDistanceCategory_not_same (d : float) :
  getDistanceCategory d <> Category.same.
Proof.
  unfold getDistanceCategory.
  repeat match goal with |- context [if ?b then _ else _] => destruct b end;
    discriminate.
Qed.

(** What an arc pushed by the second pair of loops records. *)
Lemma similarityArc_inv similarityData distanceFilter selectedNodeCode
    (node1 node2 : LanguageLocation) (arc : ArcData) :
  simArc similarityData distanceFilter selectedNodeCode node1 node2 = Some arc ->
  exists l1 l2 d,
    sameLanguage node1 node2 = false
    /\ langName allNodes node1 = Some l1 /\ l1 <> EmptyString
    /\ langName allNodes node2 = Some l2 /\ l2 <> EmptyString
    /\ lookup2 similarityData l1 l2 = Some (Num d)
    /\ arcVisible distanceFilter selectedNodeCode node1 node2 d
    /\ distance arc = d /\ category arc = getDistanceCategory d
    /\ clickable arc = true
    /\ node1Code arc = code node1 /\ node2Code arc = code node2
    /\ lang1 arc = name node1 /\ lang2 arc = name node2.
Proof.
  unfold similarityArc, arcVisible. cbv zeta.
  destruct (truthy_opt selectedNodeCode
            && negb (strictEq (Some (code node1)) selectedNodeCode)
            && negb (strictEq (Some (code node2)) selectedNodeCode)) eqn:G;
    [discriminate|].
  destruct (sameLanguage node1 node2) eqn:HS; [discriminate|].
  destruct (langName allNodes node1) as [l1|] eqn:E1; [|discriminate].
  destruct (langName allNodes node2) as [l2|] eqn:E2; [|discriminate].
  destruct (truthy l1) eqn:T1; [|discriminate].
  destruct (truthy l2) eqn:T2; [|discriminate]. cbn [negb orb].
  destruct (lookup2 similarityData l1 l2) as [[|d]|] eqn:EL; try discriminate.
  destruct (negb (truthy_opt selectedNodeCode)
            && negb (filter_get distanceFilter (getDistanceCategory d))) eqn:F;
    [discriminate|].
  intros E. inversion E; subst; cbn. exists l1, l2, d.
  apply truthy_true in T1, T2.
  repeat split; auto.
  destruct (truthy_opt selectedNodeCode); cbn [andb negb] in *.
  - apply andb_false_iff in G. rewrite !negb_false_iff, !strictEq_true in G.
    destruct G as [G|G]; [left|right]; congruence.
  - apply negb_false_iff in F. exact F.
Qed.

(** When the second pair of loops pushes an arc. *)
Lemma similarityArc_intro similarityData distanceFilter selectedNodeCode
    (node1 node2 : LanguageLocation) (l1 l2 : string) (d : float) :
  sameLanguage node1 node2 = false ->
  langName allNodes node1 = Some l1 -> l1 <> EmptyString ->
  langName allNodes node2 = Some l2 -> l2 <> EmptyString ->
  lookup2 similarityData l1 l2 = Some (Num d) ->
  arcVisible distanceFilter selectedNodeCode node1 node2 d ->
  exists arc,
    simArc similarityData distanceFilter selectedNodeCode node1 node2 = Some arc
    /\ distance arc = d /\ category arc = getDistanceCategory d
    /\ clickable arc = true
    /\ node1Code arc = code node1 /\ node2Code arc = code node2.
Proof.
  intros HS E1 T1 E2 T2 EL V.
  apply truthy_true in T1, T2.
  unfold similarityArc, arcVisible in *. cbv zeta.
  rewrite HS, E1, E2, T1, T2, EL. cbn [negb orb].
  destruct (truthy_opt selectedNodeCode) eqn:T; cbn [andb negb].
  - assert (G : negb (strictEq (Some (code node1)) selectedNodeCode)
                && negb (strictEq (Some (code node2)) selectedNodeCode) = false).
    { destruct V as [V|V]; rewrite V.
      - rewrite (proj2 (strictEq_true _ _) eq_refl). reflexivity.
      - rewrite (proj2 (strictEq_true (Some (code node2)) _) eq_refl).
        apply andb_false_r. }
    rewrite G. eexists. split; [reflexivity|]. cbn. repeat split; reflexivity.
  - rewrite V. cbn [negb]. eexists. split; [reflexivity|].
    cbn. repeat split; reflexivity.
Qed.

Lemma sameLanguageArc_intro (node1 node2 : LanguageLocation) :
  sameLanguage node1 node2 = true ->
  exists arc,
    sameArc node1 node2 = Some arc
    /\ category arc = Category.same /\ clickable arc = false
    /\ node1Code arc = code node1 /\ node2Code arc = code node2
    /\ color arc = "rgba(148, 163, 184, 0.2)"%string
    /\ arcAltitude arc = 0.01.
Proof.
  intros H. unfold sameLanguageArc. rewrite H.
  eexists. split; [reflexivity|]. cbn. repeat split; reflexivity.
Qed.

Lemma filter_same_all (l : list ArcData) :
  (forall arc, arc ∈ l -> category arc = Category.same) ->
  filter (fun arc => category arc = Category.same) l = l.
Proof.
  induction l as [|a l IH]; intros H; [reflexivity|].
  rewrite filter_cons_True by (apply H; left).
  f_equal. apply IH. intros arc Ha. apply H. right. exact Ha.
Qed.

Lemma filter_same_none (l : list ArcData) :
  (forall arc, arc ∈ l -> category arc <> Category.same) ->
  filter (fun arc => category arc = Category.same) l = [].
Proof.
  induction l as [|a l IH]; intros H; [reflexivity|].
  rewrite filter_cons_False by (apply H; left).
  apply IH. intros arc Ha. apply H. right. exact Ha.
Qed.

(** In the output, the arcs of the first pair of loops are the
    non-clickable ones, of category "same"; the arcs of the second pair
    are the clickable ones, of a distance category. *)
Lemma arcsData_kinds similarityData distanceFilter selectedNodeCode
    (arc : ArcData) :
  arc ∈ arcs similarityData distanceFilter selectedNodeCode ->
  (arc ∈ sameArcs /\ category arc = Category.same /\ clickable arc = false)
  \/ (arc ∈ simArcs similarityData distanceFilter selectedNodeCode
      /\ category arc <> Category.same /\ clickable arc = true).
Proof.
  unfold arcsData. rewrite elem_of_app. intros [H|H].
  - left. split; [exact H|].
    apply elem_of_sameLanguageArcs in H as (n1 & n2 & _ & E).
    apply sameLanguageArc_inv in E. tauto.
  - right. split; [exact H|].
    apply elem_of_similarityArcs in H as (n1 & n2 & _ & E).
    apply similarityArc_inv in E
      as (l1 & l2 & d & _ & _ & _ & _ & _ & _ & _ & _ & C & K & _).
    split; [|exact K]. rewrite C. apply getDistanceCategory_not_same.
Qed.

(** The arcs of the second pair of loops obey the selection: with a
    truthy selected code they end at the selected node, otherwise their
    category is enabled in the filter. *)
Lemma similarityArcs_scoped similarityData distanceFilter selectedNodeCode
    (arc : ArcData) :
  arc ∈ arcs similarityData distanceFilter selectedNodeCode ->
  clickable arc = true ->
  if truthy_opt selectedNodeCode
  then selectedNodeCode = Some (node1Code arc)
       \/ selectedNodeCode = Some (node2Code arc)
  else filter_get distanceFilter (category arc) = true.
Proof.
  intros Harc K.
  destruct (arcsData_kinds _ _ _ _ Harc) as [(_ & _ & K')|(H & _ & _)];
    [congruence|].
  apply elem_of_similarityArcs in H as (n1 & n2 & _ & E).
  apply similarityArc_inv in E
    as (l1 & l2 & d & _ & _ & _ & _ & _ & _ & V & _ & C & _ & C1 & C2 & _).
  unfold arcVisible in V. rewrite C, C1, C2. exact V.
Qed.

(** C2. Whatever the node table, the matrix and the filter: when a node
    code [X] is selected (a non-empty code), every similarity arc of the
    output, that is every clickable arc, has [X] as the code of one of its
    two end nodes, whatever the filter; when no node is selected, the
    category of every similarity arc is enabled in the filter.  An empty
    selected code counts as no selection; the page never has one: in
    every state it can be in, over a table whose codes are non-empty, the
    arcs it draws end at the selected node if there is one and have an
    enabled category if there is none. *)
Theorem similarity_arcs_selection_scoping :
  (forall similarityData distanceFilter selectedNodeCode arc,
      arc ∈ arcs similarityData distanceFilter selectedNodeCode ->
      clickable arc = true ->
      (forall X, selectedNodeCode = Some X -> X <> EmptyString ->
                 node1Code arc = X \/ node2Code arc = X)
      /\ (selectedNodeCode = None \/ selectedNodeCode = Some EmptyString ->
          filter_get distanceFilter (category arc) = true))
  /\ (codesNonEmpty allNodes = true ->
      forall st similarityData arc,
        reachable allNodes st ->
        arc ∈ arcs similarityData (distanceFilter st) (selectedNodeCode st) ->
        clickable arc = true ->
        match selectedNodeCode st with
        | Some X => node1Code arc = X \/ node2Code arc = X
        | None => filter_get (distanceFilter st) (category arc) = true
        end).
Proof.
  split.
  - intros similarityData distanceFilter selectedNodeCode arc Harc K.
    pose proof (similarityArcs_scoped _ _ _ _ Harc K) as V. split.
    + intros X EX HX.
      assert (T : truthy_opt selectedNodeCode = true)
        by (apply truthy_opt_true; eauto).
      rewrite T in V. destruct V as [V|V]; [left|right]; congruence.
    + intros N. apply truthy_opt_false in N. rewrite N in V. exact V.
  - intros NE st similarityData arc R Harc K.
    pose proof (similarityArcs_scoped _ _ _ _ Harc K) as V.
    destruct (reachable_selection allNodes st NE R) as [N|(node & _ & E & T)].
    + rewrite N in *. exact V.
    + rewrite E in *. cbn [truthy_opt] in V.
      rewrite (proj2 (truthy_true _) T) in V.
      destruct V as [V|V]; [left|right]; congruence.
Qed.

(** C3. For a table whose codes are non-empty strings, as those of the
    application are: for every two nodes of the table that are nodes of
    one language (one is the primary of the other, or both are
    secondaries of the same primary code), and for every matrix, filter
    and selection, the output has an arc of category "same" between them
    that is not clickable; an arc of category "same" is never clickable;
    and the "same" arcs of the output are the same list for every matrix,
    filter and selection. *)
Theorem sameLanguage_arcs_always similarityData distanceFilter
    selectedNodeCode :
  codesNonEmpty allNodes = true ->
  (forall i j node1 node2,
      (i < j)%nat -> allNodes !! i = Some node1 -> allNodes !! j = Some node2 ->
      sameLanguageNodes node1 node2 ->
      exists arc,
        arc ∈ arcs similarityData distanceFilter selectedNodeCode
        /\ category arc = Category.same /\ clickable arc = false
        /\ node1Code arc = code node1 /\ node2Code arc = code node2
        /\ color arc = "rgba(148, 163, 184, 0.2)"%string
        /\ arcAltitude arc = 0.01)
  /\ (forall arc,
        arc ∈ arcs similarityData distanceFilter selectedNodeCode ->
        category arc = Category.same -> clickable arc = false)
  /\ filter (fun arc => category arc = Category.same)
            (arcs similarityData distanceFilter selectedNodeCode)
     = sameArcs.
Proof.
  intros NE. split; [|split].
  - intros i j n1 n2 Hij Hi Hj S.
    assert (H1 : n1 ∈ allNodes) by (apply list_elem_of_lookup; eauto).
    destruct (codesNonEmpty_node allNodes n1 NE H1) as [_ P1].
    apply (sameLanguage_complete n1 n2 P1) in S.
    destruct (sameLanguageArc_intro n1 n2 S) as (arc & E & H).
    exists arc. split; [|exact H].
    unfold arcsData. apply elem_of_app. left.
    apply elem_of_sameLanguageArcs. exists n1, n2. split; [|exact E].
    apply elem_of_loopPairs. eauto.
  - intros arc Harc C.
    destruct (arcsData_kinds _ _ _ _ Harc) as [(_ & _ & K)|(_ & N & _)];
      [exact K|congruence].
  - unfold arcsData. rewrite filter_app.
    rewrite filter_same_all, filter_same_none.
    + apply app_nil_r.
    + intros arc H.
      apply elem_of_similarityArcs in H as (n1 & n2 & _ & E).
      apply similarityArc_inv in E
        as (l1 & l2 & d & _ & _ & _ & _ & _ & _ & _ & _ & C & _).
      rewrite C. apply getDistanceCategory_not_same.
    + intros arc H.
      apply elem_of_sameLanguageArcs in H as (n1 & n2 & _ & E).
      apply sameLanguageArc_inv in E. tauto.
Qed.

Lemma NoDup_codes_nodes : NoDup (map code allNodes) -> NoDup allNodes.
Proof.
  change (map code allNodes) with (code <$> allNodes). apply NoDup_fmap_1.
Qed.

(** C1, as the code has it.  For two nodes at positions [i < j] of a
    table that satisfies its invariant, with distinct non-empty language
    names [A] (of the node at [i]) and [B] (of the node at [j]): the arc of
    the pair is produced from the entry [matrix[A][B]] alone, subject to
    the visibility rule, whether or not [matrix[B][A]] exists; and when
    [matrix[A][B]] is absent or [null], the output has no similarity arc
    between the two nodes, whatever [matrix[B][A]] is. *)
Theorem similarity_arc_forward_lookup similarityData distanceFilter
    selectedNodeCode (i j : nat) (node1 node2 : LanguageLocation)
    (A B : string) :
  nodeInvariant allNodes = true ->
  (i < j)%nat -> allNodes !! i = Some node1 -> allNodes !! j = Some node2 ->
  langName allNodes node1 = Some A -> langName allNodes node2 = Some B ->
  A <> EmptyString -> B <> EmptyString -> A <> B ->
  (forall d,
      lookup2 similarityData A B = Some (Num d) ->
      arcVisible distanceFilter selectedNodeCode node1 node2 d ->
      exists arc,
        arc ∈ arcs similarityData distanceFilter selectedNodeCode
        /\ clickable arc = true
        /\ node1Code arc = code node1 /\ node2Code arc = code node2
        /\ distance arc = d /\ category arc = getDistanceCategory d)
  /\ (lookup2 similarityData A B = None
      \/ lookup2 similarityData A B = Some Null ->
      forall arc,
        arc ∈ arcs similarityData distanceFilter selectedNodeCode ->
        clickable arc = true ->
        ~ (node1Code arc = code node1 /\ node2Code arc = code node2)
        /\ ~ (node1Code arc = code node2 /\ node2Code arc = code node1)).
Proof.
  intros Inv Hij Hi Hj LA LB NA NB NAB.
  assert (H1 : node1 ∈ allNodes) by (apply list_elem_of_lookup; eauto).
  assert (H2 : node2 ∈ allNodes) by (apply list_elem_of_lookup; eauto).
  pose proof (invariant_codes allNodes Inv) as ND.
  assert (S : sameLanguage node1 node2 = false).
  { destruct (sameLanguage node1 node2) eqn:S; [|reflexivity]. exfalso.
    pose proof (invariant_sameLanguage_name allNodes Inv node1 node2 H1 H2 S) as E.
    rewrite (invariant_langName allNodes Inv node1 H1) in LA.
    rewrite (invariant_langName allNodes Inv node2 H2) in LB. congruence. }
  split.
  - intros d EL V.
    destruct (similarityArc_intro similarityData distanceFilter
                selectedNodeCode node1 node2 A B d S LA NA LB NB EL V)
      as (arc & E & Hd & Hc & Hk & C1 & C2).
    exists arc. repeat split; auto.
    unfold arcsData. apply elem_of_app. right.
    apply elem_of_similarityArcs. exists node1, node2. split; [|exact E].
    apply elem_of_loopPairs. eauto.
  - intros Habs arc Harc K.
    destruct (arcsData_kinds _ _ _ _ Harc) as [(_ & _ & K')|(H & _ & _)];
      [congruence|].
    apply elem_of_similarityArcs in H as (x & y & Hxy & E).
    apply similarityArc_inv in E
      as (l1 & l2 & d & _ & L1 & _ & L2 & _ & EL & _ & _ & _ & _ & C1 & C2 & _).
    destruct (loopPairs_elem_of _ _ _ Hxy) as [Hx Hy].
    split; intros [E1 E2].
    + assert (x = node1)
        by (apply (NoDup_fmap_inj code allNodes); auto; congruence).
      assert (y = node2)
        by (apply (NoDup_fmap_inj code allNodes); auto; congruence).
      subst x y. destruct Habs; congruence.
    + assert (x = node2)
        by (apply (NoDup_fmap_inj code allNodes); auto; congruence).
      assert (y = node1)
        by (apply (NoDup_fmap_inj code allNodes); auto; congruence).
      subst x y.
      apply elem_of_loopPairs in Hxy as (i' & j' & Hij' & Hi' & Hj').
      pose proof (NoDup_codes_nodes ND) as NDn.
      assert (i' = j) by (eapply NoDup_lookup; eauto).
      assert (j' = i) by (eapply NoDup_lookup; eauto).
      lia.
Qed.

(** C8. A click on an arc leaves the state of the page, and so the
    selected node code, as it was.  When the table satisfies its
    invariant, a click on a clickable arc of the output navigates to
    ["/compare/" + fromCode + "/" + toCode], where the two codes are the
    codes of the primary nodes of the languages of the two end nodes,
    found through the names the arc carries: the node's own code for a
    primary node, its [primaryCode] for a secondary one. *)
Theorem arc_click_selection_neutral :
  (forall st arc,
      fst (step allNodes st (ArcClick arc)) = st
      /\ selectedNodeCode (fst (step allNodes st (ArcClick arc)))
         = selectedNodeCode st)
  /\ (nodeInvariant allNodes = true ->
      forall st similarityData distanceFilter selectedCode arc,
        arc ∈ arcs similarityData distanceFilter selectedCode ->
        clickable arc = true ->
        exists node1 node2 primary1 primary2,
          node1 ∈ allNodes /\ node2 ∈ allNodes
          /\ node1Code arc = code node1 /\ node2Code arc = code node2
          /\ getLanguageByName allNodes (name node1) = Some primary1
          /\ getLanguageByName allNodes (name node2) = Some primary2
          /\ isPrimary primary1 = true /\ isPrimary primary2 = true
          /\ code primary1 = primaryOf node1
          /\ code primary2 = primaryOf node2
          /\ snd (step allNodes st (ArcClick arc))
             = Some ("/compare/" ++ primaryOf node1 ++ "/"
                       ++ primaryOf node2)%string).
Proof.
  split; [intros st arc; split; reflexivity|].
  intros Inv st similarityData distanceFilter selectedCode arc Harc K.
  destruct (arcsData_kinds _ _ _ _ Harc) as [(_ & _ & K')|(H & _ & _)];
    [congruence|].
  apply elem_of_similarityArcs in H as (n1 & n2 & Hp & E).
  apply similarityArc_inv in E
    as (l1 & l2 & d & _ & _ & _ & _ & _ & _ & _ & _ & _ & _ & C1 & C2 & N1 & N2).
  destruct (loopPairs_elem_of _ _ _ Hp) as [H1 H2].
  destruct (invariant_getLanguageByName allNodes Inv n1 H1)
    as (q1 & G1 & _ & P1 & _ & Q1).
  destruct (invariant_getLanguageByName allNodes Inv n2 H2)
    as (q2 & G2 & _ & P2 & _ & Q2).
  exists n1, n2, q1, q2. repeat split; auto.
  cbn [step snd]. unfold handleArcClick. rewrite K, N1, N2, G1, G2. cbn [negb].
  rewrite Q1, Q2. reflexivity.
Qed.

End Arcs.

(** ** The arc builder on the table of the application *)

Lemma LANGUAGE_LOCATIONS_invariant : nodeInvariant LANGUAGE_LOCATIONS = true.
Proof. vm_compute. reflexivity. Qed.

Lemma LANGUAGE_LOCATIONS_codesNonEmpty :
  codesNonEmpty LANGUAGE_LOCATIONS = true.
Proof. vm_compute. reflexivity. Qed.

(** The two-node example: 0.82 is in the bucket [veryFar], so with only
    [far] enabled there is no arc, and with only [veryFar] enabled there
    is exactly the arc between [ja] and [en]. *)
Lemma worked_example Math_sin Math_cos Math_atan2 Number_toString :
  arcsData Math_sin Math_cos Math_atan2 Number_toString
           workedNodes workedMatrix onlyFar None = []
  /\ map (fun arc => (node1Code arc, node2Code arc, category arc, distance arc))
         (arcsData Math_sin Math_cos Math_atan2 Number_toString
                   workedNodes workedMatrix onlyVeryFar None)
     = [("ja"%string, "en"%string, Category.veryFar, 0.82)].
Proof. split; vm_compute; reflexivity. Qed.

(** The end nodes of the arcs built from the matrix whose only entry is
    [matrix["Japanese"]["English"]], with every bucket enabled and no
    selection: the ten pairs of one language, then Japanese with the two
    secondary English nodes that follow it in the table. *)
Lemma reverseOnly_arc_ends Math_sin Math_cos Math_atan2 Number_toString :
  map (fun arc => (node1Code arc, node2Code arc))
      (arcsData Math_sin Math_cos Math_atan2 Number_toString
                LANGUAGE_LOCATIONS reverseOnlyMatrix allFilters None)
  = [("ar", "ar-eg"); ("zh", "zh-tw"); ("en", "en-us"); ("en", "en-au");
     ("fr", "fr-ca"); ("pt", "pt-br"); ("es", "es-mx"); ("es", "es-ar");
     ("en-us", "en-au"); ("es-mx", "es-ar");
     ("ja", "en-us"); ("ja", "en-au")]%string.
Proof. vm_compute. reflexivity. Qed.

(** C1 as stated fails.  The arc of a pair is not produced from whichever
    of the two entries is present, on the table of the application: with
    the single entry [matrix["Japanese"]["English"]], every bucket enabled
    and no selection, no arc joins the nodes [en] and [ja], although
    their names English and Japanese are distinct and the pair has an
    entry in exactly one direction. *)
Lemma directional_lookup_counterexample :
  exists node1 node2,
    LANGUAGE_LOCATIONS !! 3%nat = Some node1
    /\ LANGUAGE_LOCATIONS !! 12%nat = Some node2
    /\ code node1 = "en"%string /\ code node2 = "ja"%string
    /\ langName LANGUAGE_LOCATIONS node1 = Some "English"%string
    /\ langName LANGUAGE_LOCATIONS node2 = Some "Japanese"%string
    /\ lookup2 reverseOnlyMatrix "Japanese" "English" = Some (Num 0.5)
    /\ lookup2 reverseOnlyMatrix "English" "Japanese" = None
    /\ arcVisible allFilters None node1 node2 0.5
    /\ forall Math_sin Math_cos Math_atan2 Number_toString arc,
         arc ∈ arcsData Math_sin Math_cos Math_atan2 Number_toString
                 LANGUAGE_LOCATIONS reverseOnlyMatrix allFilters None ->
         ~ (node1Code arc = "en"%string /\ node2Code arc = "ja"%string)
         /\ ~ (node1Code arc = "ja"%string /\ node2Code arc = "en"%string).
Proof.
  eexists. eexists.
  split; [reflexivity|]. split; [reflexivity|].
  split; [reflexivity|]. split; [reflexivity|].
  split; [vm_compute; reflexivity|]. split; [vm_compute; reflexivity|].
  split; [vm_compute; reflexivity|]. split; [vm_compute; reflexivity|].
  split; [vm_compute; reflexivity|].
  intros Math_sin Math_cos Math_atan2 Number_toString arc H.
  apply list_elem_of_In in H.
  apply (in_map (fun arc => (node1Code arc, node2Code arc))) in H.
  rewrite reverseOnly_arc_ends in H. cbn [In] in H.
  split; intros [E1 E2]; rewrite E1, E2 in H;
    repeat (destruct H as [H|H]; [discriminate H|]); exact H.
Qed.

(** ** Sorting by a numeric field *)

Section SortByField.

Context {A : Type} (field : A -> float).

Local Abbreviation cmp := (fun a b : A => field a - field b).
Local Abbreviation ordered := (fun a b : A => (field a <=? field b) = true).

Lemma sort_insert_perm (x : A) (l : list A) :
  sort_insert cmp x l ≡ₚ x :: l.
Proof.
  induction l as [|y l IH]; cbn [sort_insert]; [reflexivity|].
  destruct (0 <? cmp x y); [|reflexivity].
  rewrite IH. apply Permutation_swap.
Qed.

(** Sorting keeps every element, as many times as it occurs. *)
Lemma Array_sort_perm (l : list A) : Array_sort cmp l ≡ₚ l.
Proof.
  induction l as [|x l IH]; cbn [Array_sort]; [reflexivity|].
  rewrite sort_insert_perm, IH. reflexivity.
Qed.

Lemma sort_insert_sorted (x : A) (l : list A) :
  is_nan (field x) = false ->
  Forall (fun a => is_nan (field a) = false) l ->
  StronglySorted ordered l ->
  StronglySorted ordered (sort_insert cmp x l).
Proof.
  intros Hx Hl Hs. induction Hs as [|y l Hs IH Hy]; cbn [sort_insert].
  - repeat constructor.
  - apply Forall_cons in Hl as [Ny Hl]. cbn beta.
    rewrite (FloatFacts.sub_pos_ltb _ _ Hx Ny).
    destruct (field y <? field x) eqn:E.
    + constructor; [apply IH, Hl|].
      rewrite sort_insert_perm. constructor; [|exact Hy].
      apply FloatFacts.ltb_leb, E.
    + rewrite (FloatFacts.ltb_negb_leb _ _ Ny Hx) in E.
      apply negb_false_iff in E.
      constructor; [constructor; assumption|].
      constructor; [exact E|].
      eapply Forall_impl; [exact Hy|]. intros z Hz.
      eapply FloatFacts.leb_trans; [exact E|exact Hz].
Qed.

(** When no field is NaN, the sorted list is in ascending order of the
    field. *)
Lemma Array_sort_sorted (l : list A) :
  Forall (fun a => is_nan (field a) = false) l ->
  StronglySorted ordered (Array_sort cmp l).
Proof.
  induction l as [|x l IH]; cbn [Array_sort]; intros H; [constructor|].
  apply Forall_cons in H as [Hx Hl].
  apply sort_insert_sorted; [exact Hx| |apply IH, Hl].
  rewrite Array_sort_perm. exact Hl.
Qed.

End SortByField.

(** ** The ranking panel *)

Section Ranking.

Variable allNodes : list LanguageLocation.

(** The [continue] tests of the loop leave out the selected node and the
    nodes of its language. *)
Lemma rankingSkips_true (selectedNodeCode : string)
    (selectedNode node : LanguageLocation) :
  rankingSkips selectedNodeCode selectedNode node = true
  <-> rankingExcluded selectedNodeCode selectedNode node.
Proof.
  unfold rankingSkips, rankingExcluded.
  rewrite !orb_true_iff, !andb_true_iff, !strictEq_true, !String.eqb_eq,
          truthy_opt_true.
  split.
  - intros [[[[H|H]|H]|[(p & E & Hp) H]]|[(p & E & Hp) H]]; auto.
    + right. right. right. exists p. repeat split; auto. left. congruence.
    + right. right. right. exists p. repeat split; auto. right. congruence.
  - intros [H|[H|[H|(p & Hp & E & [H|H])]]]; auto.
    + left. right. split; [eauto|congruence].
    + right. split; [eauto|congruence].
Qed.

Lemma rankingSkips_false (selectedNodeCode : string)
    (selectedNode node : LanguageLocation) :
  rankingSkips selectedNodeCode selectedNode node = false
  <-> ~ rankingExcluded selectedNodeCode selectedNode node.
Proof.
  rewrite <- rankingSkips_true.
  destruct (rankingSkips selectedNodeCode selectedNode node);
    split; congruence.
Qed.

(** The entry the loop pushes for a node. *)
Lemma rankingItem_Some similarityData (selectedNodeCode : string)
    (selectedNode : LanguageLocation) (selectedLangName : string)
    (node : LanguageLocation) (item : SimilarityItem) :
  rankingItem allNodes similarityData selectedNodeCode selectedNode
              selectedLangName node = Some item
  <-> ~ rankingExcluded selectedNodeCode selectedNode node
      /\ exists N d,
           langName allNodes node = Some N /\ N <> EmptyString
           /\ lookup2 similarityData selectedLangName N = Some (Num d)
           /\ item = {| item_code := code node;
                        item_name := name node;
                        item_nameJa := nameJa node;
                        item_country := country node;
                        item_similarity := 1 - d;
                        item_distance := d |}.
Proof.
  unfold rankingItem. rewrite <- rankingSkips_false. split.
  - destruct (rankingSkips selectedNodeCode selectedNode node); [discriminate|].
    destruct (langName allNodes node) as [N|] eqn:EN; [|discriminate].
    destruct (truthy N) eqn:T; [|discriminate]. cbn [negb].
    destruct (lookup2 similarityData selectedLangName N) as [[|d]|] eqn:EL;
      try discriminate.
    intros E. inversion E; subst. split; [reflexivity|].
    exists N, d. apply truthy_true in T. repeat split; auto.
  - intros (S & N & d & E1 & T & E2 & ->).
    apply truthy_true in T. rewrite S, E1, T, E2. reflexivity.
Qed.

Lemma elem_of_rankingItems similarityData (selectedNodeCode : string)
    (selectedNode : LanguageLocation) (selectedLangName : string)
    (item : SimilarityItem) :
  item ∈ rankingItems allNodes similarityData selectedNodeCode selectedNode
           selectedLangName
  <-> exists node, node ∈ allNodes
        /\ rankingItem allNodes similarityData selectedNodeCode selectedNode
                       selectedLangName node = Some item.
Proof. unfold rankingItems. apply list_elem_of_omap. Qed.

Lemma sortedSimilarities_unfold (selectedNodeCode : string) similarityData
    (selectedNode : LanguageLocation) (selectedLangName : string)
    (row : gmap string cell) :
  getLanguageByCode allNodes selectedNodeCode = Some selectedNode ->
  langName allNodes selectedNode = Some selectedLangName ->
  selectedLangName <> EmptyString ->
  similarityData !! selectedLangName = Some row ->
  sortedSimilarities allNodes selectedNodeCode similarityData
  = Array_sort (fun a b => item_distance a - item_distance b)
      (rankingItems allNodes similarityData selectedNodeCode selectedNode
                    selectedLangName).
Proof.
  intros E1 E2 T E3. apply truthy_true in T.
  unfold sortedSimilarities. rewrite E1, E2, T, E3. reflexivity.
Qed.

(** C10. If the matrix has no row under the language name of the
    selected node, the ranking is the empty list, whatever the other rows
    hold: the name is looked up as a row key only.  The function is total,
    so nothing is raised. *)
Theorem ranking_without_row (selectedNodeCode : string) similarityData
    (selectedNode : LanguageLocation) (selectedLangName : string) :
  getLanguageByCode allNodes selectedNodeCode = Some selectedNode ->
  langName allNodes selectedNode = Some selectedLangName ->
  similarityData !! selectedLangName = None ->
  sortedSimilarities allNodes selectedNodeCode similarityData = [].
Proof.
  intros E1 E2 E3. unfold sortedSimilarities. rewrite E1, E2, E3.
  destruct (truthy selectedLangName); reflexivity.
Qed.

(** The ranking is also empty when the selected code is not in the table
    or when the selected node has no language name. *)
Lemma ranking_unresolved (selectedNodeCode : string) similarityData :
  getLanguageByCode allNodes selectedNodeCode = None
  \/ (exists selectedNode,
        getLanguageByCode allNodes selectedNodeCode = Some selectedNode
        /\ (langName allNodes selectedNode = None
            \/ langName allNodes selectedNode = Some EmptyString)) ->
  sortedSimilarities allNodes selectedNodeCode similarityData = [].
Proof.
  unfold sortedSimilarities.
  intros [E|(n & E & [L|L])]; rewrite E; try rewrite L; reflexivity.
Qed.

End Ranking.

(** C4. When the selected code is in the table and the matrix has a row
    for the language name of the selected node, the ranking has one entry
    for every node of the table that is neither the selected node nor
    another node of its language (same name, or linked to it through
    [primaryCode]) and whose language name has a number [d] in that row;
    the entry has distance [d] and similarity [1 - d]; every such entry is
    in the list, so the list is not cut; and when no distance is NaN the
    list is in ascending order of distance.  On the table of the
    application, for the distances 0.02, 0.10 and 0.40 from Finnish to
    Korean, Turkish and Japanese the ranking is Korean, Turkish, Japanese
    with similarities 0.98, 0.9 and 0.6. *)
Theorem ranking_sorted_by_distance :
  (forall allNodes selectedNodeCode similarityData selectedNode
          selectedLangName row,
      getLanguageByCode allNodes selectedNodeCode = Some selectedNode ->
      langName allNodes selectedNode = Some selectedLangName ->
      selectedLangName <> EmptyString ->
      similarityData !! selectedLangName = Some row ->
      let ranking :=
        sortedSimilarities allNodes selectedNodeCode similarityData in
      (forall item,
          item ∈ ranking
          <-> exists node N d,
                node ∈ allNodes
                /\ ~ rankingExcluded selectedNodeCode selectedNode node
                /\ langName allNodes node = Some N /\ N <> EmptyString
                /\ row !! N = Some (Num d)
                /\ item = {| item_code := code node;
                             item_name := name node;
                             item_nameJa := nameJa node;
                             item_country := country node;
                             item_similarity := 1 - d;
                             item_distance := d |})
      /\ ranking ≡ₚ rankingItems allNodes similarityData selectedNodeCode
                      selectedNode selectedLangName
      /\ length ranking
         = length (rankingItems allNodes similarityData selectedNodeCode
                     selectedNode selectedLangName)
      /\ Forall (fun item => item_similarity item = 1 - item_distance item)
                ranking
      /\ ((forall N d, row !! N = Some (Num d) -> is_nan d = false) ->
          StronglySorted
            (fun a b => (item_distance a <=? item_distance b) = true)
            ranking))
  /\ map (fun item => (item_name item, item_similarity item, item_distance item))
         (sortedSimilarities LANGUAGE_LOCATIONS "fi" rankingExampleMatrix)
     = [("Korean"%string, 0.98, 0.02); ("Turkish"%string, 0.9, 0.1);
        ("Japanese"%string, 0.6, 0.4)].
Proof.
  split; [|vm_compute; reflexivity].
  intros allNodes selectedNodeCode similarityData selectedNode
         selectedLangName row E1 E2 T E3 ranking.
  assert (EL : forall N, lookup2 similarityData selectedLangName N = row !! N).
  { intros N. unfold lookup2. rewrite E3. reflexivity. }
  assert (Hmem : forall item,
            item ∈ rankingItems allNodes similarityData selectedNodeCode
                     selectedNode selectedLangName
            <-> exists node N d,
                node ∈ allNodes
                /\ ~ rankingExcluded selectedNodeCode selectedNode node
                /\ langName allNodes node = Some N /\ N <> EmptyString
                /\ row !! N = Some (Num d)
                /\ item = {| item_code := code node;
                             item_name := name node;
                             item_nameJa := nameJa node;
                             item_country := country node;
                             item_similarity := 1 - d;
                             item_distance := d |}).
  { intros item. rewrite elem_of_rankingItems. split.
    - intros (node & Hn & E). apply rankingItem_Some in E
        as (X & N & d & L & TN & EN & ->).
      rewrite EL in EN. exists node, N, d. auto 10.
    - intros (node & N & d & Hn & X & L & TN & EN & ->).
      exists node. split; [exact Hn|]. apply rankingItem_Some.
      split; [exact X|]. exists N, d. rewrite EL. auto. }
  assert (Hperm : ranking ≡ₚ rankingItems allNodes similarityData
                    selectedNodeCode selectedNode selectedLangName).
  { subst ranking.
    rewrite (sortedSimilarities_unfold allNodes _ _ _ _ row E1 E2 T E3).
    apply (Array_sort_perm item_distance). }
  split; [|split; [|split; [|split]]].
  - intros item. rewrite Hperm. apply Hmem.
  - exact Hperm.
  - rewrite Hperm. reflexivity.
  - rewrite Hperm. apply Forall_forall. intros item Hi.
    apply Hmem in Hi as (node & N & d & _ & _ & _ & _ & _ & ->). reflexivity.
  - intros Hnan. subst ranking.
    rewrite (sortedSimilarities_unfold allNodes _ _ _ _ row E1 E2 T E3).
    apply (Array_sort_sorted item_distance).
    apply Forall_forall. intros item Hi.
    apply Hmem in Hi as (node & N & d & _ & _ & _ & _ & EN & ->).
    cbn. eapply Hnan, EN.
Qed.

(** ** The properties on the table of the application *)

Local Abbreviation exampleArcs :=
  (arcsData stubTrig stubTrig stubAtan2 stubToString LANGUAGE_LOCATIONS).

(** On the table of the application, with the single entry
    [matrix["English"]["Japanese"]], the arc between [en] and [ja] is
    produced. *)
Lemma similarity_arc_forward_lookup_witness :
  exists arc,
    arc ∈ exampleArcs forwardOnlyMatrix allFilters None
    /\ clickable arc = true
    /\ node1Code arc = "en"%string /\ node2Code arc = "ja"%string
    /\ distance arc = 0.5 /\ category arc = Category.far.
Proof.
  destruct (LANGUAGE_LOCATIONS !! 3%nat) as [node1|] eqn:E1; [|discriminate].
  destruct (LANGUAGE_LOCATIONS !! 12%nat) as [node2|] eqn:E2; [|discriminate].
  destruct (proj1 (similarity_arc_forward_lookup
                     stubTrig stubTrig stubAtan2 stubToString
                     LANGUAGE_LOCATIONS forwardOnlyMatrix allFilters None
                     3 12 node1 node2 "English" "Japanese"
                     LANGUAGE_LOCATIONS_invariant ltac:(lia) E1 E2
                     ltac:(vm_compute in E1; inversion E1; reflexivity)
                     ltac:(vm_compute in E2; inversion E2; reflexivity)
                     ltac:(discriminate) ltac:(discriminate)
                     ltac:(discriminate))
              0.5 ltac:(vm_compute; reflexivity) ltac:(vm_compute; reflexivity))
    as (arc & H & K & C1 & C2 & D & C).
  vm_compute in E1, E2. inversion E1; subst. inversion E2; subst.
  exists arc. repeat split; assumption.
Defined.

(** On the table of the application, with Japanese selected and every
    bucket disabled, the clickable arc of the output ends at [ja]. *)
Lemma similarity_arcs_selection_scoping_witness :
  exists arc,
    exampleArcs forwardOnlyMatrix noFilters (Some "ja"%string) !! 10%nat
      = Some arc
    /\ clickable arc = true
    /\ (node1Code arc = "ja"%string \/ node2Code arc = "ja"%string).
Proof.
  destruct (exampleArcs forwardOnlyMatrix noFilters (Some "ja"%string)
              !! 10%nat) as [arc|] eqn:E; [|vm_compute in E; discriminate].
  assert (K : clickable arc = true).
  { vm_compute in E. inversion E. reflexivity. }
  exists arc. split; [reflexivity|]. split; [exact K|].
  apply (proj1 (similarity_arcs_selection_scoping
                  stubTrig stubTrig stubAtan2 stubToString LANGUAGE_LOCATIONS)
           forwardOnlyMatrix noFilters (Some "ja"%string) arc).
  - eapply list_elem_of_lookup_2. exact E.
  - exact K.
  - reflexivity.
  - discriminate.
Defined.

(** On the table of the application, the two secondary English nodes
    [en-us] and [en-au] are joined by a "same" arc, here with Korean
    selected and every bucket disabled. *)
Lemma sameLanguage_arcs_always_witness :
  exists arc,
    arc ∈ exampleArcs reverseOnlyMatrix noFilters (Some "ko"%string)
    /\ category arc = Category.same /\ clickable arc = false
    /\ node1Code arc = "en-us"%string /\ node2Code arc = "en-au"%string.
Proof.
  destruct (LANGUAGE_LOCATIONS !! 33%nat) as [node1|] eqn:E1; [|discriminate].
  destruct (LANGUAGE_LOCATIONS !! 34%nat) as [node2|] eqn:E2; [|discriminate].
  destruct (proj1 (sameLanguage_arcs_always
                     stubTrig stubTrig stubAtan2 stubToString
                     LANGUAGE_LOCATIONS reverseOnlyMatrix noFilters
                     (Some "ko"%string) LANGUAGE_LOCATIONS_codesNonEmpty)
              33%nat 34%nat node1 node2)
    as (arc & H & C & K & C1 & C2 & _).
  - lia.
  - exact E1.
  - exact E2.
  - vm_compute in E1, E2. inversion E1. inversion E2.
    right. right. exists "en"%string. split; reflexivity.
  - vm_compute in E1, E2. inversion E1; subst. inversion E2; subst.
    exists arc. auto.
Defined.

(** On the table of the application, a click on the arc between [ja] and
    the secondary node [en-us] leaves the state as it is and navigates to
    ["/compare/ja/en"]. *)
Lemma arc_click_selection_neutral_witness :
  exists arc,
    exampleArcs reverseOnlyMatrix allFilters None !! 10%nat = Some arc
    /\ clickable arc = true
    /\ node1Code arc = "ja"%string /\ node2Code arc = "en-us"%string
    /\ fst (step LANGUAGE_LOCATIONS initialState (ArcClick arc)) = initialState
    /\ (exists node1 node2,
          node1Code arc = code node1 /\ node2Code arc = code node2
          /\ snd (step LANGUAGE_LOCATIONS initialState (ArcClick arc))
             = Some ("/compare/" ++ primaryOf node1 ++ "/"
                       ++ primaryOf node2)%string)
    /\ snd (step LANGUAGE_LOCATIONS initialState (ArcClick arc))
       = Some "/compare/ja/en"%string.
Proof.
  destruct (exampleArcs reverseOnlyMatrix allFilters None !! 10%nat)
    as [arc|] eqn:E; [|vm_compute in E; discriminate].
  assert (K : clickable arc = true /\ node1Code arc = "ja"%string
              /\ node2Code arc = "en-us"%string
              /\ lang1 arc = "Japanese"%string /\ lang2 arc = "English"%string).
  { vm_compute in E. inversion E. repeat split; reflexivity. }
  destruct K as (K & C1 & C2 & L1 & L2).
  pose proof (arc_click_selection_neutral
                stubTrig stubTrig stubAtan2 stubToString LANGUAGE_LOCATIONS)
    as [Frame Nav].
  destruct (Nav LANGUAGE_LOCATIONS_invariant initialState
                reverseOnlyMatrix allFilters None arc
                (list_elem_of_lookup_2 _ _ _ E) K)
    as (n1 & n2 & q1 & q2 & _ & _ & D1 & D2 & _ & _ & _ & _ & _ & _ & S).
  exists arc. split; [reflexivity|]. split; [exact K|].
  split; [exact C1|]. split; [exact C2|].
  split; [exact (proj1 (Frame initialState arc))|].
  split; [exists n1, n2; auto|].
  cbn [step snd]. unfold handleArcClick. rewrite K, L1, L2. reflexivity.
Defined.

(** On the table of the application, with Finnish selected, a matrix
    without a Finnish row gives an empty ranking although its other rows
    have a Finnish column. *)
Lemma ranking_without_row_witness :
  lookup2 columnOnlyMatrix "Korean" "Finnish" = Some (Num 0.02)
  /\ columnOnlyMatrix !! "Finnish"%string = None
  /\ sortedSimilarities LANGUAGE_LOCATIONS "fi" columnOnlyMatrix = [].
Proof.
  split; [vm_compute; reflexivity|]. split; [vm_compute; reflexivity|].
  destruct (getLanguageByCode LANGUAGE_LOCATIONS "fi") as [node|] eqn:E;
    [|vm_compute in E; discriminate].
  apply (ranking_without_row LANGUAGE_LOCATIONS "fi" columnOnlyMatrix
                             node "Finnish" E).
  - vm_compute in E. inversion E. vm_compute. reflexivity.
  - vm_compute. reflexivity.
Defined.

(** On the table of the application, with Finnish selected, the ranking
    for the distances 0.02, 0.10 and 0.40 is in ascending order of
    distance. *)
Lemma ranking_sorted_by_distance_witness :
  StronglySorted (fun a b => (item_distance a <=? item_distance b) = true)
    (sortedSimilarities LANGUAGE_LOCATIONS "fi" rankingExampleMatrix).
Proof.
  destruct (getLanguageByCode LANGUAGE_LOCATIONS "fi") as [node|] eqn:E;
    [|vm_compute in E; discriminate].
  destruct (rankingExampleMatrix !! "Finnish"%string) as [row|] eqn:R;
    [|vm_compute in R; discriminate].
  destruct (proj1 ranking_sorted_by_distance LANGUAGE_LOCATIONS "fi"
              rankingExampleMatrix node "Finnish" row E)
    as (_ & _ & _ & _ & S).
  - vm_compute in E. inversion E. vm_compute. reflexivity.
  - discriminate.
  - exact R.
  - apply S. intros N d H.
    assert (R' : row = {[ "Korean"%string := Num 0.02;
                          "Turkish"%string := Num 0.1;
                          "Japanese"%string := Num 0.4 ]}).
    { unfold rankingExampleMatrix in R.
      rewrite lookup_singleton_eq in R. congruence. }
    subst row.
    destruct (decide (N = "Korean"%string)) as [->|N1].
    { rewrite lookup_insert_eq in H. inversion H. reflexivity. }
    rewrite lookup_insert_ne in H by congruence.
    destruct (decide (N = "Turkish"%string)) as [->|N2].
    { rewrite lookup_insert_eq in H. inversion H. reflexivity. }
    rewrite lookup_insert_ne in H by congruence.
    destruct (decide (N = "Japanese"%string)) as [->|N3].
    { rewrite lookup_singleton_eq in H. inversion H. reflexivity. }
    rewrite lookup_singleton_ne in H by congruence. discriminate.
Defined.

(** * Further properties *)

(** ** More facts on binary64 numbers *)

Module FloatMore.

Import FloatFacts.

Lemma leb_refl (x : float) : is_nan x = false -> (x <=? x) = true.
Proof. intros H. rewrite leb_fkey by assumption. apply Z.leb_refl. Qed.

Lemma leb_total (x y : float) :
  is_nan x = false -> is_nan y = false ->
  (x <=? y) = true \/ (y <=? x) = true.
Proof.
  intros Hx Hy. rewrite !leb_fkey by assumption.
  destruct (Z.leb_spec (fkey x) (fkey y)); [left; reflexivity|].
  right. apply Z.leb_le. lia.
Qed.

Lemma is_nan_nan : is_nan nan = true.
Proof. reflexivity. Qed.

(** [Math.min] and [Math.max] give NaN exactly when an argument is NaN,
    and otherwise one of their arguments. *)
Lemma Math_min_nan (a b : float) :
  is_nan (Math_min a b) = is_nan a || is_nan b.
Proof.
  unfold Math_min. destruct (is_nan a) eqn:Ha; [reflexivity|].
  destruct (is_nan b) eqn:Hb; [reflexivity|]. cbn [orb].
  destruct (a <? b); [exact Ha|]. destruct (b <? a); [exact Hb|].
  destruct (classify a); assumption.
Qed.

Lemma Math_max_nan (a b : float) :
  is_nan (Math_max a b) = is_nan a || is_nan b.
Proof.
  unfold Math_max. destruct (is_nan a) eqn:Ha; [reflexivity|].
  destruct (is_nan b) eqn:Hb; [reflexivity|]. cbn [orb].
  destruct (a <? b); [exact Hb|]. destruct (b <? a); [exact Ha|].
  destruct (classify a); assumption.
Qed.

Lemma Math_min_bounds (a b : float) :
  is_nan a = false -> is_nan b = false ->
  (Math_min a b <=? a) = true /\ (Math_min a b <=? b) = true
  /\ (Math_min a b = a \/ Math_min a b = b).
Proof.
  intros Ha Hb. unfold Math_min. rewrite Ha, Hb. cbn [orb].
  pose proof (leb_refl a Ha) as Ra. pose proof (leb_refl b Hb) as Rb.
  destruct (a <? b) eqn:E1.
  { repeat split; auto. apply ltb_leb, E1. }
  destruct (b <? a) eqn:E2.
  { repeat split; auto. apply ltb_leb, E2. }
  rewrite (ltb_negb_leb a b Ha Hb) in E1. apply negb_false_iff in E1.
  rewrite (ltb_negb_leb b a Hb Ha) in E2. apply negb_false_iff in E2.
  destruct (classify a); repeat split; auto.
Qed.

Lemma Math_max_bounds (a b : float) :
  is_nan a = false -> is_nan b = false ->
  (a <=? Math_max a b) = true /\ (b <=? Math_max a b) = true
  /\ (Math_max a b = a \/ Math_max a b = b).
Proof.
  intros Ha Hb. unfold Math_max. rewrite Ha, Hb. cbn [orb].
  pose proof (leb_refl a Ha) as Ra. pose proof (leb_refl b Hb) as Rb.
  destruct (a <? b) eqn:E1.
  { repeat split; auto. apply ltb_leb, E1. }
  destruct (b <? a) eqn:E2.
  { repeat split; auto. apply ltb_leb, E2. }
  rewrite (ltb_negb_leb a b Ha Hb) in E1. apply negb_false_iff in E1.
  rewrite (ltb_negb_leb b a Hb Ha) in E2. apply negb_false_iff in E2.
  destruct (classify a); repeat split; auto.
Qed.

(** [Math.max(lo, Math.min(hi, x))] is NaN for a NaN [x] and lies between
    [lo] and [hi] otherwise. *)
Lemma clamp_bounds (lo hi x : float) :
  (lo <=? hi) = true -> is_nan x = false ->
  (lo <=? Math_max lo (Math_min hi x)) = true
  /\ (Math_max lo (Math_min hi x) <=? hi) = true.
Proof.
  intros Hlh Hx. destruct (leb_true_not_nan _ _ Hlh) as [Hlo Hhi].
  assert (Hm : is_nan (Math_min hi x) = false)
    by (rewrite Math_min_nan, Hhi, Hx; reflexivity).
  destruct (Math_min_bounds hi x Hhi Hx) as (M1 & _ & _).
  destruct (Math_max_bounds lo _ Hlo Hm) as (X1 & _ & [E|E]).
  - split; [exact X1|]. rewrite E. exact Hlh.
  - split; [exact X1|]. rewrite E. exact M1.
Qed.

(** *** Finite numbers *)

Lemma isFiniteNumber_not_nan (x : float) :
  isFiniteNumber x = true -> is_nan x = false.
Proof.
  unfold isFiniteNumber. intros H. apply is_nan_false.
  destruct (Prim2SF x); discriminate.
Qed.

Lemma SFfinite_key (x : spec_float) :
  valid_binary x = true -> x <> S754_nan ->
  ((- 2 ^ 2100 <? SFkey x) && (SFkey x <? 2 ^ 2100))%Z
  = match x with S754_zero _ | S754_finite _ _ _ => true | _ => false end.
Proof.
  assert (Hbig : (0 < 2 ^ 2100)%Z) by (apply pow2_pos; lia).
  destruct x as [s|s| |s m e]; intros V N; try congruence; cbn [SFkey].
  - apply andb_true_iff. split; apply Z.ltb_lt; lia.
  - set (B := (2 ^ 2100)%Z) in *. apply andb_false_iff.
    destruct s; cbn [cond_Zopp]; [left|right]; apply Z.ltb_ge; lia.
  - cbn [valid_binary] in V. pose proof (finite_key_bound _ _ V) as K.
    set (B := (2 ^ 2100)%Z) in *. apply andb_true_iff.
    destruct s; cbn [cond_Zopp]; split; apply Z.ltb_lt; lia.
Qed.

(** A number between two finite numbers is finite. *)
Lemma between_finite (lo hi x : float) :
  isFiniteNumber lo = true -> isFiniteNumber hi = true ->
  (lo <=? x) = true -> (x <=? hi) = true -> isFiniteNumber x = true.
Proof.
  intros Flo Fhi H1 H2.
  destruct (leb_true_not_nan _ _ H1) as [Nlo Nx].
  destruct (leb_true_not_nan _ _ H2) as [_ Nhi].
  rewrite leb_fkey in H1, H2 by assumption. apply Z.leb_le in H1, H2.
  unfold isFiniteNumber, fkey in *.
  pose proof (SFfinite_key _ (Prim2SF_valid lo) (Prim2SF_not_nan _ Nlo)) as Klo.
  pose proof (SFfinite_key _ (Prim2SF_valid hi) (Prim2SF_not_nan _ Nhi)) as Khi.
  pose proof (SFfinite_key _ (Prim2SF_valid x) (Prim2SF_not_nan _ Nx)) as Kx.
  rewrite <- Kx. set (B := (2 ^ 2100)%Z) in *.
  destruct (Prim2SF lo); try discriminate;
    destruct (Prim2SF hi); try discriminate;
    apply andb_true_iff in Klo as [L1 L2]; apply andb_true_iff in Khi as [U1 U2];
    apply Z.ltb_lt in L1, L2, U1, U2;
    apply andb_true_iff; split; apply Z.ltb_lt; lia.
Qed.

Lemma binary_normalize_not_nan (m e : Z) (s : bool) :
  (-1074 <= e)%Z -> binary_normalize prec emax m e s <> S754_nan.
Proof.
  intros He. destruct m as [|p|p]; cbn [binary_normalize]; [discriminate| |].
  - destruct (binary_round_sign false p e He) as [(m' & e' & ->)| ->]; discriminate.
  - destruct (binary_round_sign true p e He) as [(m' & e' & ->)| ->]; discriminate.
Qed.

(** The sum and the difference of two finite numbers are numbers. *)
Lemma add_finite_not_nan (x y : float) :
  isFiniteNumber x = true -> isFiniteNumber y = true -> is_nan (x + y) = false.
Proof.
  unfold isFiniteNumber. intros Hx Hy. apply is_nan_false.
  rewrite FloatAxioms.add_spec.
  pose proof (Prim2SF_valid x) as Vx. pose proof (Prim2SF_valid y) as Vy.
  destruct (Prim2SF x) as [sx|sx| |sx mx ex]; try discriminate;
    destruct (Prim2SF y) as [sy|sy| |sy my ey]; try discriminate;
    cbn [SF64add SFadd]; try discriminate.
  - destruct sx, sy; discriminate.
  - cbn [valid_binary] in *.
    pose proof (bounded_inv _ _ Vx) as (Hex & _).
    pose proof (bounded_inv _ _ Vy) as (Hey & _).
    apply binary_normalize_not_nan. lia.
Qed.

Lemma sub_finite_not_nan (x y : float) :
  isFiniteNumber x = true -> isFiniteNumber y = true -> is_nan (x - y) = false.
Proof.
  unfold isFiniteNumber. intros Hx Hy. apply is_nan_false.
  rewrite FloatAxioms.sub_spec.
  pose proof (Prim2SF_valid x) as Vx. pose proof (Prim2SF_valid y) as Vy.
  destruct (Prim2SF x) as [sx|sx| |sx mx ex]; try discriminate;
    destruct (Prim2SF y) as [sy|sy| |sy my ey]; try discriminate;
    cbn [SF64sub SFsub]; try discriminate.
  - destruct sx, sy; discriminate.
  - cbn [valid_binary] in *.
    pose proof (bounded_inv _ _ Vx) as (Hex & _).
    pose proof (bounded_inv _ _ Vy) as (Hey & _).
    apply binary_normalize_not_nan. lia.
Qed.

Lemma abs_nan (x : float) : is_nan (abs x) = is_nan x.
Proof.
  destruct (is_nan x) eqn:E.
  - destruct (Prim2SF x) eqn:P;
      try (assert (is_nan x = false)
             by (apply is_nan_false; congruence); congruence).
    destruct (is_nan (abs x)) eqn:A; [reflexivity|].
    apply is_nan_false in A. rewrite FloatAxioms.abs_spec, P in A.
    exfalso. apply A. reflexivity.
  - apply is_nan_false. apply is_nan_false in E.
    rewrite FloatAxioms.abs_spec. destruct (Prim2SF x); cbn; congruence.
Qed.

(** An absolute value is never negative. *)
Lemma abs_nonneg (x : float) : is_nan x = false -> (0 <=? abs x) = true.
Proof.
  intros H. apply is_nan_false in H.
  rewrite FloatAxioms.leb_spec, FloatAxioms.abs_spec, Prim2SF_zero.
  destruct (Prim2SF x) as [s|s| |s m e]; cbn; congruence.
Qed.

(** A product is NaN only for a NaN factor or for zero times an
    infinity. *)
Lemma shr_fexp_nonneg (m e : Z) (l : location) :
  (0 <= m)%Z -> (0 <= shr_m (fst (shr_fexp prec emax m e l)))%Z.
Proof.
  intros Hm. unfold shr_fexp, shr.
  destruct (fexp prec emax (Zdigits2 m + e) - e)%Z as [|n|n];
    cbn [fst]; rewrite ?shr_record_of_loc_m; try exact Hm.
  rewrite iter_shr_1_m by (rewrite shr_record_of_loc_m; exact Hm).
  rewrite shr_record_of_loc_m. apply Z.shiftr_nonneg. exact Hm.
Qed.

Lemma round_nearest_even_nonneg (m : Z) (l : location) :
  (0 <= m)%Z -> (0 <= round_nearest_even m l)%Z.
Proof.
  intros H. destruct l as [|[]]; cbn [round_nearest_even]; try lia.
  destruct (Z.even m); lia.
Qed.

Lemma binary_round_aux_not_nan (s : bool) (m e : Z) (l : location) :
  (0 <= m)%Z -> binary_round_aux prec emax s m e l <> S754_nan.
Proof.
  intros Hm. unfold binary_round_aux.
  pose proof (shr_fexp_nonneg m e l Hm) as H1.
  destruct (shr_fexp prec emax m e l) as [mrs' e']. cbn [fst] in H1.
  pose proof (round_nearest_even_nonneg _ (loc_of_shr_record mrs') H1) as H3.
  pose proof (shr_fexp_nonneg _ e' loc_Exact H3) as H4.
  destruct (shr_fexp prec emax _ e' loc_Exact) as [mrs'' e'']. cbn [fst] in H4.
  destruct (shr_m mrs'') as [|p|p]; try lia; [discriminate|].
  destruct (e'' <=? emax - prec)%Z; discriminate.
Qed.

Lemma mul_hundred_nan (x : float) : is_nan (x * 100) = is_nan x.
Proof.
  destruct (is_nan x) eqn:E.
  - destruct (is_nan (x * 100)) eqn:A; [reflexivity|].
    apply is_nan_false in A. rewrite FloatAxioms.mul_spec in A.
    destruct (Prim2SF x) eqn:P;
      try (assert (is_nan x = false)
             by (apply is_nan_false; congruence); congruence).
    exfalso. apply A. reflexivity.
  - apply is_nan_false. apply is_nan_false in E.
    rewrite FloatAxioms.mul_spec.
    change (Prim2SF 100) with (S754_finite false 7036874417766400 (-46)).
    destruct (Prim2SF x) as [s|s| |s m e]; cbn [SF64mul SFmul];
      try discriminate; try congruence.
    apply binary_round_aux_not_nan. lia.
Qed.

Lemma one_sub_nan (x : float) : is_nan (1 - x) = is_nan x.
Proof.
  destruct (is_nan x) eqn:E.
  - destruct (is_nan (1 - x)) eqn:A; [reflexivity|].
    apply is_nan_false in A. rewrite FloatAxioms.sub_spec in A.
    destruct (Prim2SF x) eqn:P;
      try (assert (is_nan x = false)
             by (apply is_nan_false; congruence); congruence).
    exfalso. apply A. reflexivity.
  - destruct (isFiniteNumber x) eqn:F.
    + apply sub_finite_not_nan; [reflexivity|exact F].
    + apply is_nan_false. apply is_nan_false in E.
      rewrite FloatAxioms.sub_spec. unfold isFiniteNumber in F.
      change (Prim2SF 1) with (S754_finite false 4503599627370496 (-52)).
      destruct (Prim2SF x) as [s|s| |s m e]; try discriminate; try congruence.
Qed.

End FloatMore.

(** ** NaN distances and rates *)

Lemma getDistanceCategory_nan (d : float) :
  is_nan d = true -> getDistanceCategory d = Category.veryFar.
Proof.
  intros H. unfold getDistanceCategory.
  rewrite !(FloatFacts.ltb_nan_l d _ H). reflexivity.
Qed.

Section NaNArcs.

Variables Math_sin Math_cos : float -> float.
Variable Math_atan2 : float -> float -> float.
Variable Number_toString : float -> string.
Variable allNodes : list LanguageLocation.

(** X1. A cell of the matrix that holds NaN is not treated as missing
    data: the distance falls through every test of the bucket cascade
    into "veryFar", and without a selection the pair gets an arc exactly
    when the bucket "veryFar" is enabled. *)
Theorem nan_distance_is_veryFar similarityData distanceFilter
    (i j : nat) (node1 node2 : LanguageLocation) (l1 l2 : string) (d : float) :
  (i < j)%nat -> allNodes !! i = Some node1 -> allNodes !! j = Some node2 ->
  sameLanguage node1 node2 = false ->
  langName allNodes node1 = Some l1 -> l1 <> EmptyString ->
  langName allNodes node2 = Some l2 -> l2 <> EmptyString ->
  lookup2 similarityData l1 l2 = Some (Num d) ->
  is_nan d = true ->
  getDistanceCategory d = Category.veryFar
  /\ (veryFar distanceFilter = true ->
      exists arc,
        arc ∈ arcsData Math_sin Math_cos Math_atan2 Number_toString allNodes
                similarityData distanceFilter None
        /\ node1Code arc = code node1 /\ node2Code arc = code node2
        /\ category arc = Category.veryFar /\ is_nan (distance arc) = true)
  /\ (veryFar distanceFilter = false ->
      similarityArc Math_sin Math_cos Math_atan2 Number_toString allNodes
                    similarityData distanceFilter None node1 node2 = None).
Proof.
  intros Hij Hi Hj S L1 T1 L2 T2 EL N.
  pose proof (getDistanceCategory_nan d N) as C.
  split; [exact C|]. split.
  - intros F.
    destruct (similarityArc_intro Math_sin Math_cos Math_atan2 Number_toString
                allNodes similarityData distanceFilter None node1 node2 l1 l2 d
                S L1 T1 L2 T2 EL) as (arc & E & D & Cat & _ & C1 & C2).
    { unfold arcVisible. cbn [truthy_opt]. rewrite C. exact F. }
    exists arc. repeat split; try congruence.
    unfold arcsData. apply elem_of_app. right.
    apply elem_of_similarityArcs. exists node1, node2. split; [|exact E].
    apply elem_of_loopPairs. eauto.
  - intros F. apply truthy_true in T1, T2.
    unfold similarityArc. cbv zeta. cbn [truthy_opt andb].
    rewrite S, L1, L2, T1, T2, EL, C. cbn [negb orb andb filter_get].
    rewrite F. reflexivity.
Qed.

End NaNArcs.

(** The matrix whose only entry holds NaN. *)
Lemma nan_distance_is_veryFar_witness :
  exists arc,
    arc ∈ arcsData stubTrig stubTrig stubAtan2 stubToString LANGUAGE_LOCATIONS
            {[ "English"%string := {[ "Japanese"%string := Num nan ]} ]}
            onlyVeryFar None
    /\ node1Code arc = "en"%string /\ node2Code arc = "ja"%string
    /\ category arc = Category.veryFar /\ is_nan (distance arc) = true.
Proof.
  destruct (LANGUAGE_LOCATIONS !! 3%nat) as [node1|] eqn:E1; [|discriminate].
  destruct (LANGUAGE_LOCATIONS !! 12%nat) as [node2|] eqn:E2; [|discriminate].
  destruct (nan_distance_is_veryFar
              stubTrig stubTrig stubAtan2 stubToString LANGUAGE_LOCATIONS
              {[ "English"%string := {[ "Japanese"%string := Num nan ]} ]}
              onlyVeryFar 3 12 node1 node2 "English" "Japanese" nan
              ltac:(lia) E1 E2
              ltac:(vm_compute in E1, E2; inversion E1; inversion E2; reflexivity)
              ltac:(vm_compute in E1; inversion E1; reflexivity)
              ltac:(discriminate)
              ltac:(vm_compute in E2; inversion E2; reflexivity)
              ltac:(discriminate)
              ltac:(vm_compute; reflexivity) eq_refl)
    as (_ & H & _).
  destruct (H eq_refl) as (arc & Hin & C1 & C2 & C & D).
  vm_compute in E1, E2. inversion E1; subst. inversion E2; subst.
  exists arc. auto.
Defined.

(** X2. A rate that is NaN is not treated as missing either: the word
    order summary classifies it as Mixed, and the rate card shows it. *)
Theorem nan_rate_is_mixed (languageName : string) (rates : HeadDirectionRates)
    (r : float) :
  lookup2 rates "VERBAL,NOMINAL,CORE_ARG" languageName = Some (Num r) ->
  is_nan r = true ->
  getWordOrderTendency languageName rates = tendencyMixed
  /\ rateOrNull rates "VERBAL,NOMINAL,CORE_ARG" languageName = JSNumber r.
Proof.
  intros E N. unfold getWordOrderTendency, rateOrNull.
  change verbObjKey with "VERBAL,NOMINAL,CORE_ARG"%string.
  rewrite (getRate_own _ _ _ _ E). cbv zeta. cbn [ToNumber].
  rewrite (FloatFacts.ltb_nan_r _ r N), (FloatFacts.ltb_nan_l r _ N).
  split; reflexivity.
Qed.

Lemma nan_rate_is_mixed_witness :
  getWordOrderTendency "Thai"
    {[ "VERBAL,NOMINAL,CORE_ARG"%string := {[ "Thai"%string := Num nan ]} ]}
  = tendencyMixed.
Proof.
  apply (nan_rate_is_mixed "Thai" _ nan).
  - vm_compute. reflexivity.
  - reflexivity.
Defined.

(** ** More on the arcs and the points of the globe *)

Lemma normalizeGeoDistance_bound (km : float) :
  is_nan (normalizeGeoDistance km) = true
  \/ (normalizeGeoDistance km <=? 1) = true.
Proof.
  unfold normalizeGeoDistance.
  destruct (is_nan (km / 20000)) eqn:N.
  - left. rewrite FloatMore.Math_min_nan, N. reflexivity.
  - right. apply (FloatMore.Math_min_bounds _ 1 N eq_refl).
Qed.

Lemma NoDup_codes_lookup (l : list LanguageLocation) (i j : nat)
    (x y : LanguageLocation) :
  NoDup (map code l) -> l !! i = Some x -> l !! j = Some y ->
  code x = code y -> i = j.
Proof.
  intros ND Hi Hj E.
  apply (NoDup_lookup (map code l) i j (code x) ND).
  - change (map code l) with (code <$> l). rewrite list_lookup_fmap, Hi. reflexivity.
  - change (map code l) with (code <$> l). rewrite list_lookup_fmap, Hj, E. reflexivity.
Qed.

Local Abbreviation pairCodes :=
  (fun p : LanguageLocation * LanguageLocation => (code p.1, code p.2)).

Local Abbreviation arcEnds :=
  (fun arc : ArcData => (node1Code arc, node2Code arc)).

Lemma NoDup_loopPairs_codes (l : list LanguageLocation) :
  NoDup (map code l) -> NoDup (map pairCodes (loopPairs l)).
Proof.
  induction l as [|x l IH]; cbn [loopPairs map]; intros ND; [constructor|].
  apply NoDup_cons in ND as [Hx ND].
  rewrite map_app. apply NoDup_app. split; [|split].
  - rewrite map_map. cbn.
    clear IH Hx. induction l as [|y l IH]; cbn [map]; [constructor|].
    apply NoDup_cons in ND as [Hy ND]. constructor; [|apply IH, ND].
    intros H. apply list_elem_of_In, in_map_iff in H as (z & E & Hz).
    inversion E as [E']. apply Hy. rewrite <- E'.
    apply list_elem_of_In, in_map. exact Hz.
  - intros e H1 H2.
    apply list_elem_of_In, in_map_iff in H1 as (p & E1 & H1).
    apply list_elem_of_In, in_map_iff in H2 as (q & E2 & H2).
    apply in_map_iff in H1 as (y & <- & _). cbn in E1. subst e.
    destruct q as [a b]. apply list_elem_of_In, loopPairs_elem_of in H2 as [Ha _].
    inversion E2 as [[Ea Eb]]. apply Hx. rewrite <- Ea.
    apply list_elem_of_In, in_map, list_elem_of_In, Ha.
  - apply IH, ND.
Qed.

Lemma NoDup_omap_key {A B C : Type} (f : A -> option B) (g : A -> C)
    (e : B -> C) (P : list A) :
  (forall p b, f p = Some b -> e b = g p) ->
  NoDup (map g P) -> NoDup (map e (omap f P)).
Proof.
  intros Hf. induction P as [|p P IH]; intros ND; [constructor|].
  cbn [map] in ND. apply NoDup_cons in ND as [Hp ND].
  change (omap f (p :: P))
    with (match f p with Some b => b :: omap f P | None => omap f P end).
  destruct (f p) as [b|] eqn:E; [|apply IH, ND].
  cbn [map]. constructor; [|apply IH, ND].
  intros H. apply Hp.
  apply list_elem_of_In, in_map_iff in H as (b' & E' & H).
  apply list_elem_of_In, list_elem_of_omap in H as (p' & Hp' & F').
  apply list_elem_of_In, in_map_iff. exists p'. split.
  - rewrite <- (Hf _ _ F'), <- (Hf _ _ E). exact E'.
  - apply list_elem_of_In, Hp'.
Qed.

Section GlobeMore.

Variables Math_sin Math_cos : float -> float.
Variable Math_atan2 : float -> float -> float.
Variable Number_toString : float -> string.
Variable allNodes : list LanguageLocation.

Local Abbreviation arcs := (arcsData Math_sin Math_cos Math_atan2 Number_toString allNodes).
Local Abbreviation sameArcs := (sameLanguageArcs Math_sin Math_cos Math_atan2 allNodes).
Local Abbreviation simArcs := (similarityArcs Math_sin Math_cos Math_atan2 Number_toString allNodes).
Local Abbreviation sameArc := (sameLanguageArc Math_sin Math_cos Math_atan2).
Local Abbreviation simArc := (similarityArc Math_sin Math_cos Math_atan2 Number_toString allNodes).

(** Every arc of the output comes from one pair of the nested loops. *)
Lemma arc_origin similarityData distanceFilter selectedNodeCode
    (arc : ArcData) :
  arc ∈ arcs similarityData distanceFilter selectedNodeCode ->
  exists node1 node2,
    (node1, node2) ∈ loopPairs allNodes
    /\ node1Code arc = code node1 /\ node2Code arc = code node2
    /\ lang1 arc = name node1 /\ lang2 arc = name node2
    /\ clickable arc = negb (sameLanguage node1 node2)
    /\ (sameArc node1 node2 = Some arc
        \/ simArc similarityData distanceFilter selectedNodeCode node1 node2
           = Some arc).
Proof.
  unfold arcsData. rewrite elem_of_app. intros [H|H].
  - apply elem_of_sameLanguageArcs in H as (n1 & n2 & Hp & E).
    pose proof (sameLanguageArc_inv _ _ _ _ _ _ E)
      as (S & _ & K & C1 & C2 & N1 & N2).
    exists n1, n2. rewrite S, K. repeat split; auto.
  - apply elem_of_similarityArcs in H as (n1 & n2 & Hp & E).
    pose proof (similarityArc_inv _ _ _ _ _ _ _ _ _ _ _ E)
      as (l1 & l2 & d & S & _ & _ & _ & _ & _ & _ & _ & _ & K & C1 & C2 & N1 & N2).
    exists n1, n2. rewrite S, K. repeat split; auto.
Qed.

Lemma arc_geoDistance similarityData distanceFilter selectedNodeCode
    (arc : ArcData) :
  arc ∈ arcs similarityData distanceFilter selectedNodeCode ->
  exists km, geoDistance arc = normalizeGeoDistance km.
Proof.
  intros H.
  apply arc_origin in H as (n1 & n2 & _ & _ & _ & _ & _ & _ & [E|E]).
  - unfold sameLanguageArc in E.
    destruct (sameLanguage n1 n2); [|discriminate].
    inversion E. eexists. reflexivity.
  - unfold similarityArc in E. cbv zeta in E.
    repeat case_match; try discriminate.
    inversion E. eexists. reflexivity.
Qed.

(** X3. The geographic distance an arc carries, from which its altitude
    is computed, never exceeds 1: it is a number up to 1, or NaN when the
    great-circle computation gives NaN. *)
Theorem arc_geoDistance_at_most_one similarityData distanceFilter
    selectedNodeCode (arc : ArcData) :
  arc ∈ arcs similarityData distanceFilter selectedNodeCode ->
  is_nan (geoDistance arc) = true \/ (geoDistance arc <=? 1) = true.
Proof.
  intros H. apply arc_geoDistance in H as (km & ->).
  apply normalizeGeoDistance_bound.
Qed.

(** X4. When no two nodes share a code, the output has at most one arc
    for a pair of nodes: no two arcs have the same two end codes, no arc
    joins a node to itself, and no pair is joined in both directions.
    The first end of an arc is the node that comes first in the table. *)
Theorem arcs_one_per_pair similarityData distanceFilter selectedNodeCode :
  NoDup (map code allNodes) ->
  NoDup (map arcEnds
             (arcsData Math_sin Math_cos Math_atan2 Number_toString allNodes
                       similarityData distanceFilter selectedNodeCode))
  /\ (forall arc,
        arc ∈ arcsData Math_sin Math_cos Math_atan2 Number_toString allNodes
                similarityData distanceFilter selectedNodeCode ->
        exists i j node1 node2,
          (i < j)%nat /\ allNodes !! i = Some node1 /\ allNodes !! j = Some node2
          /\ node1Code arc = code node1 /\ node2Code arc = code node2
          /\ node1Code arc <> node2Code arc)
  /\ (forall arc1 arc2,
        arc1 ∈ arcsData Math_sin Math_cos Math_atan2 Number_toString allNodes
                 similarityData distanceFilter selectedNodeCode ->
        arc2 ∈ arcsData Math_sin Math_cos Math_atan2 Number_toString allNodes
                 similarityData distanceFilter selectedNodeCode ->
        ~ (node1Code arc1 = node2Code arc2 /\ node2Code arc1 = node1Code arc2)).
Proof.
  intros ND.
  pose proof (NoDup_loopPairs_codes allNodes ND) as NDP.
  assert (Horigin : forall arc,
            arc ∈ arcs similarityData distanceFilter selectedNodeCode ->
            exists i j node1 node2,
              (i < j)%nat /\ allNodes !! i = Some node1
              /\ allNodes !! j = Some node2
              /\ node1Code arc = code node1 /\ node2Code arc = code node2).
  { intros arc H.
    apply arc_origin in H as (n1 & n2 & Hp & C1 & C2 & _).
    apply elem_of_loopPairs in Hp as (i & j & Hij & Hi & Hj).
    exists i, j, n1, n2. auto. }
  split; [|split].
  - unfold arcsData. rewrite map_app. apply NoDup_app. split; [|split].
    + apply (NoDup_omap_key _ pairCodes arcEnds); [|exact NDP].
      intros [n1 n2] arc E. cbn [fst snd] in *.
      apply sameLanguageArc_inv in E as (_ & _ & _ & C1 & C2 & _).
      rewrite C1, C2. reflexivity.
    + intros e H1 H2.
      apply list_elem_of_In, in_map_iff in H1 as (arc1 & E1 & H1).
      apply list_elem_of_In, in_map_iff in H2 as (arc2 & E2 & H2).
      apply list_elem_of_In, elem_of_sameLanguageArcs in H1 as (a & b & Hab & Ea).
      apply list_elem_of_In, elem_of_similarityArcs in H2 as (c & d & Hcd & Ec).
      apply sameLanguageArc_inv in Ea as (S1 & _ & _ & A1 & A2 & _).
      apply similarityArc_inv in Ec
        as (l1 & l2 & x & S2 & _ & _ & _ & _ & _ & _ & _ & _ & _ & B1 & B2 & _).
      subst e. inversion E2 as [[F1 F2]].
      rewrite A1, B1 in F1. rewrite A2, B2 in F2.
      destruct (loopPairs_elem_of _ _ _ Hab) as [Ha Hb].
      destruct (loopPairs_elem_of _ _ _ Hcd) as [Hc Hd].
      assert (c = a) by (eapply (NoDup_fmap_inj code); eauto).
      assert (d = b) by (eapply (NoDup_fmap_inj code); eauto).
      subst. congruence.
    + apply (NoDup_omap_key _ pairCodes arcEnds); [|exact NDP].
      intros [n1 n2] arc E. cbn [fst snd] in *.
      apply similarityArc_inv in E
        as (l1 & l2 & x & _ & _ & _ & _ & _ & _ & _ & _ & _ & _ & C1 & C2 & _).
      rewrite C1, C2. reflexivity.
  - intros arc H.
    destruct (Horigin arc H) as (i & j & n1 & n2 & Hij & Hi & Hj & C1 & C2).
    exists i, j, n1, n2. repeat split; auto.
    rewrite C1, C2. intros E.
    pose proof (NoDup_codes_lookup allNodes i j n1 n2 ND Hi Hj E). lia.
  - intros arc1 arc2 H1 H2 [E1 E2].
    destruct (Horigin arc1 H1) as (i & j & a & b & Hij & Hi & Hj & A1 & A2).
    destruct (Horigin arc2 H2) as (k & l & c & d & Hkl & Hk & Hl & B1 & B2).
    rewrite A1, B2 in E1. rewrite A2, B1 in E2.
    pose proof (NoDup_codes_lookup allNodes i l a d ND Hi Hl E1).
    pose proof (NoDup_codes_lookup allNodes j k b c ND Hj Hk E2). lia.
Qed.

Hypothesis invariant : nodeInvariant allNodes = true.
Hypothesis nonEmpty : codesNonEmpty allNodes = true.

(** Two nodes with different codes that are not of the same language
    have different primary codes and different names. *)
Lemma distinct_languages (node1 node2 : LanguageLocation) :
  node1 ∈ allNodes -> node2 ∈ allNodes ->
  code node1 <> code node2 ->
  sameLanguage node1 node2 = false ->
  primaryOf node1 <> primaryOf node2 /\ name node1 <> name node2.
Proof.
  intros H1 H2 Hc S.
  assert (P : primaryOf node1 <> primaryOf node2).
  { intros E. apply not_true_iff_false in S. apply S.
    destruct (codesNonEmpty_node allNodes node1 nonEmpty H1) as [_ T1].
    apply sameLanguage_complete; [exact T1|].
    unfold primaryOf in E. unfold sameLanguageNodes.
    destruct (invariant_node allNodes invariant node1 H1)
      as [(_ & Q1)|(_ & p1 & q1 & Q1 & _)];
    destruct (invariant_node allNodes invariant node2 H2)
      as [(_ & Q2)|(_ & p2 & q2 & Q2 & _)];
    rewrite Q1, Q2 in E |- *.
    - contradiction.
    - right. left. congruence.
    - left. congruence.
    - right. right. exists p1. split; congruence. }
  split; [exact P|]. intros E. apply P.
  destruct (invariant_getLanguageByName allNodes invariant node1 H1)
    as (q1 & G1 & _ & _ & _ & Q1).
  destruct (invariant_getLanguageByName allNodes invariant node2 H2)
    as (q2 & G2 & _ & _ & _ & Q2).
  rewrite E in G1. congruence.
Qed.

(** X5. On a table that satisfies its invariant and has non-empty
    codes, a click on an arc of the output never opens the comparison of
    a language with itself: a "same" arc does not navigate, and the path
    of any other arc names two different primary codes. *)
Theorem arc_click_never_self_comparison similarityData distanceFilter
    selectedNodeCode (arc : ArcData) :
  arc ∈ arcs similarityData distanceFilter selectedNodeCode ->
  (category arc = Category.same /\ handleArcClick allNodes arc = None)
  \/ (category arc <> Category.same
      /\ exists code1 code2,
           handleArcClick allNodes arc
           = Some ("/compare/" ++ code1 ++ "/" ++ code2)%string
           /\ code1 <> code2
           /\ lang1 arc <> lang2 arc).
Proof.
  intros Harc.
  destruct (arcsData_kinds _ _ _ _ _ _ _ _ _ Harc)
    as [(_ & C & K)|(H & C & K)].
  - left. split; [exact C|]. unfold handleArcClick. rewrite K. reflexivity.
  - right. split; [exact C|].
    apply elem_of_similarityArcs in H as (n1 & n2 & Hp & E).
    apply similarityArc_inv in E
      as (l1 & l2 & d & S & _ & _ & _ & _ & _ & _ & _ & _ & _ & C1 & C2 & N1 & N2).
    destruct (loopPairs_elem_of _ _ _ Hp) as [H1 H2].
    apply elem_of_loopPairs in Hp as (i & j & Hij & Hi & Hj).
    assert (Hc : code n1 <> code n2).
    { intros Ec.
      pose proof (NoDup_codes_lookup allNodes i j n1 n2
                    (invariant_codes allNodes invariant) Hi Hj Ec). lia. }
    destruct (distinct_languages n1 n2 H1 H2 Hc S) as [P Nn].
    destruct (invariant_getLanguageByName allNodes invariant n1 H1)
      as (q1 & G1 & _ & _ & _ & Q1).
    destruct (invariant_getLanguageByName allNodes invariant n2 H2)
      as (q2 & G2 & _ & _ & _ & Q2).
    exists (primaryOf n1), (primaryOf n2).
    unfold handleArcClick. rewrite K, N1, N2, G1, G2, Q1, Q2. cbn [negb].
    repeat split; auto.
Qed.

End GlobeMore.

(** The colour and the radius of a point tell whether its code is the
    selected one. *)
Lemma pointsData_colour (allNodes : list LanguageLocation)
    (selectedNodeCode : option string) (point : PointData) :
  point ∈ pointsData allNodes selectedNodeCode ->
  (pt_color point = "#22c55e"%string
   <-> selectedNodeCode = Some (pt_code point))
  /\ (pointRadius selectedNodeCode point = 0.7
      <-> selectedNodeCode = Some (pt_code point)).
Proof.
  intros H. unfold pointsData in H.
  apply list_elem_of_In, in_map_iff in H as (node & <- & _).
  unfold pointRadius. cbn [pt_color pt_code pt_size].
  destruct (strictEq selectedNodeCode (Some (code node))) eqn:E.
  - apply strictEq_true in E.
    assert (E' : strictEq (Some (code node)) selectedNodeCode = true)
      by (apply strictEq_true; congruence).
    rewrite E'. tauto.
  - apply strictEq_false in E.
    assert (E' : strictEq (Some (code node)) selectedNodeCode = false)
      by (apply strictEq_false; congruence).
    rewrite E'. split; split; intros H; try contradiction.
    + destruct (isPrimary node); discriminate.
    + destruct (isPrimary node);
        apply (f_equal Prim2SF) in H; vm_compute in H; discriminate.
Qed.

(** X6. The layer of points has one point per node, in the order of the
    table.  A point is drawn in the highlight colour, and with the
    enlarged radius, exactly when its code is the selected one; when no
    two nodes share a code, at most one point is highlighted. *)
Theorem pointsData_highlight (allNodes : list LanguageLocation)
    (selectedNodeCode : option string) :
  map pt_code (pointsData allNodes selectedNodeCode) = map code allNodes
  /\ (forall point,
        point ∈ pointsData allNodes selectedNodeCode ->
        (pt_color point = "#22c55e"%string
         <-> selectedNodeCode = Some (pt_code point))
        /\ (pointRadius selectedNodeCode point = 0.7
            <-> selectedNodeCode = Some (pt_code point)))
  /\ (NoDup (map code allNodes) ->
      forall i j point1 point2,
        pointsData allNodes selectedNodeCode !! i = Some point1 ->
        pointsData allNodes selectedNodeCode !! j = Some point2 ->
        pt_color point1 = "#22c55e"%string ->
        pt_color point2 = "#22c55e"%string ->
        i = j).
Proof.
  assert (Hcodes : map pt_code (pointsData allNodes selectedNodeCode)
                   = map code allNodes).
  { unfold pointsData. rewrite map_map. reflexivity. }
  split; [exact Hcodes|]. split; [apply pointsData_colour|].
  intros ND i j p1 p2 Hi Hj G1 G2.
  rewrite <- Hcodes in ND.
  apply (NoDup_lookup _ i j (pt_code p1) ND).
  - change (map pt_code ?l) with (pt_code <$> l).
    rewrite list_lookup_fmap, Hi. reflexivity.
  - change (map pt_code ?l) with (pt_code <$> l).
    rewrite list_lookup_fmap, Hj. cbn. f_equal.
    apply (pointsData_colour allNodes selectedNodeCode p1) in G1;
      [|eapply list_elem_of_lookup_2, Hi].
    apply (pointsData_colour allNodes selectedNodeCode p2) in G2;
      [|eapply list_elem_of_lookup_2, Hj].
    congruence.
Qed.

(** *** On the table of the application *)

Lemma arc_geoDistance_at_most_one_witness :
  exists arc,
    arcsData stubTrig stubTrig stubAtan2 stubToString workedNodes
             workedMatrix onlyVeryFar None !! 0%nat = Some arc
    /\ (is_nan (geoDistance arc) = true \/ (geoDistance arc <=? 1) = true).
Proof.
  destruct (arcsData stubTrig stubTrig stubAtan2 stubToString workedNodes
                     workedMatrix onlyVeryFar None !! 0%nat)
    as [arc|] eqn:E; [|vm_compute in E; discriminate].
  exists arc. split; [reflexivity|].
  apply (arc_geoDistance_at_most_one
           stubTrig stubTrig stubAtan2 stubToString workedNodes
           workedMatrix onlyVeryFar None arc).
  eapply list_elem_of_lookup_2. exact E.
Defined.

Lemma arcs_one_per_pair_witness :
  NoDup (map code LANGUAGE_LOCATIONS)
  /\ NoDup (map arcEnds
              (arcsData stubTrig stubTrig stubAtan2 stubToString
                        LANGUAGE_LOCATIONS reverseOnlyMatrix allFilters None)).
Proof.
  pose proof (invariant_codes LANGUAGE_LOCATIONS LANGUAGE_LOCATIONS_invariant)
    as ND.
  split; [exact ND|].
  apply (arcs_one_per_pair stubTrig stubTrig stubAtan2 stubToString
           LANGUAGE_LOCATIONS reverseOnlyMatrix allFilters None ND).
Defined.

Lemma arc_click_never_self_comparison_witness :
  exists arc,
    arcsData stubTrig stubTrig stubAtan2 stubToString LANGUAGE_LOCATIONS
             reverseOnlyMatrix allFilters None !! 10%nat = Some arc
    /\ ((category arc = Category.same
         /\ handleArcClick LANGUAGE_LOCATIONS arc = None)
        \/ (category arc <> Category.same
            /\ exists code1 code2,
                 handleArcClick LANGUAGE_LOCATIONS arc
                 = Some ("/compare/" ++ code1 ++ "/" ++ code2)%string
                 /\ code1 <> code2
                 /\ lang1 arc <> lang2 arc)).
Proof.
  destruct (arcsData stubTrig stubTrig stubAtan2 stubToString
                     LANGUAGE_LOCATIONS reverseOnlyMatrix allFilters None
              !! 10%nat) as [arc|] eqn:E; [|vm_compute in E; discriminate].
  exists arc. split; [reflexivity|].
  apply (arc_click_never_self_comparison
           stubTrig stubTrig stubAtan2 stubToString LANGUAGE_LOCATIONS
           LANGUAGE_LOCATIONS_invariant LANGUAGE_LOCATIONS_codesNonEmpty
           reverseOnlyMatrix allFilters None arc).
  eapply list_elem_of_lookup_2. exact E.
Defined.

Lemma pointsData_highlight_witness :
  exists point,
    pointsData LANGUAGE_LOCATIONS (Some "ja"%string) !! 12%nat = Some point
    /\ pt_color point = "#22c55e"%string
    /\ forall j point2,
         pointsData LANGUAGE_LOCATIONS (Some "ja"%string) !! j = Some point2 ->
         pt_color point2 = "#22c55e"%string -> 12%nat = j.
Proof.
  destruct (pointsData LANGUAGE_LOCATIONS (Some "ja"%string) !! 12%nat)
    as [point|] eqn:E; [|vm_compute in E; discriminate].
  assert (G : pt_color point = "#22c55e"%string).
  { vm_compute in E. inversion E. reflexivity. }
  exists point. split; [reflexivity|]. split; [exact G|].
  intros j point2 Hj G2.
  destruct (pointsData_highlight LANGUAGE_LOCATIONS (Some "ja"%string))
    as (_ & _ & H).
  apply (H (invariant_codes LANGUAGE_LOCATIONS LANGUAGE_LOCATIONS_invariant)
           12%nat j point point2 E Hj G G2).
Defined.

(** ** More on the page *)

(** X7. A click on a point toggles its highlight and nothing else: if
    the clicked point was not highlighted, afterwards exactly the points
    with its code are; if it was, afterwards no point is.  The popup and
    the filter are as before, and the click does not navigate. *)
Theorem point_click_toggles_highlight (allNodes : list LanguageLocation)
    (st : GlobePageState) (point : PointData) :
  point ∈ pointsData allNodes (selectedNodeCode st) ->
  (forall point',
      point' ∈ pointsData allNodes
                 (selectedNodeCode (fst (step allNodes st (PointClick point)))) ->
      pt_color point' = "#22c55e"%string
      <-> pt_code point' = pt_code point
          /\ pt_color point <> "#22c55e"%string)
  /\ popupLanguage (fst (step allNodes st (PointClick point))) = popupLanguage st
  /\ distanceFilter (fst (step allNodes st (PointClick point)))
     = distanceFilter st
  /\ snd (step allNodes st (PointClick point)) = None.
Proof.
  intros Hp.
  pose proof (pointsData_colour allNodes _ point Hp) as [G _].
  cbn [step handlePointClick fst snd].
  destruct (selection_transitions st (pt_code point)) as [S _].
  split; [|unfold handleLanguageClick;
           destruct (strictEq _ _); repeat split; reflexivity].
  intros point' Hp'.
  pose proof (pointsData_colour allNodes _ point' Hp') as [G' _].
  rewrite S in G'. rewrite G'.
  destruct (strictEq (selectedNodeCode st) (Some (pt_code point))) eqn:E.
  - apply strictEq_true in E. apply G in E.
    split; [discriminate|]. intros [_ H]. contradiction.
  - apply strictEq_false in E.
    split.
    + intros H. inversion H as [H']. split; [reflexivity|].
      rewrite G. exact E.
    + intros [H _]. rewrite H. reflexivity.
Qed.

Lemma point_click_toggles_highlight_witness :
  exists point,
    pointsData LANGUAGE_LOCATIONS None !! 12%nat = Some point
    /\ snd (step LANGUAGE_LOCATIONS initialState (PointClick point)) = None
    /\ selectedNodeCode
         (fst (step LANGUAGE_LOCATIONS initialState (PointClick point)))
       = Some "ja"%string.
Proof.
  destruct (pointsData LANGUAGE_LOCATIONS None !! 12%nat)
    as [point|] eqn:E; [|vm_compute in E; discriminate].
  exists point. split; [reflexivity|].
  destruct (point_click_toggles_highlight LANGUAGE_LOCATIONS initialState point)
    as (_ & _ & _ & H).
  - eapply list_elem_of_lookup_2. exact E.
  - split; [exact H|].
    vm_compute in E. inversion E. reflexivity.
Defined.

(** X8. Each check box of the legend toggles exactly its own bucket of
    the filter: the other buckets, the selection and the popup are as
    before, nothing navigates, and a second click on the same box
    restores the state. *)
Theorem legend_checkbox_toggles_bucket (allNodes : list LanguageLocation)
    (st : GlobePageState) (key : Category.t) (colour : string) :
  (key, colour) ∈ legend ->
  (forall c,
      filter_get (distanceFilter (fst (step allNodes st (FilterChange key)))) c
      = if decide (c = key) then negb (filter_get (distanceFilter st) c)
        else filter_get (distanceFilter st) c)
  /\ selectedNodeCode (fst (step allNodes st (FilterChange key)))
     = selectedNodeCode st
  /\ popupLanguage (fst (step allNodes st (FilterChange key)))
     = popupLanguage st
  /\ snd (step allNodes st (FilterChange key)) = None
  /\ fst (step allNodes (fst (step allNodes st (FilterChange key)))
               (FilterChange key)) = st.
Proof.
  intros H. unfold legend in H.
  repeat (apply elem_of_cons in H as [H|H]; [inversion H; subst; clear H|]);
    try (apply elem_of_nil in H; contradiction);
    (split; [intros c; destruct c; reflexivity|]);
    (split; [reflexivity|]); (split; [reflexivity|]); (split; [reflexivity|]);
    destruct st as [s p [f1 f2 f3 f4 f5 f6]];
    cbn [step fst]; unfold handleFilterChange, toggleFilter;
    cbn [distanceFilter selectedNodeCode popupLanguage veryClose close
         slightlyClose slightlyFar far veryFar];
    rewrite negb_involutive; reflexivity.
Qed.

Lemma legend_checkbox_toggles_bucket_witness :
  distanceFilter
    (fst (step LANGUAGE_LOCATIONS initialState (FilterChange Category.far)))
  = {| veryClose := true; close := true; slightlyClose := true;
       slightlyFar := false; far := true; veryFar := false |}
  /\ fst (step LANGUAGE_LOCATIONS
               (fst (step LANGUAGE_LOCATIONS initialState
                          (FilterChange Category.far)))
               (FilterChange Category.far)) = initialState.
Proof.
  destruct (legend_checkbox_toggles_bucket LANGUAGE_LOCATIONS initialState
              Category.far "#f97316")
    as (_ & _ & _ & _ & H).
  - apply list_elem_of_In. do 4 right. left. reflexivity.
  - split; [reflexivity|exact H].
Defined.

Section FilterAndSelection.

Variables Math_sin Math_cos : float -> float.
Variable Math_atan2 : float -> float -> float.
Variable Number_toString : float -> string.
Variable allNodes : list LanguageLocation.

(** X9. While a node is selected, the filter has no effect on what the
    globe draws: the arcs are the same for any two filters.  (The legend
    with the check boxes is hidden in that case.) *)
Theorem selection_overrides_filter similarityData
    (filter1 filter2 : DistanceFilter) (selectedNodeCode : option string) :
  truthy_opt selectedNodeCode = true ->
  arcsData Math_sin Math_cos Math_atan2 Number_toString allNodes
           similarityData filter1 selectedNodeCode
  = arcsData Math_sin Math_cos Math_atan2 Number_toString allNodes
             similarityData filter2 selectedNodeCode.
Proof.
  intros T. unfold arcsData, similarityArcs. f_equal.
  apply list_omap_ext, Forall_Forall2_diag, Forall_forall.
  intros [n1 n2] _. cbn [fst snd].
  unfold similarityArc. cbv zeta. rewrite T. cbn [negb andb]. reflexivity.
Qed.

End FilterAndSelection.

Lemma selection_overrides_filter_witness :
  arcsData stubTrig stubTrig stubAtan2 stubToString LANGUAGE_LOCATIONS
           reverseOnlyMatrix noFilters (Some "ja"%string)
  = arcsData stubTrig stubTrig stubAtan2 stubToString LANGUAGE_LOCATIONS
             reverseOnlyMatrix allFilters (Some "ja"%string).
Proof.
  apply (selection_overrides_filter stubTrig stubTrig stubAtan2 stubToString
           LANGUAGE_LOCATIONS reverseOnlyMatrix noFilters allFilters
           (Some "ja"%string)).
  reflexivity.
Defined.

(** The popup language of a reachable state, if any, is the name of a
    node of the table. *)
Lemma reachable_popup (allNodes : list LanguageLocation)
    (st : GlobePageState) :
  reachable allNodes st ->
  popupLanguage st = None
  \/ exists node, node ∈ allNodes /\ popupLanguage st = Some (name node).
Proof.
  induction 1 as [|st ev Hr IH Hp]; [left; reflexivity|].
  destruct ev; cbn [step fst handlePointClick].
  - unfold handleLanguageClick. destruct (strictEq _ _); exact IH.
  - exact IH.
  - unfold handleShowPopup.
    destruct (selectedNodeCode st) as [c|]; [|exact IH].
    destruct (truthy c); [|exact IH].
    destruct (getLanguageByCode allNodes c) as [node|] eqn:E; [|exact IH].
    apply getLanguageByCode_Some in E as [Hn _].
    right. exists node. split; [exact Hn|reflexivity].
  - left. reflexivity.
  - exact IH.
  - exact IH.
Qed.

(** X10. On a table that satisfies its invariant, the popup never comes
    up empty: in every state the page can be in, the language of the
    popup is the name of a node of the table, and the popup component
    finds its primary node and renders. *)
Theorem popup_always_renders (allNodes : list LanguageLocation)
    (st : GlobePageState) (languageName : string) :
  nodeInvariant allNodes = true ->
  reachable allNodes st ->
  popupLanguage st = Some languageName ->
  popupRenders allNodes languageName = true
  /\ exists node primary,
       node ∈ allNodes /\ name node = languageName
       /\ getLanguageByName allNodes languageName = Some primary
       /\ isPrimary primary = true /\ code primary = primaryOf node.
Proof.
  intros Inv Hr E.
  destruct (reachable_popup allNodes st Hr) as [N|(node & Hn & N)];
    [congruence|].
  assert (name node = languageName) as <- by congruence.
  destruct (invariant_getLanguageByName allNodes Inv node Hn)
    as (q & G & _ & P & _ & Q).
  split.
  - unfold popupRenders. rewrite G. reflexivity.
  - exists node, q. auto.
Qed.

(** After a click on the point of the secondary node [en-us] and on the
    button for the details, the popup shows English. *)
Lemma popup_always_renders_witness :
  exists point,
    pointsData LANGUAGE_LOCATIONS None !! 33%nat = Some point
    /\ popupLanguage
         (fst (step LANGUAGE_LOCATIONS
                    (fst (step LANGUAGE_LOCATIONS initialState (PointClick point)))
                    ShowPopup))
       = Some "English"%string
    /\ popupRenders LANGUAGE_LOCATIONS "English" = true.
Proof.
  destruct (pointsData LANGUAGE_LOCATIONS None !! 33%nat)
    as [point|] eqn:E; [|vm_compute in E; discriminate].
  exists point. split; [reflexivity|].
  assert (P : popupLanguage
                (fst (step LANGUAGE_LOCATIONS
                           (fst (step LANGUAGE_LOCATIONS initialState
                                      (PointClick point)))
                           ShowPopup))
              = Some "English"%string).
  { vm_compute in E. inversion E. vm_compute. reflexivity. }
  split; [exact P|].
  apply (popup_always_renders LANGUAGE_LOCATIONS
           (fst (step LANGUAGE_LOCATIONS
                      (fst (step LANGUAGE_LOCATIONS initialState
                                 (PointClick point)))
                      ShowPopup))
           "English" LANGUAGE_LOCATIONS_invariant).
  - apply reachable_step.
    + apply reachable_step; [apply reachable_initial|].
      intros point' H. inversion H. subst.
      eapply list_elem_of_lookup_2. exact E.
    + intros point' H. discriminate.
  - exact P.
Defined.
(** ** The word-order summary of the popup *)

(** No node of the table of the application has a name that
    [Object.prototype] defines. *)
Lemma LANGUAGE_LOCATIONS_names :
  Forall (fun node => name node ∉ objectPrototypeNames) LANGUAGE_LOCATIONS.
Proof.
  apply Forall_forall. intros node H.
  apply objectPrototypeNames_not_elem.
  assert (F : forallb (fun node =>
                         negb (existsb (String.eqb (name node))
                                       objectPrototypeNames))
                      LANGUAGE_LOCATIONS = true) by (vm_compute; reflexivity).
  rewrite forallb_forall in F. apply negb_true_iff, F, list_elem_of_In, H.
Qed.

(** C9. The summary reads the rate of the language under the key
    ["VERBAL,NOMINAL,CORE_ARG"].  It is Unknown exactly when the value
    read is [undefined] or [null].  For a language name that is not a
    property name of [Object.prototype], the value read is [undefined]
    exactly when the key or the language is absent from the table, so
    the summary is Unknown exactly when the key or the language is
    absent or the cell is [null].  For a rate [r] that is a number, it is
    Head-Initial iff [r > 0.7], Head-Final iff [r < 0.3], and Mixed iff
    [0.3 <= r <= 0.7].  The names the popup is opened with are not
    property names of [Object.prototype]: in every state the page can be
    in, the language of the popup is the name of a node of the table,
    and no node has such a name. *)
Theorem getWordOrderTendency_classification
    (languageName : string) (rates : HeadDirectionRates) :
  (getWordOrderTendency languageName rates = tendencyUnknown
   <-> getRate rates "VERBAL,NOMINAL,CORE_ARG" languageName = JSUndefined
       \/ getRate rates "VERBAL,NOMINAL,CORE_ARG" languageName = JSNull)
  /\ (languageName ∉ objectPrototypeNames ->
      (getRate rates "VERBAL,NOMINAL,CORE_ARG" languageName = JSUndefined
       <-> rates !! "VERBAL,NOMINAL,CORE_ARG"%string = None
           \/ exists row, rates !! "VERBAL,NOMINAL,CORE_ARG"%string = Some row
                          /\ row !! languageName = None)
      /\ (getRate rates "VERBAL,NOMINAL,CORE_ARG" languageName = JSNull
          <-> exists row, rates !! "VERBAL,NOMINAL,CORE_ARG"%string = Some row
                          /\ row !! languageName = Some Null)
      /\ (getWordOrderTendency languageName rates = tendencyUnknown
          <-> lookup2 rates "VERBAL,NOMINAL,CORE_ARG" languageName = None
              \/ lookup2 rates "VERBAL,NOMINAL,CORE_ARG" languageName
                 = Some Null))
  /\ (forall r,
        lookup2 rates "VERBAL,NOMINAL,CORE_ARG" languageName = Some (Num r) ->
        is_nan r = false ->
        (getWordOrderTendency languageName rates = tendencyHeadInitial
         <-> (0.7 <? r) = true)
        /\ (getWordOrderTendency languageName rates = tendencyHeadFinal
            <-> (r <? 0.3) = true)
        /\ (getWordOrderTendency languageName rates = tendencyMixed
            <-> (0.3 <=? r) = true /\ (r <=? 0.7) = true))
  /\ (Forall (fun node => name node ∉ objectPrototypeNames) LANGUAGE_LOCATIONS
      /\ forall st popup,
           reachable LANGUAGE_LOCATIONS st ->
           popupLanguage st = Some popup ->
           popup ∉ objectPrototypeNames).
Proof.
  pose proof tendencies_distinct as (D1 & D2 & D3 & D4 & D5 & D6).
  assert (U : getWordOrderTendency languageName rates = tendencyUnknown
              <-> getRate rates "VERBAL,NOMINAL,CORE_ARG" languageName
                  = JSUndefined
                  \/ getRate rates "VERBAL,NOMINAL,CORE_ARG" languageName
                     = JSNull).
  { unfold getWordOrderTendency.
    change verbObjKey with "VERBAL,NOMINAL,CORE_ARG"%string. cbv zeta.
    destruct (getRate rates "VERBAL,NOMINAL,CORE_ARG" languageName) as [| |x|];
      cbn [ToNumber].
    - split; auto.
    - split; auto.
    - split; [|intros [H|H]; discriminate].
      intros H. exfalso.
      destruct (0.7 <? x); [congruence|]. destruct (x <? 0.3); congruence.
    - split; [|intros [H|H]; discriminate].
      intros H. exfalso.
      destruct (0.7 <? nan); [congruence|]. destruct (nan <? 0.3); congruence. }
  split; [exact U|]. split; [|split; [|split]].
  - intros N.
    pose proof (getRate_undefined rates "VERBAL,NOMINAL,CORE_ARG"
                  languageName N) as Hu.
    pose proof (getRate_null rates "VERBAL,NOMINAL,CORE_ARG" languageName) as Hn.
    split; [|split].
    + rewrite Hu. unfold lookup2.
      destruct (rates !! "VERBAL,NOMINAL,CORE_ARG"%string) as [row|] eqn:E;
        cbn [mbind option_bind].
      * split; [intros H; right; exists row; auto|].
        intros [H|(row' & H1 & H2)]; [discriminate|congruence].
      * split; auto.
    + rewrite Hn. unfold lookup2.
      destruct (rates !! "VERBAL,NOMINAL,CORE_ARG"%string) as [row|] eqn:E;
        cbn [mbind option_bind].
      * split; [intros H; exists row; auto|].
        intros (row' & H1 & H2). congruence.
      * split; [discriminate|]. intros (row' & H1 & _). discriminate.
    + rewrite U, Hu, Hn. reflexivity.
  - intros r E Hr. unfold getWordOrderTendency.
    change verbObjKey with "VERBAL,NOMINAL,CORE_ARG"%string.
    rewrite (getRate_own _ _ _ _ E). cbv zeta. cbn [ToNumber].
    assert (H7 : is_nan 0.7 = false) by reflexivity.
    assert (H3 : is_nan 0.3 = false) by reflexivity.
    rewrite (FloatFacts.ltb_negb_leb 0.7 r H7 Hr).
    rewrite (FloatFacts.ltb_negb_leb r 0.3 Hr H3).
    pose proof (rate_not_both r) as NB.
    rewrite (FloatFacts.ltb_negb_leb 0.7 r H7 Hr) in NB.
    rewrite (FloatFacts.ltb_negb_leb r 0.3 Hr H3) in NB.
    destruct (r <=? 0.7), (0.3 <=? r); cbn [negb] in *;
      repeat split; intros; try congruence; try tauto;
      try (exfalso; intuition congruence).
  - exact LANGUAGE_LOCATIONS_names.
  - intros st popup Hr E.
    destruct (reachable_popup LANGUAGE_LOCATIONS st Hr) as [N|(node & Hn & N)];
      [congruence|].
    assert (popup = name node) as -> by congruence.
    pose proof LANGUAGE_LOCATIONS_names as F.
    rewrite Forall_forall in F. apply F, Hn.
Qed.

(** The hypotheses of [getWordOrderTendency_classification] hold for a
    table that gives Japanese the rate 0.02, which is Head-Final; and a
    language that the table does not have is Unknown. *)
Lemma getWordOrderTendency_classification_witness :
  let rates : HeadDirectionRates :=
    {[ "VERBAL,NOMINAL,CORE_ARG"%string :=
         {[ "Japanese"%string := Num 0.02; "English"%string := Num 0.95 ]} ]} in
  lookup2 rates "VERBAL,NOMINAL,CORE_ARG" "Japanese" = Some (Num 0.02)
  /\ is_nan 0.02 = false
  /\ (0.02 <? 0.3) = true
  /\ getWordOrderTendency "Japanese" rates = tendencyHeadFinal
  /\ ("Thai"%string ∉ objectPrototypeNames)
  /\ lookup2 rates "VERBAL,NOMINAL,CORE_ARG" "Thai" = None
  /\ getWordOrderTendency "Thai" rates = tendencyUnknown.
Proof.
  intros rates.
  assert (L : lookup2 rates "VERBAL,NOMINAL,CORE_ARG" "Japanese"
              = Some (Num 0.02)) by (vm_compute; reflexivity).
  assert (T : "Thai"%string ∉ objectPrototypeNames)
    by (apply objectPrototypeNames_not_elem; reflexivity).
  assert (A : lookup2 rates "VERBAL,NOMINAL,CORE_ARG" "Thai" = None)
    by (vm_compute; reflexivity).
  split; [exact L|]. split; [reflexivity|]. split; [reflexivity|].
  split; [|split; [exact T|split; [exact A|]]].
  - destruct (getWordOrderTendency_classification "Japanese" rates)
      as (_ & _ & H & _).
    destruct (H 0.02 L eq_refl) as (_ & H2 & _).
    apply H2. reflexivity.
  - destruct (getWordOrderTendency_classification "Thai" rates)
      as (_ & H & _).
    destruct (H T) as (_ & _ & H3). apply H3. left. exact A.
Defined.

(** X26. A language name that [Object.prototype] defines (such as
    ["constructor"] or ["toString"]) and that the row of the key does
    not have as an own cell reads as the inherited property, not as
    [undefined]: the summary is then Mixed, not Unknown, and the first
    rate card carries the inherited property instead of being empty.  No
    node of the table has such a name. *)
Theorem getWordOrderTendency_inherited_name (languageName : string)
    (rates : HeadDirectionRates) (row : gmap string cell) :
  languageName ∈ objectPrototypeNames ->
  rates !! "VERBAL,NOMINAL,CORE_ARG"%string = Some row ->
  row !! languageName = None ->
  lookup2 rates "VERBAL,NOMINAL,CORE_ARG" languageName = None
  /\ getRate rates "VERBAL,NOMINAL,CORE_ARG" languageName = JSObject
  /\ getWordOrderTendency languageName rates = tendencyMixed
  /\ rateOrNull rates "VERBAL,NOMINAL,CORE_ARG" languageName = JSObject.
Proof.
  intros N R A. apply objectPrototypeNames_elem in N.
  assert (G : getRate rates "VERBAL,NOMINAL,CORE_ARG" languageName = JSObject).
  { unfold getRate, getProperty. rewrite R, A, N. reflexivity. }
  split; [unfold lookup2; rewrite R; exact A|].
  split; [exact G|]. split.
  - unfold getWordOrderTendency.
    change verbObjKey with "VERBAL,NOMINAL,CORE_ARG"%string.
    rewrite G. reflexivity.
  - unfold rateOrNull. rewrite G. reflexivity.
Qed.

Lemma getWordOrderTendency_inherited_name_witness :
  getWordOrderTendency "constructor"
    {[ "VERBAL,NOMINAL,CORE_ARG"%string := {[ "Japanese"%string := Num 0.02 ]} ]}
  = tendencyMixed.
Proof.
  apply (getWordOrderTendency_inherited_name "constructor" _
           {[ "Japanese"%string := Num 0.02 ]}).
  - apply objectPrototypeNames_elem. reflexivity.
  - vm_compute. reflexivity.
  - vm_compute. reflexivity.
Defined.

(** ** More on the ranking panel *)

(** X11. The colour of an entry of the ranking is the colour the legend
    of the page shows for the bucket of its distance, for every distance
    (NaN included, which both put in the last bucket). *)
Theorem panel_colour_matches_legend (d : float) :
  (getDistanceCategory d, LanguageSimilarityPanel.getDistanceColor d) ∈ legend.
Proof.
  unfold getDistanceCategory, LanguageSimilarityPanel.getDistanceColor, legend.
  apply list_elem_of_In.
  destruct (d <? 0.05); [cbn; tauto|].
  destruct (d <? 0.1); [cbn; tauto|].
  destruct (d <? 0.3); [cbn; tauto|].
  destruct (d <? 0.5); [cbn; tauto|].
  destruct (d <? 0.7); cbn; tauto.
Qed.

(** X12. The width of the bar of an entry is a percentage: it is NaN
    only when the distance of the entry is NaN, and otherwise lies
    between 0 and 100, whatever the distance (negative, above 1 or
    infinite). *)
Theorem barWidth_is_percentage (item : SimilarityItem) :
  is_nan (LanguageSimilarityPanel.barWidth item) = is_nan (item_distance item)
  /\ (if is_nan (item_distance item) then True
      else (0 <=? LanguageSimilarityPanel.barWidth item) = true
           /\ (LanguageSimilarityPanel.barWidth item <=? 100) = true).
Proof.
  unfold LanguageSimilarityPanel.barWidth.
  assert (N : is_nan ((1 - item_distance item) * 100)
              = is_nan (item_distance item)).
  { rewrite FloatMore.mul_hundred_nan. apply FloatMore.one_sub_nan. }
  split.
  - rewrite FloatMore.Math_max_nan, FloatMore.Math_min_nan, N. reflexivity.
  - destruct (is_nan (item_distance item)); [exact I|].
    apply FloatMore.clamp_bounds; [reflexivity|exact N].
Qed.

(** The entries of the ranking come from nodes of the table that the
    loop does not skip. *)
Lemma elem_of_sortedSimilarities_any (allNodes : list LanguageLocation)
    (selectedNodeCode : string) similarityData
    (item : SimilarityItem) :
  item ∈ sortedSimilarities allNodes selectedNodeCode similarityData ->
  exists selectedNode node,
    getLanguageByCode allNodes selectedNodeCode = Some selectedNode
    /\ node ∈ allNodes
    /\ ~ rankingExcluded selectedNodeCode selectedNode node
    /\ item_code item = code node /\ item_name item = name node.
Proof.
  unfold sortedSimilarities.
  destruct (getLanguageByCode allNodes selectedNodeCode) as [selectedNode|] eqn:G;
    [|intros H; apply elem_of_nil in H; contradiction].
  destruct (langName allNodes selectedNode) as [L|];
    [|intros H; apply elem_of_nil in H; contradiction].
  destruct (negb (truthy L));
    [intros H; apply elem_of_nil in H; contradiction|].
  destruct (similarityData !! L);
    [|intros H; apply elem_of_nil in H; contradiction].
  rewrite Array_sort_perm. intros H.
  apply elem_of_rankingItems in H as (node & Hn & E).
  apply rankingItem_Some in E as (X & N & d & _ & _ & _ & ->).
  exists selectedNode, node. repeat split; auto.
Qed.

Section RankingClick.

Variable allNodes : list LanguageLocation.
Hypothesis invariant : nodeInvariant allNodes = true.

(** The name under which [handleItemClick] looks up the selected node. *)
Lemma selected_language_name (node : LanguageLocation) :
  node ∈ allNodes ->
  (if isPrimary node then name node
   else
     match option_map name
             (find (fun l => strictEq (Some (code l)) (primaryCode node))
                   allNodes) with
     | Some n => if truthy n then n else EmptyString
     | None => EmptyString
     end) = name node.
Proof.
  intros H. pose proof (invariant_langName allNodes invariant node H) as L.
  unfold langName in L. destruct (isPrimary node); [reflexivity|].
  rewrite L. destruct (truthy (name node)) eqn:T; [reflexivity|].
  destruct (name node); [reflexivity|discriminate].
Qed.

(** X13. On a table that satisfies its invariant, a click on an entry
    of the ranking opens the comparison of the language of the selected
    node with the language of the entry: the path names the two primary
    codes, and they are different. *)
Theorem ranking_click_navigation (selectedNodeCode : string) similarityData
    (item : SimilarityItem) :
  item ∈ sortedSimilarities allNodes selectedNodeCode similarityData ->
  exists selectedNode node,
    getLanguageByCode allNodes selectedNodeCode = Some selectedNode
    /\ node ∈ allNodes /\ item_code item = code node
    /\ LanguageSimilarityPanel.handleItemClick allNodes selectedNodeCode item
       = Some ("/compare/" ++ primaryOf selectedNode ++ "/"
                 ++ primaryOf node)%string
    /\ primaryOf selectedNode <> primaryOf node.
Proof.
  intros H.
  apply elem_of_sortedSimilarities_any in H
    as (selectedNode & node & G & Hn & X & C & N).
  pose proof (getLanguageByCode_Some allNodes _ _ G) as [Hs _].
  destruct (invariant_getLanguageByName allNodes invariant selectedNode Hs)
    as (q1 & G1 & Hq1 & _ & N1 & Q1).
  destruct (invariant_getLanguageByName allNodes invariant node Hn)
    as (q2 & G2 & Hq2 & _ & N2 & Q2).
  exists selectedNode, node. repeat split; auto.
  - unfold LanguageSimilarityPanel.handleItemClick.
    unfold getLanguageByCode in G. rewrite G. cbv zeta.
    rewrite (selected_language_name selectedNode Hs), N, G1, G2, Q1, Q2.
    reflexivity.
  - intros E. apply X. right. left.
    rewrite <- Q1, <- Q2 in E.
    pose proof (invariant_codes allNodes invariant) as ND.
    assert (q1 = q2) by (eapply (NoDup_fmap_inj code); eauto).
    congruence.
Qed.

End RankingClick.

(** With [ja] selected and the single row of the matrix for Japanese,
    the first entry of the ranking is English, and a click on it opens
    ["/compare/ja/en"]. *)
Lemma ranking_click_navigation_witness :
  exists item,
    sortedSimilarities LANGUAGE_LOCATIONS "ja" reverseOnlyMatrix !! 0%nat
    = Some item
    /\ exists selectedNode node,
         getLanguageByCode LANGUAGE_LOCATIONS "ja" = Some selectedNode
         /\ node ∈ LANGUAGE_LOCATIONS /\ item_code item = code node
         /\ LanguageSimilarityPanel.handleItemClick LANGUAGE_LOCATIONS "ja" item
            = Some ("/compare/" ++ primaryOf selectedNode ++ "/"
                      ++ primaryOf node)%string
         /\ primaryOf selectedNode <> primaryOf node.
Proof.
  destruct (sortedSimilarities LANGUAGE_LOCATIONS "ja" reverseOnlyMatrix
              !! 0%nat) as [item|] eqn:E; [|vm_compute in E; discriminate].
  exists item. split; [reflexivity|].
  apply (ranking_click_navigation LANGUAGE_LOCATIONS
           LANGUAGE_LOCATIONS_invariant "ja" reverseOnlyMatrix item).
  eapply list_elem_of_lookup_2. exact E.
Defined.

(** X24. When no two nodes of the table share a code, no two entries
    of the ranking have the same code (the panel uses the code of an
    entry as the key of its element in the list), and every entry
    carries the code of a node of the table other than the selected
    one. *)
Theorem ranking_codes_unique (allNodes : list LanguageLocation)
    (selectedNodeCode : string) similarityData :
  NoDup (map code allNodes) ->
  NoDup (map item_code
             (sortedSimilarities allNodes selectedNodeCode similarityData))
  /\ forall item,
       item ∈ sortedSimilarities allNodes selectedNodeCode similarityData ->
       item_code item ∈ map code allNodes
       /\ item_code item <> selectedNodeCode.
Proof.
  intros ND. split.
  - unfold sortedSimilarities.
    destruct (getLanguageByCode allNodes selectedNodeCode) as [selectedNode|];
      [|constructor].
    destruct (langName allNodes selectedNode) as [L|]; [|constructor].
    destruct (negb (truthy L)); [constructor|].
    destruct (similarityData !! L); [|constructor].
    change (map item_code ?l) with (item_code <$> l).
    rewrite (Array_sort_perm item_distance).
    unfold rankingItems. apply (NoDup_omap_key _ code item_code); [|exact ND].
    intros node item E.
    apply rankingItem_Some in E as (_ & N & d & _ & _ & _ & ->). reflexivity.
  - intros item H.
    apply elem_of_sortedSimilarities_any in H
      as (selectedNode & node & G & Hn & X & C & N).
    split.
    + rewrite C. apply list_elem_of_In, in_map, list_elem_of_In, Hn.
    + rewrite C. intros E. apply X. left. exact E.
Qed.

Lemma ranking_codes_unique_witness :
  NoDup (map item_code
             (sortedSimilarities LANGUAGE_LOCATIONS "ja" reverseOnlyMatrix)).
Proof.
  apply (ranking_codes_unique LANGUAGE_LOCATIONS "ja" reverseOnlyMatrix
           (invariant_codes LANGUAGE_LOCATIONS LANGUAGE_LOCATIONS_invariant)).
Defined.

(** ** More on the node table *)

Section TableMore.

Variable allNodes : list LanguageLocation.
Hypothesis invariant : nodeInvariant allNodes = true.

(** X14. On a table that satisfies its invariant, the two lookups are
    exact: looking up the code of a node gives that node, looking up the
    name of a primary node gives that node, and a lookup fails exactly
    when no node has the code, or no primary node the name. *)
Theorem table_lookup_round_trip :
  (forall node, node ∈ allNodes ->
     getLanguageByCode allNodes (code node) = Some node
     /\ (isPrimary node = true ->
         getLanguageByName allNodes (name node) = Some node))
  /\ (forall c, getLanguageByCode allNodes c = None
                <-> forall node, node ∈ allNodes -> code node <> c)
  /\ (forall n, getLanguageByName allNodes n = None
                <-> forall node, node ∈ allNodes -> isPrimary node = true ->
                                 name node <> n).
Proof.
  pose proof (invariant_codes allNodes invariant) as NDc.
  pose proof (invariant_primary_names allNodes invariant) as NDn.
  split; [|split].
  - intros node Hn. split.
    + destruct (getLanguageByCode allNodes (code node)) as [q|] eqn:G.
      * apply getLanguageByCode_Some in G as [Hq E].
        f_equal. eapply (NoDup_fmap_inj code); eauto.
      * unfold getLanguageByCode in G.
        pose proof (find_none _ _ G node (proj1 (list_elem_of_In _ _) Hn)) as F.
        cbn beta in F. rewrite String.eqb_refl in F. discriminate.
    + intros P.
      destruct (invariant_getLanguageByName allNodes invariant node Hn)
        as (q & G & Hq & Pq & Nq & _).
      rewrite G. f_equal.
      eapply (NoDup_fmap_inj name); eauto using primary_elem_of.
  - intros c. unfold getLanguageByCode. split.
    + intros G node Hn E.
      pose proof (find_none _ _ G node (proj1 (list_elem_of_In _ _) Hn)) as F.
      cbn beta in F. rewrite E, String.eqb_refl in F. discriminate.
    + intros H. destruct (find _ allNodes) as [q|] eqn:G; [|reflexivity].
      apply find_some in G as [Hq E]. apply String.eqb_eq in E.
      exfalso. apply (H q); [apply list_elem_of_In, Hq|exact E].
  - intros n. unfold getLanguageByName. split.
    + intros G node Hn P E.
      pose proof (find_none _ _ G node (proj1 (list_elem_of_In _ _) Hn)) as F.
      cbn beta in F. rewrite E, String.eqb_refl, P in F. discriminate.
    + intros H. destruct (find _ allNodes) as [q|] eqn:G; [|reflexivity].
      apply find_some in G as [Hq E]. apply andb_true_iff in E as [E P].
      apply String.eqb_eq in E.
      exfalso. apply (H q); [apply list_elem_of_In, Hq|exact P|exact E].
Qed.

Lemma omap_keeps_first {A B : Type} (f : A -> option (A * B)) (l : list A) :
  (forall x, x ∈ l -> exists y, f x = Some (x, y)) ->
  map fst (omap f l) = l.
Proof.
  induction l as [|x l IH]; intros H; [reflexivity|].
  destruct (H x) as [y E]; [left|].
  change (omap f (x :: l))
    with (match f x with Some p => p :: omap f l | None => omap f l end).
  rewrite E. cbn [map fst]. f_equal. apply IH.
  intros z Hz. apply H. right. exact Hz.
Qed.

Lemma loopPairs_either {A : Type} (l : list A) (x y : A) :
  x ∈ l -> y ∈ l -> x <> y ->
  (x, y) ∈ loopPairs l \/ (y, x) ∈ loopPairs l.
Proof.
  intros Hx Hy N.
  apply list_elem_of_lookup in Hx as [i Hi].
  apply list_elem_of_lookup in Hy as [j Hj].
  destruct (Nat.lt_trichotomy i j) as [L|[E|L]].
  - left. apply elem_of_loopPairs. eauto.
  - subst. congruence.
  - right. apply elem_of_loopPairs. eauto.
Qed.

Variables Math_sin Math_cos : float -> float.
Variable Math_atan2 : float -> float -> float.
Variable Number_toString : float -> string.

(** X15. On a table that satisfies its invariant, [getSameLanguagePairs]
    pairs every secondary node, in the order of the table, with its
    primary node: the node of the same name whose code is the
    [primaryCode] of the secondary.  The globe joins the two nodes of
    every such pair by a "same" arc, whatever the matrix, the filter and
    the selection. *)
Theorem sameLanguagePairs_cover_secondaries :
  map fst (getSameLanguagePairs allNodes) = getSecondaryLanguages allNodes
  /\ forall secondary primary,
       (secondary, primary) ∈ getSameLanguagePairs allNodes ->
       secondary ∈ allNodes /\ primary ∈ allNodes
       /\ isPrimary secondary = false /\ isPrimary primary = true
       /\ primaryCode secondary = Some (code primary)
       /\ name primary = name secondary
       /\ forall similarityData distanceFilter selectedNodeCode,
            exists arc,
              arc ∈ arcsData Math_sin Math_cos Math_atan2 Number_toString
                      allNodes similarityData distanceFilter selectedNodeCode
              /\ category arc = Category.same
              /\ ((node1Code arc = code secondary
                   /\ node2Code arc = code primary)
                  \/ (node1Code arc = code primary
                      /\ node2Code arc = code secondary)).
Proof.
  split.
  - unfold getSameLanguagePairs. apply omap_keeps_first.
    intros s Hs. unfold getSecondaryLanguages in Hs.
    apply list_elem_of_In, filter_In in Hs as [Hs P].
    apply list_elem_of_In in Hs. apply negb_true_iff in P.
    destruct (invariant_node allNodes invariant s Hs)
      as [(P' & _)|(_ & p & q & Ep & G & Hq & Cq & Pq & Nq)]; [congruence|].
    destruct (find _ allNodes) as [q'|] eqn:F; [eauto|].
    pose proof (find_none _ _ F q (proj1 (list_elem_of_In _ _) Hq)) as F'.
    cbn beta in F'. rewrite Ep, Cq, Pq in F'.
    assert (strictEq (Some p) (Some p) = true) as E
      by (apply strictEq_true; reflexivity).
    rewrite E in F'. discriminate.
  - intros s q H. unfold getSameLanguagePairs in H.
    apply list_elem_of_omap in H as (s' & Hs & E).
    destruct (find _ allNodes) as [q'|] eqn:F; [|discriminate].
    inversion E; subst s' q'. clear E.
    unfold getSecondaryLanguages in Hs.
    apply list_elem_of_In, filter_In in Hs as [Hs P].
    apply list_elem_of_In in Hs. apply negb_true_iff in P.
    apply find_some in F as [Hq E]. apply list_elem_of_In in Hq.
    apply andb_true_iff in E as [E Pq]. apply strictEq_true in E.
    destruct (invariant_node allNodes invariant s Hs)
      as [(P' & _)|(_ & p & q0 & Ep & G & Hq0 & Cq0 & Pq0 & Nq0)]; [congruence|].
    pose proof (invariant_codes allNodes invariant) as ND.
    assert (q0 = q) by (eapply (NoDup_fmap_inj code); eauto; congruence).
    subst q0.
    repeat split; auto.
    intros similarityData filter selected.
    assert (S1 : sameLanguage s q = true).
    { unfold sameLanguage.
      assert (strictEq (primaryCode s) (Some (code q)) = true) as ->
        by (apply strictEq_true; congruence).
      reflexivity. }
    assert (S2 : sameLanguage q s = true).
    { unfold sameLanguage.
      assert (strictEq (primaryCode s) (Some (code q)) = true) as ->
        by (apply strictEq_true; congruence).
      apply orb_true_iff. left. apply orb_true_r. }
    assert (N : s <> q) by (intros ->; congruence).
    destruct (loopPairs_either allNodes s q Hs Hq N) as [Hp|Hp].
    + destruct (sameLanguageArc_intro Math_sin Math_cos Math_atan2
                  s q S1)
        as (arc & Ea & C & _ & C1 & C2 & _).
      exists arc. split; [|split; [exact C|left; auto]].
      unfold arcsData. apply elem_of_app. left.
      apply elem_of_sameLanguageArcs. eauto.
    + destruct (sameLanguageArc_intro Math_sin Math_cos Math_atan2
                  q s S2)
        as (arc & Ea & C & _ & C1 & C2 & _).
      exists arc. split; [|split; [exact C|right; auto]].
      unfold arcsData. apply elem_of_app. left.
      apply elem_of_sameLanguageArcs. eauto.
Qed.

End TableMore.

Lemma table_lookup_round_trip_witness :
  exists node,
    LANGUAGE_LOCATIONS !! 12%nat = Some node
    /\ getLanguageByCode LANGUAGE_LOCATIONS (code node) = Some node
    /\ getLanguageByName LANGUAGE_LOCATIONS (name node) = Some node.
Proof.
  destruct (LANGUAGE_LOCATIONS !! 12%nat) as [node|] eqn:E; [|discriminate].
  exists node. split; [reflexivity|].
  destruct (proj1 (table_lookup_round_trip LANGUAGE_LOCATIONS
                     LANGUAGE_LOCATIONS_invariant) node) as [H1 H2].
  - eapply list_elem_of_lookup_2. exact E.
  - split; [exact H1|]. apply H2.
    vm_compute in E. inversion E. reflexivity.
Defined.

Lemma sameLanguagePairs_cover_secondaries_witness :
  map fst (getSameLanguagePairs LANGUAGE_LOCATIONS)
  = getSecondaryLanguages LANGUAGE_LOCATIONS.
Proof.
  apply (sameLanguagePairs_cover_secondaries LANGUAGE_LOCATIONS
           LANGUAGE_LOCATIONS_invariant stubTrig stubTrig stubAtan2
           stubToString).
Defined.

(** ** More on the popup *)

(** X16. The popup always shows the three rate cards V→N, N→Mod and
    N→Func, in that order, and the word-order summary agrees with the
    first card: the summary is "unknown" exactly when the first card has
    no rate. *)
Theorem keyRates_agree_with_tendency (languageName : string)
    (rates : HeadDirectionRates) :
  map kr_labelShort (getKeyRates languageName rates)
  = ["V→N"; "N→Mod"; "N→Func"]%string
  /\ exists first rest,
       getKeyRates languageName rates = first :: rest
       /\ kr_rate first = rateOrNull rates verbObjKey languageName
       /\ (kr_rate first = JSNull
           <-> getWordOrderTendency languageName rates = tendencyUnknown).
Proof.
  split; [reflexivity|].
  unfold getKeyRates, keyPairs. cbn [map]. eexists _, _.
  split; [reflexivity|]. cbn [kr_rate]. split; [reflexivity|].
  unfold rateOrNull, getWordOrderTendency.
  change verbObjKey with "VERBAL,NOMINAL,CORE_ARG"%string. cbv zeta.
  destruct (getRate rates "VERBAL,NOMINAL,CORE_ARG" languageName) as [| |x|];
    cbn [ToNumber].
  - tauto.
  - tauto.
  - split; [discriminate|].
    destruct (0.7 <? x); [discriminate|].
    destruct (x <? 0.3); discriminate.
  - split; [discriminate|].
    destruct (0.7 <? nan); [discriminate|].
    destruct (nan <? 0.3); discriminate.
Qed.

Lemma sub_nan_r (x : float) : is_nan (x - nan) = true.
Proof.
  destruct (is_nan (x - nan)) eqn:A; [reflexivity|].
  apply FloatFacts.is_nan_false in A. rewrite FloatAxioms.sub_spec in A.
  exfalso. apply A.
  change (Prim2SF nan) with S754_nan. destruct (Prim2SF x); reflexivity.
Qed.

Lemma sub_nan_l (x : float) : is_nan (nan - x) = true.
Proof.
  destruct (is_nan (nan - x)) eqn:A; [reflexivity|].
  apply FloatFacts.is_nan_false in A. rewrite FloatAxioms.sub_spec in A.
  exfalso. apply A.
  change (Prim2SF nan) with S754_nan. reflexivity.
Qed.

(** A filtered list read through a partial function. *)
Lemma omap_filter_names {A B C : Type} (f : A -> option B) (q : A -> bool)
    (g : B -> C) (h : A -> C) (l : list A) :
  (forall x y, f x = Some y -> q x = true /\ g y = h x) ->
  (forall x, f x = None -> q x = false) ->
  map g (omap f l) = map h (List.filter q l).
Proof.
  intros Hs Hn. induction l as [|x l IH]; [reflexivity|].
  change (omap f (x :: l))
    with (match f x with Some y => y :: omap f l | None => omap f l end).
  cbn [List.filter].
  destruct (f x) as [y|] eqn:E.
  - destruct (Hs x y E) as [Q G]. rewrite Q. cbn [map]. rewrite G, IH.
    reflexivity.
  - rewrite (Hn x E). exact IH.
Qed.

Section SimilarLanguages.

Variable allNodes : list LanguageLocation.

Local Abbreviation closer :=
  (fun a b : SimilarLanguage => (sl_diff a <=? sl_diff b) = true).

(** A language is a candidate exactly when it has another name and an
    own rate that is a number less than 0.15 away from the rate of the
    language of the popup. *)
Lemma similarCandidate_Some (languageName : string) (rates : HeadDirectionRates)
    (targetRate : float) (lang : LanguageLocation) (s : SimilarLanguage) :
  similarCandidate languageName rates (JSNumber targetRate) lang = Some s
  <-> name lang <> languageName
      /\ exists rate,
           lookup2 rates "VERBAL,NOMINAL,CORE_ARG" (name lang) = Some (Num rate)
           /\ s = {| sl_name := nameJa lang; sl_diff := abs (rate - targetRate) |}
           /\ (abs (rate - targetRate) <? 0.15) = true.
Proof.
  unfold similarCandidate. cbv zeta. cbn [ToNumber]. split.
  - destruct (String.eqb (name lang) languageName) eqn:E; [discriminate|].
    apply String.eqb_neq in E.
    destruct (getRate rates _ (name lang)) as [| |rate|] eqn:G;
      try discriminate; cbn [ToNumber].
    + destruct (abs (rate - targetRate) <? 0.15) eqn:D; [|discriminate].
      intros H. inversion H. subst s. split; [exact E|].
      exists rate. apply getRate_number in G. auto.
    + assert (N : is_nan (abs (nan - targetRate)) = true)
        by (rewrite FloatMore.abs_nan; apply sub_nan_l).
      rewrite (FloatFacts.ltb_nan_l _ _ N). discriminate.
  - intros (N & rate & L & -> & D).
    apply String.eqb_neq in N. rewrite N.
    apply getRate_number in L. rewrite L. cbn [ToNumber]. rewrite D.
    reflexivity.
Qed.

Lemma similarCandidate_None (languageName : string) (rates : HeadDirectionRates)
    (targetRate : float) (lang : LanguageLocation) :
  similarCandidate languageName rates (JSNumber targetRate) lang = None ->
  negb (String.eqb (name lang) languageName)
  && match lookup2 rates "VERBAL,NOMINAL,CORE_ARG" (name lang) with
     | Some (Num rate) => abs (rate - targetRate) <? 0.15
     | _ => false
     end = false.
Proof.
  intros H.
  destruct (String.eqb (name lang) languageName) eqn:E; [reflexivity|].
  cbn [negb andb].
  destruct (lookup2 rates _ (name lang)) as [[|rate]|] eqn:L; try reflexivity.
  destruct (abs (rate - targetRate) <? 0.15) eqn:D; [|reflexivity].
  exfalso.
  assert (K : similarCandidate languageName rates (JSNumber targetRate) lang
              = Some {| sl_name := nameJa lang;
                        sl_diff := abs (rate - targetRate) |}).
  { apply similarCandidate_Some. apply String.eqb_neq in E.
    split; [exact E|]. exists rate. auto. }
  congruence.
Qed.

(** When the rate of the language of the popup is an inherited property,
    no language is a candidate. *)
Lemma similarCandidate_object (languageName : string)
    (rates : HeadDirectionRates) (lang : LanguageLocation) :
  similarCandidate languageName rates JSObject lang = None.
Proof.
  unfold similarCandidate. cbv zeta. cbn [ToNumber].
  destruct (String.eqb (name lang) languageName); [reflexivity|].
  destruct (getRate rates _ (name lang)) as [| |rate|]; try reflexivity;
    cbn [ToNumber].
  assert (N : is_nan (abs (rate - nan)) = true)
    by (rewrite FloatMore.abs_nan; apply sub_nan_r).
  rewrite (FloatFacts.ltb_nan_l _ _ N). reflexivity.
Qed.

Lemma omap_all_None {A B : Type} (f : A -> option B) (l : list A) :
  (forall x, f x = None) -> omap f l = [].
Proof.
  intros H. induction l as [|x l IH]; [reflexivity|].
  change (omap f (x :: l))
    with (match f x with Some y => y :: omap f l | None => omap f l end).
  rewrite H. exact IH.
Qed.

(** X17. The similar languages of the popup are at most three, and
    none when the language has no V→N rate that is a number.  Otherwise
    the candidates are exactly the primary nodes of another name whose
    V→N rate is a number that differs from the rate of the language by
    less than 0.15: every candidate is such a node, every such node is a
    candidate, and the names of the candidates are the Japanese names of
    these nodes, each as often as there are such nodes.  The popup shows
    the names of the first three candidates in ascending order of the
    difference, so no candidate left out is closer than one shown. *)
Theorem similar_languages_closest_first (languageName : string)
    (rates : HeadDirectionRates) :
  (length (getSimilarLanguages allNodes languageName rates) <= 3)%nat
  /\ match getRate rates "VERBAL,NOMINAL,CORE_ARG" languageName with
     | JSNumber targetRate =>
         exists shown rest,
           similarSorted allNodes languageName rates (JSNumber targetRate)
           = shown ++ rest
           /\ getSimilarLanguages allNodes languageName rates = map sl_name shown
           /\ (rest <> [] -> length shown = 3%nat)
           /\ StronglySorted closer (shown ++ rest)
           /\ (forall s, s ∈ shown ++ rest ->
                 exists lang rate,
                   lang ∈ allNodes /\ isPrimary lang = true
                   /\ name lang <> languageName
                   /\ lookup2 rates "VERBAL,NOMINAL,CORE_ARG" (name lang)
                      = Some (Num rate)
                   /\ sl_name s = nameJa lang
                   /\ sl_diff s = abs (rate - targetRate)
                   /\ (sl_diff s <? 0.15) = true)
           /\ (forall lang rate,
                 lang ∈ allNodes -> isPrimary lang = true ->
                 name lang <> languageName ->
                 lookup2 rates "VERBAL,NOMINAL,CORE_ARG" (name lang)
                 = Some (Num rate) ->
                 (abs (rate - targetRate) <? 0.15) = true ->
                 {| sl_name := nameJa lang;
                    sl_diff := abs (rate - targetRate) |} ∈ shown ++ rest)
           /\ map sl_name (shown ++ rest)
              ≡ₚ map nameJa
                   (List.filter
                      (fun lang =>
                         negb (String.eqb (name lang) languageName)
                         && match lookup2 rates "VERBAL,NOMINAL,CORE_ARG"
                                          (name lang) with
                            | Some (Num rate) =>
                                abs (rate - targetRate) <? 0.15
                            | _ => false
                            end)
                      (List.filter isPrimary allNodes))
     | _ => getSimilarLanguages allNodes languageName rates = []
     end.
Proof.
  unfold getSimilarLanguages. cbv zeta.
  destruct (getRate rates "VERBAL,NOMINAL,CORE_ARG" languageName)
    as [| |targetRate|] eqn:G; try (split; [cbn; lia|reflexivity]).
  2:{ unfold similarSorted.
      rewrite (omap_all_None _ _ (similarCandidate_object languageName rates)).
      split; [cbn; lia|reflexivity]. }
  set (L := similarSorted allNodes languageName rates (JSNumber targetRate)).
  split; [rewrite length_map, length_firstn; lia|].
  assert (Hperm : L ≡ₚ omap (similarCandidate languageName rates
                                              (JSNumber targetRate))
                            (getPrimaryLanguages allNodes)).
  { unfold L, similarSorted. apply (Array_sort_perm sl_diff). }
  exists (firstn 3 L), (skipn 3 L).
  rewrite firstn_skipn.
  split; [reflexivity|]. split; [reflexivity|]. split; [|split; [|split; [|split]]].
  - intros R. rewrite length_firstn.
    destruct (Nat.le_gt_cases (length L) 3) as [Hle|Hgt]; [|lia].
    exfalso. apply R. apply skipn_all2. exact Hle.
  - unfold L, similarSorted. apply (Array_sort_sorted sl_diff).
    apply Forall_forall. intros s Hs.
    apply list_elem_of_omap in Hs as (lang & _ & E).
    apply similarCandidate_Some in E as (_ & rate & _ & -> & D).
    apply (FloatFacts.ltb_true_not_nan _ _ D).
  - intros s Hs. rewrite Hperm in Hs.
    apply list_elem_of_omap in Hs as (lang & Hl & E).
    unfold getPrimaryLanguages in Hl.
    apply list_elem_of_In, filter_In in Hl as [Hl P].
    apply similarCandidate_Some in E as (N & rate & E & -> & D).
    exists lang, rate. repeat split; auto. apply list_elem_of_In, Hl.
  - intros lang rate Hl P N E D. rewrite Hperm.
    apply list_elem_of_omap. exists lang. split.
    + unfold getPrimaryLanguages. apply list_elem_of_In, filter_In.
      split; [apply list_elem_of_In, Hl|exact P].
    + apply similarCandidate_Some. split; [exact N|]. exists rate. auto.
  - change (map sl_name L) with (sl_name <$> L). rewrite Hperm.
    change (sl_name <$> ?l) with (map sl_name l).
    unfold getPrimaryLanguages.
    rewrite (omap_filter_names
               (similarCandidate languageName rates (JSNumber targetRate))
               (fun lang =>
                  negb (String.eqb (name lang) languageName)
                  && match lookup2 rates "VERBAL,NOMINAL,CORE_ARG"
                                   (name lang) with
                     | Some (Num rate) => abs (rate - targetRate) <? 0.15
                     | _ => false
                     end)
               sl_name nameJa).
    + reflexivity.
    + intros lang s E.
      apply similarCandidate_Some in E as (N & rate & E & -> & D).
      apply String.eqb_neq in N. rewrite N, E, D. split; reflexivity.
    + intros lang E. apply similarCandidate_None, E.
Qed.

End SimilarLanguages.

(** ** The zoom of the comparison page *)

Lemma zoom_limits_finite :
  isFiniteNumber 0.5 = true /\ isFiniteNumber 2.0 = true
  /\ isFiniteNumber 0.1 = true /\ isFiniteNumber (-0.1) = true.
Proof. repeat split; reflexivity. Qed.

Lemma handleZoomChange_in_range (prev delta : float) :
  (0.5 <=? prev) = true -> (prev <=? 2.0) = true ->
  isFiniteNumber delta = true ->
  (0.5 <=? handleZoomChange prev delta) = true
  /\ (handleZoomChange prev delta <=? 2.0) = true.
Proof.
  intros H1 H2 F. unfold handleZoomChange.
  apply FloatMore.clamp_bounds; [reflexivity|].
  apply FloatMore.add_finite_not_nan; [|exact F].
  apply (FloatMore.between_finite 0.5 2.0); auto; reflexivity.
Qed.

Lemma zoomClick_in_range (zoom : float) (b : ZoomButton) :
  (0.5 <=? zoom) = true -> (zoom <=? 2.0) = true ->
  (0.5 <=? zoomClick zoom b) = true /\ (zoomClick zoom b <=? 2.0) = true.
Proof.
  intros H1 H2. destruct b; cbn [zoomClick].
  - apply handleZoomChange_in_range; auto.
  - apply handleZoomChange_in_range; auto.
  - split; reflexivity.
Qed.

(** X18. Whatever the sequence of clicks on the three zoom buttons, the
    zoom stays between 0.5 and 2: at the upper limit a click on "zoom
    in" changes nothing, at the lower limit a click on "zoom out"
    changes nothing, and a click on "reset" gives the initial zoom
    again. *)
Theorem zoom_stays_in_range (clicks : list ZoomButton) :
  (0.5 <=? zoomAfter clicks) = true /\ (zoomAfter clicks <=? 2.0) = true
  /\ zoomClick 2.0 ZoomIn = 2.0 /\ zoomClick 0.5 ZoomOut = 0.5
  /\ zoomAfter (clicks ++ [ZoomResetButton]) = initialZoom.
Proof.
  assert (H : (0.5 <=? zoomAfter clicks) = true
              /\ (zoomAfter clicks <=? 2.0) = true).
  { unfold zoomAfter.
    assert (G : forall z, (0.5 <=? z) = true -> (z <=? 2.0) = true ->
                (0.5 <=? fold_left zoomClick clicks z) = true
                /\ (fold_left zoomClick clicks z <=? 2.0) = true).
    { induction clicks as [|b clicks IH]; intros z H1 H2; cbn [fold_left];
        [split; assumption|].
      destruct (zoomClick_in_range z b H1 H2) as [K1 K2].
      apply IH; assumption. }
    apply G; reflexivity. }
  destruct H as [H1 H2]. repeat split; auto.
  unfold zoomAfter. rewrite fold_left_app. reflexivity.
Qed.

(** ** The comparison table of head directions *)

Section SortDescending.

Context {A : Type} (field : A -> float).

Local Abbreviation cmp := (fun a b : A => field b - field a).
Local Abbreviation ordered := (fun a b : A => (field b <=? field a) = true).

Lemma sort_insert_perm_any (c : A -> A -> float) (x : A) (l : list A) :
  sort_insert c x l ≡ₚ x :: l.
Proof.
  induction l as [|y l IH]; cbn [sort_insert]; [reflexivity|].
  destruct (0 <? c x y); [|reflexivity].
  rewrite IH. apply Permutation_swap.
Qed.

Lemma Array_sort_perm_any (c : A -> A -> float) (l : list A) :
  Array_sort c l ≡ₚ l.
Proof.
  induction l as [|x l IH]; cbn [Array_sort]; [reflexivity|].
  rewrite sort_insert_perm_any, IH. reflexivity.
Qed.

Lemma sort_insert_sorted_desc (x : A) (l : list A) :
  is_nan (field x) = false ->
  Forall (fun a => is_nan (field a) = false) l ->
  StronglySorted ordered l ->
  StronglySorted ordered (sort_insert cmp x l).
Proof.
  intros Hx Hl Hs. induction Hs as [|y l Hs IH Hy]; cbn [sort_insert].
  - repeat constructor.
  - apply Forall_cons in Hl as [Ny Hl]. cbn beta.
    rewrite (FloatFacts.sub_pos_ltb _ _ Ny Hx).
    destruct (field x <? field y) eqn:E.
    + constructor; [apply IH, Hl|].
      rewrite sort_insert_perm_any. constructor; [|exact Hy].
      apply FloatFacts.ltb_leb, E.
    + rewrite (FloatFacts.ltb_negb_leb _ _ Hx Ny) in E.
      apply negb_false_iff in E.
      constructor; [constructor; assumption|].
      constructor; [exact E|].
      eapply Forall_impl; [exact Hy|]. intros z Hz. cbn beta in *.
      eapply FloatFacts.leb_trans; [exact Hz|exact E].
Qed.

(** When no field is NaN, sorting with the comparator [b - a] gives the
    descending order of the field. *)
Lemma Array_sort_sorted_desc (l : list A) :
  Forall (fun a => is_nan (field a) = false) l ->
  StronglySorted ordered (Array_sort cmp l).
Proof.
  induction l as [|x l IH]; cbn [Array_sort]; intros H; [constructor|].
  apply Forall_cons in H as [Hx Hl].
  apply sort_insert_sorted_desc; [exact Hx| |apply IH, Hl].
  rewrite Array_sort_perm_any. exact Hl.
Qed.

End SortDescending.

Lemma abs_opp (x : float) : abs (- x) = abs x.
Proof.
  apply Prim2SF_inj.
  rewrite !FloatAxioms.abs_spec, FloatAxioms.opp_spec.
  destruct (Prim2SF x); reflexivity.
Qed.

(** X19. The marker after a difference and the class that colours it
    agree: the filled marker goes with "diff-large" (magnitude above
    0.5), the hollow one with "diff-medium" (above 0.2), none with
    "diff-small"; both depend on the magnitude of the difference only,
    not on its sign, and a NaN difference counts as small. *)
Theorem diff_indicator_matches_class (d : float) :
  (getDiffIndicator d = " ◆"%string
   <-> getDiffClass (Some d) = "diff-large"%string)
  /\ (getDiffIndicator d = " ◇"%string
      <-> getDiffClass (Some d) = "diff-medium"%string)
  /\ (getDiffIndicator d = EmptyString
      <-> getDiffClass (Some d) = "diff-small"%string)
  /\ getDiffClass (Some (- d)) = getDiffClass (Some d)
  /\ getDiffIndicator (- d) = getDiffIndicator d
  /\ (if is_nan d then getDiffClass (Some d) = "diff-small"%string else True).
Proof.
  unfold getDiffIndicator, getDiffClass. cbv zeta. rewrite abs_opp.
  repeat split; try (destruct (0.5 <? abs d); [|destruct (0.2 <? abs d)];
                     first [reflexivity | discriminate]).
  destruct (is_nan d) eqn:N; [|exact I].
  assert (Na : is_nan (abs d) = true) by (rewrite FloatMore.abs_nan; exact N).
  rewrite !(FloatFacts.ltb_nan_r _ _ Na). reflexivity.
Qed.

Section HeadDirectionPanel.

Variable entries : list (string * gmap string cell).
Variables lang1Name lang2Name : string.

Local Abbreviation larger :=
  (fun a b : ParsedPair => (absDiff b <=? absDiff a) = true).

Lemma parsedPair_Some (entry : string * gmap string cell) (row : ParsedPair) :
  parsedPair lang1Name lang2Name entry = Some row ->
  key row = entry.1
  /\ split "," (key row) = [headUpos row; depUpos row; deprel row]
  /\ lang1Rate row = rowRate entry.2 lang1Name
  /\ lang2Rate row = rowRate entry.2 lang2Name
  /\ (lang1Rate row <> None \/ lang2Rate row <> None)
  /\ diff row = match lang1Rate row, lang2Rate row with
                | Some r1, Some r2 => Some (r1 - r2)
                | _, _ => None
                end.
Proof.
  destruct entry as [k rates]. unfold parsedPair. cbn [fst snd].
  destruct (split "," k) as [|h [|d [|r [|x parts]]]] eqn:S; try discriminate.
  destruct (rowRate rates lang1Name) as [r1|] eqn:R1;
    destruct (rowRate rates lang2Name) as [r2|] eqn:R2;
    try discriminate; intros H; inversion H; subst row; cbn;
    rewrite ?R1, ?R2; repeat split; auto; try (left; discriminate);
    right; discriminate.
Qed.


End HeadDirectionPanel.


(** ** The parsers of the two tables *)

(** *** Splitting at a separator *)

Lemma split_nonempty (sep : ascii) (s : string) : split sep s <> [].
Proof.
  destruct s as [|c s]; cbn [split]; [discriminate|].
  destruct (Ascii.eqb c sep); [discriminate|].
  destruct (split sep s); discriminate.
Qed.

(** No part contains the separator. *)
Lemma split_no_sep (sep : ascii) (s : string) :
  Forall (fun w => contains sep w = false) (split sep s).
Proof.
  induction s as [|c s IH]; cbn [split].
  - repeat constructor.
  - destruct (Ascii.eqb c sep) eqn:E.
    + constructor; [reflexivity|exact IH].
    + destruct (split sep s) as [|w ws].
      * repeat constructor. cbn [contains]. rewrite E. reflexivity.
      * apply Forall_cons in IH as [Hw Hws].
        constructor; [|exact Hws]. cbn [contains]. rewrite E. exact Hw.
Qed.

Lemma split_single (sep : ascii) (a : string) :
  contains sep a = false -> split sep a = [a].
Proof.
  induction a as [|c a IH]; cbn [split contains]; [reflexivity|].
  intros H. apply orb_false_iff in H as [E H]. rewrite E, (IH H). reflexivity.
Qed.

Lemma split_app_sep (sep : ascii) (a b : string) :
  contains sep a = false ->
  split sep (a ++ String sep b) = a :: split sep b.
Proof.
  induction a as [|c a IH]; intros H.
  - change (split sep (String sep b) = EmptyString :: split sep b).
    cbn [split]. rewrite Ascii.eqb_refl. reflexivity.
  - change (split sep (String c (a ++ String sep b))
            = String c a :: split sep b).
    cbn [split contains] in *.
    apply orb_false_iff in H as [E H]. rewrite E, (IH H). reflexivity.
Qed.

(** Three parts without a comma, joined by commas, split into the three
    parts again. *)
Lemma split_three (h d r : string) :
  contains "," h = false -> contains "," d = false -> contains "," r = false ->
  split "," (h ++ "," ++ d ++ "," ++ r) = [h; d; r].
Proof.
  intros Hh Hd Hr.
  change ("," ++ d ++ "," ++ r)%string with (String "," (d ++ String "," r)).
  rewrite (split_app_sep _ _ _ Hh), (split_app_sep _ _ _ Hd), (split_single _ _ Hr).
  reflexivity.
Qed.

(** *** A loop that stores one entry per line *)

Section FoldEntries.

Context {V : Type} (entry : string -> option (string * V)).

Local Abbreviation store :=
  (fun (m : gmap string V) (line : string) =>
     match entry line with
     | Some (k, v) => <[k := v]> m
     | None => m
     end).

Lemma fold_entries_keep (lines : list string) (m : gmap string V)
    (k : string) (v : V) :
  m !! k = Some v ->
  (forall line v', line ∈ lines -> entry line <> Some (k, v')) ->
  fold_left store lines m !! k = Some v.
Proof.
  revert m. induction lines as [|line lines IH]; intros m Hm H; cbn [fold_left];
    [exact Hm|].
  apply IH; [|intros l v' Hl; apply H; right; exact Hl].
  destruct (entry line) as [[k' v']|] eqn:E; [|exact Hm].
  rewrite lookup_insert_ne; [exact Hm|].
  intros ->. apply (H line v'); [left|exact E].
Qed.

(** The entry of the last line with a given key is the one stored. *)
Lemma fold_entries_last (before after : list string) (line : string)
    (m : gmap string V) (k : string) (v : V) :
  entry line = Some (k, v) ->
  (forall line' v', line' ∈ after -> entry line' <> Some (k, v')) ->
  fold_left store (before ++ line :: after) m !! k = Some v.
Proof.
  intros E H. rewrite fold_left_app. cbn [fold_left]. rewrite E.
  apply fold_entries_keep; [apply lookup_insert_eq|exact H].
Qed.

(** Every entry stored comes from a line. *)
Lemma fold_entries_elem (lines : list string) (m : gmap string V)
    (k : string) (v : V) :
  fold_left store lines m !! k = Some v ->
  m !! k = Some v \/ exists line, line ∈ lines /\ entry line = Some (k, v).
Proof.
  revert m. induction lines as [|line lines IH]; intros m H; cbn [fold_left] in H;
    [left; exact H|].
  apply IH in H as [H|(l & Hl & E)].
  - destruct (entry line) as [[k' v']|] eqn:E; [|left; exact H].
    apply lookup_insert_Some in H as [[-> ->]|[_ H]]; [|left; exact H].
    right. exists line. split; [left|exact E].
  - right. exists l. split; [right; exact Hl|exact E].
Qed.

End FoldEntries.

Lemma fold_left_ext_all {A B : Type} (f g : A -> B -> A) (l : list B) (a : A) :
  (forall x y, f x y = g x y) -> fold_left f l a = fold_left g l a.
Proof.
  intros H. revert a. induction l as [|y l IH]; intros a; cbn [fold_left];
    [reflexivity|].
  rewrite H. apply IH.
Qed.
Section ParsersFacts.

Variable trim : string -> string.
Variable parseFloat : string -> float.

(** *** The table of rates *)

(** A cell is null, or the number read from a text that is not blank. *)
Lemma rateCell_cases (value : option string) :
  rateCell trim parseFloat value = Null
  \/ exists v, value = Some v /\ v <> EmptyString /\ trim v <> EmptyString
               /\ rateCell trim parseFloat value = Num (parseFloat v).
Proof.
  destruct value as [v|]; [|left; reflexivity]. cbn [rateCell].
  destruct (truthy v) eqn:T; [|left; reflexivity].
  destruct (String.eqb (trim v) EmptyString) eqn:E; [left; reflexivity|].
  right. exists v. apply truthy_true in T. apply String.eqb_neq in E.
  repeat split; auto.
Qed.

Lemma ratesRow_keep (languageHeaders : list string) (j : nat)
    (values : list string) (row : gmap string cell) (lang : string) :
  lang ∉ languageHeaders ->
  ratesRow trim parseFloat languageHeaders j values row !! lang = row !! lang.
Proof.
  revert j row. induction languageHeaders as [|l ls IH]; intros j row H;
    cbn [ratesRow]; [reflexivity|].
  apply not_elem_of_cons in H as [N H].
  rewrite (IH _ _ H). apply lookup_insert_ne. congruence.
Qed.

(** The cell of a language is the one of its last column. *)
Lemma ratesRow_last (before after : list string) (lang : string) (j : nat)
    (values : list string) (row : gmap string cell) :
  lang ∉ after ->
  ratesRow trim parseFloat (before ++ lang :: after) j values row !! lang
  = Some (rateCell trim parseFloat (values !! (3 + (j + length before))%nat)).
Proof.
  revert j row. induction before as [|l ls IH]; intros j row H.
  - cbn [app ratesRow length]. rewrite (ratesRow_keep _ _ _ _ _ H).
    rewrite lookup_insert_eq. do 3 f_equal. lia.
  - cbn [app ratesRow length]. rewrite (IH _ _ H). do 3 f_equal. lia.
Qed.

Lemma ratesRow_dom (languageHeaders : list string) (j : nat)
    (values : list string) (row : gmap string cell) (lang : string) :
  is_Some (ratesRow trim parseFloat languageHeaders j values row !! lang)
  <-> lang ∈ languageHeaders \/ is_Some (row !! lang).
Proof.
  revert j row. induction languageHeaders as [|l ls IH]; intros j row;
    cbn [ratesRow].
  - rewrite elem_of_nil. tauto.
  - rewrite IH, lookup_insert_is_Some', elem_of_cons. intuition congruence.
Qed.

Lemma ratesRow_cells (languageHeaders : list string) (j : nat)
    (values : list string) (row : gmap string cell) (lang : string) (c : cell) :
  ratesRow trim parseFloat languageHeaders j values row !! lang = Some c ->
  row !! lang = Some c
  \/ exists i, c = rateCell trim parseFloat (values !! i).
Proof.
  revert j row. induction languageHeaders as [|l ls IH]; intros j row H;
    cbn [ratesRow] in H; [left; exact H|].
  apply IH in H as [H|H]; [|right; exact H].
  apply lookup_insert_Some in H as [[_ <-]|[_ H]]; [right; eauto|left; exact H].
Qed.

(** The entry a line of the table of rates stores, if any. *)
Local Abbreviation ratesEntry languageHeaders :=
  (fun line : string =>
     match split "," line with
     | headUpos :: depUpos :: deprel :: value :: values =>
         Some ((headUpos ++ "," ++ depUpos ++ "," ++ deprel)%string,
               ratesRow trim parseFloat languageHeaders 0
                        (headUpos :: depUpos :: deprel :: value :: values) ∅)
     | _ => None
     end).

Lemma parseHeadDirectionRatesCSV_unfold (csvText header : string)
    (lines : list string) :
  split "010" (trim csvText) = header :: lines ->
  parseHeadDirectionRatesCSV trim parseFloat csvText
  = fold_left
      (fun rates line =>
         match ratesEntry (skipn 3 (split "," header)) line with
         | Some (k, v) => <[k := v]> rates
         | None => rates
         end)
      lines ∅.
Proof.
  intros E. unfold parseHeadDirectionRatesCSV. cbv zeta. rewrite E.
  destruct lines as [|line lines]; [reflexivity|].
  cbn [length Nat.ltb Nat.leb].
  apply fold_left_ext_all. intros rates l.
  destruct (split "," l) as [|h [|d [|r [|v vs]]]]; reflexivity.
Qed.

Lemma ratesEntry_key (languageHeaders : list string) (line key : string)
    (row : gmap string cell) :
  ratesEntry languageHeaders line = Some (key, row) ->
  exists h d r value values,
    split "," line = h :: d :: r :: value :: values
    /\ key = (h ++ "," ++ d ++ "," ++ r)%string
    /\ split "," key = [h; d; r]
    /\ row = ratesRow trim parseFloat languageHeaders 0
                      (h :: d :: r :: value :: values) ∅.
Proof.
  pose proof (split_no_sep "," line) as F. intros H. cbn beta in H.
  destruct (split "," line) as [|h [|d [|r [|v vs]]]]; try discriminate H.
  inversion H. subst.
  apply Forall_cons in F as [Hh F]. apply Forall_cons in F as [Hd F].
  apply Forall_cons in F as [Hr _].
  exists h, d, r, v, vs. repeat split. apply split_three; assumption.
Qed.


(** X22. The parser of the table of rates reads the text cell by cell:
    for a line with at least four cells and a language of the header
    line, the parsed table holds, under the key made of the first three
    cells of the line and under the language, the cell of the line in
    the column of the language, as a number, or null when that cell is
    empty, blank or past the end of the line.  When a key or a language
    occurs again, the last occurrence is the one stored. *)
Theorem parsed_rate_cell (csvText header line : string)
    (before after : list string) (headUpos depUpos deprel : string)
    (cells langsBefore langsAfter : list string) (lang : string) :
  split "010" (trim csvText) = header :: before ++ line :: after ->
  split "," line = headUpos :: depUpos :: deprel :: cells ->
  cells <> [] ->
  (forall line' cells', line' ∈ after -> cells' <> [] ->
     split "," line' <> headUpos :: depUpos :: deprel :: cells') ->
  skipn 3 (split "," header) = langsBefore ++ lang :: langsAfter ->
  lang ∉ langsAfter ->
  lookup2 (parseHeadDirectionRatesCSV trim parseFloat csvText)
          (headUpos ++ "," ++ depUpos ++ "," ++ deprel) lang
  = Some (rateCell trim parseFloat (cells !! length langsBefore)).
Proof.
  intros E S Hc Hafter L Hl.
  rewrite (parseHeadDirectionRatesCSV_unfold _ _ _ E). unfold lookup2.
  destruct cells as [|v vs]; [congruence|].
  rewrite (fold_entries_last (ratesEntry (skipn 3 (split "," header)))
             before after line ∅ _
             (ratesRow trim parseFloat (skipn 3 (split "," header)) 0
                       (headUpos :: depUpos :: deprel :: v :: vs) ∅)).
  - cbn [mbind option_bind]. rewrite L, (ratesRow_last _ _ _ _ _ _ Hl).
    reflexivity.
  - rewrite S. reflexivity.
  - intros line' row' Hin K.
    apply ratesEntry_key in K as (h & d & r & v' & vs' & S' & K & _ & _).
    apply (Hafter line' (v' :: vs') Hin); [discriminate|].
    rewrite S'.
    pose proof (split_no_sep "," line) as F. rewrite S in F.
    apply Forall_cons in F as [Hh F]. apply Forall_cons in F as [Hd F].
    apply Forall_cons in F as [Hr _].
    pose proof (split_no_sep "," line') as F'. rewrite S' in F'.
    apply Forall_cons in F' as [Hh' F']. apply Forall_cons in F' as [Hd' F'].
    apply Forall_cons in F' as [Hr' _].
    pose proof (split_three _ _ _ Hh Hd Hr) as T.
    rewrite K, (split_three _ _ _ Hh' Hd' Hr') in T.
    inversion T. reflexivity.
Qed.

(** *** The similarity matrix *)

Lemma matrixRow_cells (headers : list string) (j : nat) (cells : list string)
    (row : gmap string cell) (col : string) (c : cell) :
  matrixRow parseFloat headers j cells row !! col = Some c ->
  row !! col = Some c
  \/ exists value, value ∈ cells /\ c = Num (parseFloat value).
Proof.
  revert j row. induction cells as [|v vs IH]; intros j row H;
    cbn [matrixRow] in H; [left; exact H|].
  apply IH in H as [H|(x & Hx & ->)].
  - apply lookup_insert_Some in H as [[_ <-]|[_ H]]; [|left; exact H].
    right. exists v. split; [left|reflexivity].
  - right. exists x. split; [right; exact Hx|reflexivity].
Qed.

Lemma matrixRow_keep (headers : list string) (j : nat) (cells : list string)
    (row : gmap string cell) (col : string) :
  (forall i, (i < length cells)%nat ->
             nth (j + i) headers "undefined"%string <> col) ->
  matrixRow parseFloat headers j cells row !! col = row !! col.
Proof.
  revert j row. induction cells as [|v vs IH]; intros j row H;
    cbn [matrixRow]; [reflexivity|].
  rewrite IH.
  - apply lookup_insert_ne. specialize (H 0%nat).
    rewrite Nat.add_0_r in H. apply H. cbn. lia.
  - intros i Hi. replace (S j + i)%nat with (j + S i)%nat by lia.
    apply H. cbn. lia.
Qed.

(** The cell under a column name is the last one of the line that goes
    under that name. *)
Lemma matrixRow_last (headers : list string) (j : nat)
    (before after : list string) (value : string) (row : gmap string cell) :
  (forall i, (i < length after)%nat ->
     nth (j + length before + 1 + i) headers "undefined"%string
     <> nth (j + length before) headers "undefined"%string) ->
  matrixRow parseFloat headers j (before ++ value :: after) row
    !! nth (j + length before) headers "undefined"%string
  = Some (Num (parseFloat value)).
Proof.
  revert j row. induction before as [|v vs IH]; intros j row H.
  - cbn [app matrixRow length]. cbn [length] in H.
    rewrite Nat.add_0_r in *. rewrite matrixRow_keep.
    + apply lookup_insert_eq.
    + intros i Hi. replace (S j + i)%nat with (j + 1 + i)%nat by lia.
      apply H, Hi.
  - cbn [app matrixRow length].
    replace (j + S (length vs))%nat with (S j + length vs)%nat by lia.
    apply IH. intros i Hi.
    replace (S j + length vs)%nat with (j + length (v :: vs))%nat
      by (cbn [length]; lia).
    apply H, Hi.
Qed.

Local Abbreviation matrixEntry headers :=
  (fun line : string =>
     match split "," line with
     | rowLang :: cells =>
         Some (rowLang, matrixRow parseFloat headers 0 cells ∅)
     | [] => None
     end).

Lemma parseCSV_unfold (csvText header : string) (lines : list string) :
  split "010" (trim csvText) = header :: lines ->
  parseCSV trim parseFloat csvText
  = fold_left
      (fun matrix line =>
         match matrixEntry (tail (split "," header)) line with
         | Some (k, v) => <[k := v]> matrix
         | None => matrix
         end)
      lines ∅.
Proof.
  intros E. unfold parseCSV. rewrite E. cbv zeta.
  apply fold_left_ext_all. intros matrix l.
  destruct (split "," l); reflexivity.
Qed.

(** X23. The parser of the similarity matrix reads the text cell by
    cell: the parsed matrix holds, under the first cell of a line and
    under the name of a column of the header line, the number read from
    the cell of the line in that column; when a row name or a column
    name occurs again, the last occurrence is the one stored.  A cell of
    a parsed matrix is never null: it is always the number read from a
    cell of the text, so an empty cell gives whatever [parseFloat] makes
    of the empty text. *)
Theorem parsed_matrix_cell (csvText : string) :
  (forall rowLang colLang c,
     lookup2 (parseCSV trim parseFloat csvText) rowLang colLang = Some c ->
     exists value, c = Num (parseFloat value))
  /\ (forall header line before after rowLang cellsBefore value cellsAfter,
        split "010" (trim csvText) = header :: before ++ line :: after ->
        split "," line = rowLang :: cellsBefore ++ value :: cellsAfter ->
        (forall line' cells', line' ∈ after ->
           split "," line' <> rowLang :: cells') ->
        (forall i, (i < length cellsAfter)%nat ->
           nth (length cellsBefore + 1 + i) (tail (split "," header))
               "undefined"%string
           <> nth (length cellsBefore) (tail (split "," header))
                  "undefined"%string) ->
        lookup2 (parseCSV trim parseFloat csvText) rowLang
                (nth (length cellsBefore) (tail (split "," header))
                     "undefined"%string)
        = Some (Num (parseFloat value))).
Proof.
  split.
  - intros rowLang colLang c H.
    destruct (split "010" (trim csvText)) as [|header lines] eqn:E.
    { exfalso. exact (split_nonempty _ _ E). }
    rewrite (parseCSV_unfold _ _ _ E) in H. unfold lookup2 in H.
    destruct (fold_left _ lines ∅ !! rowLang) as [row|] eqn:R; [|discriminate].
    cbn [mbind option_bind] in H.
    apply (fold_entries_elem (matrixEntry (tail (split "," header)))) in R
      as [R|(line & _ & R)]; [rewrite lookup_empty in R; discriminate|].
    destruct (split "," line) as [|r cells]; [discriminate|].
    inversion R. subst.
    apply matrixRow_cells in H as [H|(v & _ & ->)];
      [rewrite lookup_empty in H; discriminate|eauto].
  - intros header line before after rowLang cb value ca E S Hafter Hcols.
    rewrite (parseCSV_unfold _ _ _ E). unfold lookup2.
    rewrite (fold_entries_last (matrixEntry (tail (split "," header)))
               before after line ∅ _
               (matrixRow parseFloat (tail (split "," header)) 0
                          (cb ++ value :: ca) ∅)).
    + cbn [mbind option_bind].
      apply (matrixRow_last (tail (split "," header)) 0 cb ca value ∅).
      exact Hcols.
    + rewrite S. reflexivity.
    + intros line' row' Hin K.
      destruct (split "," line') as [|r cells] eqn:S'; [discriminate|].
      inversion K. subst. apply (Hafter line' cells Hin). exact S'.
Qed.

End ParsersFacts.

(** *** On two small texts *)


(** The empty cell of the second line is stored as null, the cell after
    it as a number. *)
Lemma parsed_rate_cell_witness :
  lookup2 (parseHeadDirectionRatesCSV stubTrim stubParseFloat exampleRatesCSV)
          "NOMINAL,MODIFIER,MODIFIER" "Japanese" = Some Null
  /\ lookup2 (parseHeadDirectionRatesCSV stubTrim stubParseFloat exampleRatesCSV)
             "NOMINAL,MODIFIER,MODIFIER" "English" = Some (Num 0.9).
Proof.
  split.
  - apply (parsed_rate_cell stubTrim stubParseFloat exampleRatesCSV
             "head,dep,rel,Japanese,English" "NOMINAL,MODIFIER,MODIFIER,,0.9"
             ["VERBAL,NOMINAL,CORE_ARG,0.1,0.9"%string] []
             "NOMINAL" "MODIFIER" "MODIFIER" [EmptyString; "0.9"%string]
             [] ["English"%string] "Japanese").
    + reflexivity.
    + reflexivity.
    + discriminate.
    + intros line' cells' H. apply elem_of_nil in H. contradiction.
    + reflexivity.
    + intros H. apply list_elem_of_singleton in H. discriminate.
  - apply (parsed_rate_cell stubTrim stubParseFloat exampleRatesCSV
             "head,dep,rel,Japanese,English" "NOMINAL,MODIFIER,MODIFIER,,0.9"
             ["VERBAL,NOMINAL,CORE_ARG,0.1,0.9"%string] []
             "NOMINAL" "MODIFIER" "MODIFIER" [EmptyString; "0.9"%string]
             ["Japanese"%string] [] "English").
    + reflexivity.
    + reflexivity.
    + discriminate.
    + intros line' cells' H. apply elem_of_nil in H. contradiction.
    + reflexivity.
    + intros H. apply elem_of_nil in H. contradiction.
Defined.

Lemma parsed_matrix_cell_witness :
  lookup2 (parseCSV stubTrim stubParseFloat exampleMatrixCSV)
          "Japanese" "English" = Some (Num 0.9).
Proof.
  apply (proj2 (parsed_matrix_cell stubTrim stubParseFloat exampleMatrixCSV)
           ",Japanese,English" "Japanese,0,0.9" [] ["English,0.9,0"%string]
           "Japanese" ["0"%string] "0.9" []).
  - reflexivity.
  - reflexivity.
  - intros line' cells' H. apply list_elem_of_singleton in H. subst line'.
    discriminate.
  - intros i H. cbn in H. lia.
Defined.

(** ** The ranking and the arcs of the selected node *)

Lemma sameLanguage_sym (node1 node2 : LanguageLocation) :
  sameLanguage node1 node2 = sameLanguage node2 node1.
Proof.
  unfold sameLanguage.
  assert (S : forall a b, strictEq a b = strictEq b a).
  { intros [x|] [y|]; cbn; try reflexivity. apply String.eqb_sym. }
  rewrite (S (primaryCode node2) (primaryCode node1)).
  destruct (strictEq (primaryCode node1) (primaryCode node2)) eqn:E.
  - apply strictEq_true in E. rewrite E.
    destruct (strictEq (primaryCode node2) (Some (code node2)));
      destruct (strictEq (primaryCode node2) (Some (code node1)));
      reflexivity.
  - rewrite !andb_false_r, !orb_false_r. apply orb_comm.
Qed.

Section RankingAndArcs.

Variables Math_sin Math_cos : float -> float.
Variable Math_atan2 : float -> float -> float.
Variable Number_toString : float -> string.
Variable allNodes : list LanguageLocation.
Hypothesis invariant : nodeInvariant allNodes = true.
Hypothesis nonEmpty : codesNonEmpty allNodes = true.

Lemma getLanguageByCode_node (node : LanguageLocation) :
  node ∈ allNodes -> getLanguageByCode allNodes (code node) = Some node.
Proof.
  intros Hn. pose proof (invariant_codes allNodes invariant) as ND.
  destruct (getLanguageByCode allNodes (code node)) as [q|] eqn:G.
  - apply getLanguageByCode_Some in G as [Hq E].
    f_equal. eapply (NoDup_fmap_inj code); eauto.
  - unfold getLanguageByCode in G.
    pose proof (find_none _ _ G node (proj1 (list_elem_of_In _ _) Hn)) as F.
    cbn beta in F. rewrite String.eqb_refl in F. discriminate.
Qed.

(** The ranking leaves a node out exactly when the arc builder treats
    it as the selected node or as a node of its language. *)
Lemma rankingExcluded_sameLanguage (selectedNode node : LanguageLocation) :
  selectedNode ∈ allNodes -> node ∈ allNodes ->
  ~ rankingExcluded (code selectedNode) selectedNode node
  <-> code node <> code selectedNode
      /\ sameLanguage selectedNode node = false.
Proof.
  intros Hs Hn.
  destruct (codesNonEmpty_node allNodes selectedNode nonEmpty Hs) as [_ Ts].
  split.
  - intros X. split; [intros E; apply X; left; exact E|].
    apply not_true_iff_false. intros S. apply X.
    apply sameLanguage_sound in S as [S|[S|(p & S1 & S2)]].
    + right. right. right. exists (code node).
      split; [|split; [exact S|left; reflexivity]].
      intros E. apply Ts. rewrite S, E. reflexivity.
    + right. right. left. exact S.
    + right. right. right. exists p.
      split; [|split; [exact S1|right; exact S2]].
      intros E. apply Ts. rewrite S1, E. reflexivity.
  - intros [C S] X.
    assert (C' : code selectedNode <> code node) by congruence.
    destruct (distinct_languages allNodes invariant nonEmpty
                selectedNode node Hs Hn C' S) as [_ Nn].
    apply not_true_iff_false in S. apply S.
    apply sameLanguage_complete; [exact Ts|]. unfold sameLanguageNodes.
    destruct X as [X|[X|[X|(p & _ & X1 & [X2|X2])]]].
    + contradiction.
    + congruence.
    + right. left. exact X.
    + left. congruence.
    + right. right. exists p. split; assumption.
Qed.

(** X25. On a table that satisfies its invariant and has non-empty
    codes, and for a matrix that is symmetric, the ranking panel and the
    globe agree: with a node selected, the ranking has an entry for a
    node, at a given distance, exactly when the globe draws a clickable
    arc between the selected node and that node carrying that distance,
    whatever the filter. *)
Theorem ranking_matches_arcs similarityData distanceFilter
    (selectedNode node : LanguageLocation) (d : float) :
  (forall a b, lookup2 similarityData a b = lookup2 similarityData b a) ->
  selectedNode ∈ allNodes -> node ∈ allNodes ->
  (exists item,
      item ∈ sortedSimilarities allNodes (code selectedNode) similarityData
      /\ item_code item = code node /\ item_distance item = d)
  <-> (exists arc,
         arc ∈ arcsData Math_sin Math_cos Math_atan2 Number_toString allNodes
                 similarityData distanceFilter (Some (code selectedNode))
         /\ clickable arc = true /\ distance arc = d
         /\ ((node1Code arc = code selectedNode /\ node2Code arc = code node)
             \/ (node1Code arc = code node
                 /\ node2Code arc = code selectedNode))).
Proof.
  intros Sym Hs Hn.
  pose proof (invariant_codes allNodes invariant) as ND.
  pose proof (getLanguageByCode_node selectedNode Hs) as G.
  pose proof (invariant_langName allNodes invariant selectedNode Hs) as Ls.
  pose proof (invariant_langName allNodes invariant node Hn) as Ln.
  destruct (codesNonEmpty_node allNodes selectedNode nonEmpty Hs) as [Cs _].
  assert (Tsel : truthy_opt (Some (code selectedNode)) = true)
    by (apply truthy_opt_true; eauto).
  split.
  - intros (item & Hitem & C & D).
    unfold sortedSimilarities in Hitem. rewrite G, Ls in Hitem.
    destruct (negb (truthy (name selectedNode))) eqn:T;
      [apply elem_of_nil in Hitem; contradiction|].
    apply negb_false_iff, truthy_true in T.
    destruct (similarityData !! name selectedNode) as [row|] eqn:R;
      [|apply elem_of_nil in Hitem; contradiction].
    rewrite (Array_sort_perm item_distance) in Hitem.
    apply elem_of_rankingItems in Hitem as (node' & Hn' & E).
    apply rankingItem_Some in E as (X & N & d' & LN & TN & EL & ->).
    cbn [item_code item_distance] in C, D. subst d'.
    assert (node' = node) by (eapply (NoDup_fmap_inj code); eauto).
    subst node'. rewrite Ln in LN. inversion LN. subst N.
    apply rankingExcluded_sameLanguage in X as [Cn S]; auto.
    assert (Hne : selectedNode <> node) by (intros ->; congruence).
    destruct (loopPairs_either allNodes selectedNode node Hs Hn Hne) as [Hp|Hp].
    + destruct (similarityArc_intro Math_sin Math_cos Math_atan2
                  Number_toString allNodes similarityData distanceFilter
                  (Some (code selectedNode)) selectedNode node
                  (name selectedNode) (name node) d S Ls T Ln TN EL)
        as (arc & Ea & Da & _ & K & C1 & C2).
      { unfold arcVisible. rewrite Tsel. left. reflexivity. }
      exists arc. split; [|repeat split; auto].
      unfold arcsData. apply elem_of_app. right.
      apply elem_of_similarityArcs. eauto.
    + rewrite sameLanguage_sym in S. rewrite Sym in EL.
      destruct (similarityArc_intro Math_sin Math_cos Math_atan2
                  Number_toString allNodes similarityData distanceFilter
                  (Some (code selectedNode)) node selectedNode
                  (name node) (name selectedNode) d S Ln TN Ls T EL)
        as (arc & Ea & Da & _ & K & C1 & C2).
      { unfold arcVisible. rewrite Tsel. right. reflexivity. }
      exists arc. split; [|repeat split; auto].
      unfold arcsData. apply elem_of_app. right.
      apply elem_of_similarityArcs. eauto.
  - intros (arc & Harc & K & D & Ends).
    destruct (arcsData_kinds _ _ _ _ _ _ _ _ _ Harc)
      as [(_ & _ & K')|(H & _ & _)]; [congruence|].
    apply elem_of_similarityArcs in H as (n1 & n2 & Hp & E).
    apply similarityArc_inv in E
      as (l1 & l2 & d' & S & L1 & T1 & L2 & T2 & EL & _ & Da & _ & _
          & C1 & C2 & _).
    destruct (loopPairs_elem_of _ _ _ Hp) as [H1 H2].
    apply elem_of_loopPairs in Hp as (i & j & Hij & Hi & Hj).
    assert (C12 : code n1 <> code n2).
    { intros Ec.
      pose proof (NoDup_codes_lookup allNodes i j n1 n2 ND Hi Hj Ec). lia. }
    rewrite (invariant_langName allNodes invariant n1 H1) in L1.
    rewrite (invariant_langName allNodes invariant n2 H2) in L2.
    inversion L1. inversion L2. subst l1 l2. rewrite Da in D. subst d'.
    assert (Hcase : (n1 = selectedNode /\ n2 = node)
                    \/ (n1 = node /\ n2 = selectedNode)).
    { rewrite C1, C2 in Ends. destruct Ends as [[E1 E2]|[E1 E2]]; [left|right];
        split; eapply (NoDup_fmap_inj code); eauto. }
    assert (X : ~ rankingExcluded (code selectedNode) selectedNode node
                /\ lookup2 similarityData (name selectedNode) (name node)
                   = Some (Num d)
                /\ name selectedNode <> EmptyString
                /\ name node <> EmptyString).
    { destruct Hcase as [[-> ->]|[-> ->]].
      - split; [|auto]. apply rankingExcluded_sameLanguage; auto.
      - split; [|rewrite Sym; auto].
        apply rankingExcluded_sameLanguage; auto.
        rewrite sameLanguage_sym. auto. }
    destruct X as (X & EL' & Ts & Tn).
    destruct (similarityData !! name selectedNode) as [row|] eqn:R.
    2:{ unfold lookup2 in EL'. rewrite R in EL'. discriminate. }
    exists {| item_code := code node;
              item_name := name node;
              item_nameJa := nameJa node;
              item_country := country node;
              item_similarity := 1 - d;
              item_distance := d |}.
    split; [|split; reflexivity].
    rewrite (sortedSimilarities_unfold allNodes (code selectedNode)
               similarityData selectedNode (name selectedNode) row G Ls Ts R).
    rewrite (Array_sort_perm item_distance).
    apply elem_of_rankingItems. exists node. split; [exact Hn|].
    apply rankingItem_Some. split; [exact X|].
    exists (name node), d. auto.
Qed.

End RankingAndArcs.

(** With Japanese selected and the two-way example matrix, the entry of
    the ranking for English at distance 0.82 has its arc on the globe,
    although only the bucket "far" is enabled. *)
Lemma ranking_matches_arcs_witness :
  exists arc,
    arc ∈ arcsData stubTrig stubTrig stubAtan2 stubToString workedNodes
            workedMatrix onlyFar (Some "ja"%string)
    /\ clickable arc = true /\ distance arc = 0.82.
Proof.
  destruct (workedNodes !! 0%nat) as [ja|] eqn:E1; [|discriminate].
  destruct (workedNodes !! 1%nat) as [en|] eqn:E2; [|discriminate].
  assert (Hja : ja ∈ workedNodes) by (eapply list_elem_of_lookup_2; exact E1).
  assert (Hen : en ∈ workedNodes) by (eapply list_elem_of_lookup_2; exact E2).
  assert (Cja : code ja = "ja"%string)
    by (vm_compute in E1; inversion E1; reflexivity).
  assert (Sym : forall a b, lookup2 workedMatrix a b = lookup2 workedMatrix b a).
  { intros a b. unfold lookup2, workedMatrix.
    rewrite !lookup_insert, !lookup_singleton.
    repeat case_decide; subst; cbn [mbind option_bind];
      rewrite ?lookup_singleton; repeat case_decide; subst;
      try congruence; reflexivity. }
  destruct (proj1 (ranking_matches_arcs
                     stubTrig stubTrig stubAtan2 stubToString workedNodes
                     eq_refl eq_refl workedMatrix onlyFar ja en 0.82
                     Sym Hja Hen))
    as (arc & H & K & D & _).
  - vm_compute in E1, E2. inversion E1. inversion E2. subst.
    exists {| item_code := "en";
              item_name := "English";
              item_nameJa := "英語";
              item_country := "United Kingdom";
              item_similarity := 1 - 0.82;
              item_distance := 0.82 |}.
    split; [|split; reflexivity].
    apply list_elem_of_In. vm_compute. left. reflexivity.
  - rewrite Cja in H. exists arc. auto.
Defined.

